(** * RadarChart: the layout computed by [RadarPie] and [RadarSegment]

    A shallow embedding of the layout code of [src/RadarPie/RadarPie.ts]
    and [src/RadarPie/RadarSegment.ts].  The TypeScript is written once,
    against an interface [JSNumber] of the operations it applies to JavaScript
    numbers, and read in two ways:

    - [float]: IEEE 754 binary64, the numbers the program computes with.
      What the program computes is stated for every reading of the numbers,
      and so for this one, wherever the statement needs no law of
      arithmetic; what rounding breaks (an opacity above the maximum, arcs
      that do not close the circle) is computed here.
    - [xreal]: the reals extended with [Infinity], [-Infinity] and [NaN],
      with exact arithmetic.  Stated here: what compares how (the bands of
      the classifier, the order of the opacities, arcs that do not end before
      they start, the guard on an index), the radii of the rings as the sums
      the loop adds up, and on which line through the centre and how far from
      it a point lies, which is the geometry that [Math.sin] and [Math.cos]
      approximate.  The equations that rounding breaks (the spans of the
      arcs add up to the circle) serve as lemmas here, and are claimed of
      the program nowhere. *)

From Stdlib Require Import String.
From Stdlib Require Import List Bool Arith ZArith Lia.
From Stdlib Require Import Reals Lra.
From Stdlib Require Import Floats.
Import ListNotations.

Set Implicit Arguments.
Set Warnings "-inexact-float".

(* ================================================================== *)
(** * JavaScript numbers *)
(* ================================================================== *)

(** The operations the layout code applies to numbers.  [lt] and [le] are
    JavaScript's [<] and [<=] (false as soon as an operand is [NaN]);
    [a > b] is [lt b a] and [a >= b] is [le b a].  [truthy] is the coercion
    to boolean of [if (x)] and [!x]: false on zero and on [NaN].  [ofZ] reads
    an integer literal, an array length or an array index. *)
Class JSNumber (num : Type) : Type := {
  add : num -> num -> num;
  sub : num -> num -> num;
  mul : num -> num -> num;
  div : num -> num -> num;
  lt : num -> num -> bool;
  le : num -> num -> bool;
  truthy : num -> bool;
  ofZ : Z -> num;
  NaN : num;
  Math_PI : num;
  Math_abs : num -> num;
  Math_min : num -> num -> num
}.

(** [Math.sin] and [Math.cos]. *)
Class JSTrig (num : Type) : Type := {
  Math_sin : num -> num;
  Math_cos : num -> num
}.

Declare Scope js_scope.
Delimit Scope js_scope with js.
Infix "+" := add : js_scope.
Infix "-" := sub : js_scope.
Infix "*" := mul : js_scope.
Infix "/" := div : js_scope.
Infix "<?" := lt (at level 70) : js_scope.
Infix "<=?" := le (at level 70) : js_scope.
Notation "a >? b" := (lt b a) (at level 70) : js_scope.
Notation "a >=? b" := (le b a) (at level 70) : js_scope.

Definition ofNat {num} `{JSNumber num} (n : nat) : num := ofZ (Z.of_nat n).

(** [Math.pow(x, 2)]. *)
Definition Math_pow2 {num} `{JSNumber num} (x : num) : num := mul x x.

(** ** IEEE 754 binary64 *)

Module Float64.

Definition ofZ (z : Z) : float :=
  match z with
  | Z0 => 0%float
  | Zpos _ => PrimFloat.of_uint63 (Uint63.of_Z z)
  | Zneg p => PrimFloat.opp (PrimFloat.of_uint63 (Uint63.of_Z (Zpos p)))
  end.

Definition truthy (x : float) : bool :=
  negb (PrimFloat.is_nan x || PrimFloat.is_zero x).

(** [Math.PI], the double nearest to the circle constant. *)
Definition PI : float := 0x1.921fb54442d18p+1%float.

Definition min (a b : float) : float :=
  if PrimFloat.is_nan a then a
  else if PrimFloat.is_nan b then b
  else if PrimFloat.ltb b a then b else a.

(** [Math.sin] and [Math.cos] are approximations, whose last digits an
    implementation is free to choose: the two functions below stand in for
    those of an engine, to run the layout on examples, and return other last
    digits than an engine does.  The angle is brought within half a turn of
    zero, and the power series is summed to 16 terms.  The statements on
    every reading of the numbers hold of every [Math.sin] and [Math.cos]
    ([JSTrig]), and no statement is about the digits these two return. *)
Definition nearestInteger (x : float) : float :=
  ((x + 0x1.8p52) - 0x1.8p52)%float.

Definition reduceAngle (x : float) : float :=
  (x - nearestInteger (x / (2 * PI)) * (2 * PI))%float.

Fixpoint series (terms : nat) (i : float) (term sum x2 : float) : float :=
  match terms with
  | O => sum
  | S terms' =>
      let term' := (PrimFloat.opp term * x2 / ((i + 1) * (i + 2)))%float in
      series terms' (i + 2)%float term' (sum + term')%float x2
  end.

Definition sin (x : float) : float :=
  let r := reduceAngle x in series 16 1 r r (r * r)%float.

Definition cos (x : float) : float :=
  let r := reduceAngle x in series 16 0 1 1 (r * r)%float.

End Float64.

#[export] Instance float_JSNumber : JSNumber float := {|
  add := PrimFloat.add;
  sub := PrimFloat.sub;
  mul := PrimFloat.mul;
  div := PrimFloat.div;
  lt := PrimFloat.ltb;
  le := PrimFloat.leb;
  truthy := Float64.truthy;
  ofZ := Float64.ofZ;
  NaN := PrimFloat.nan;
  Math_PI := Float64.PI;
  Math_abs := PrimFloat.abs;
  Math_min := Float64.min
|}.

#[export] Instance float_JSTrig : JSTrig float := {|
  Math_sin := Float64.sin;
  Math_cos := Float64.cos
|}.

(** ** Exact arithmetic: the extended reals *)

(** The numbers of JavaScript without rounding and without overflow: a
    real, an infinity or [NaN].  The operations follow IEEE 754 on the
    infinities and on [NaN]; on finite numbers they are those of the
    reals. *)

Inductive xreal : Type :=
| Fin (r : R)
| PInf
| NInf
| XNaN.

Module XReal.

Definition Rltb (a b : R) : bool := if Rlt_dec a b then true else false.
Definition Rleb (a b : R) : bool := if Rle_dec a b then true else false.
Definition Reqb (a b : R) : bool := if Req_dec_T a b then true else false.

(** The infinity of the sign of [r], [NaN] when [r] is zero. *)
Definition signedInf (r : R) : xreal :=
  if Rltb 0 r then PInf else if Rltb r 0 then NInf else XNaN.

Definition neg (x : xreal) : xreal :=
  match x with
  | Fin r => Fin (- r)
  | PInf => NInf
  | NInf => PInf
  | XNaN => XNaN
  end.

Definition add (x y : xreal) : xreal :=
  match x, y with
  | XNaN, _ | _, XNaN => XNaN
  | Fin a, Fin b => Fin (a + b)
  | PInf, NInf | NInf, PInf => XNaN
  | PInf, _ | _, PInf => PInf
  | NInf, _ | _, NInf => NInf
  end.

Definition sub (x y : xreal) : xreal := add x (neg y).

Definition mul (x y : xreal) : xreal :=
  match x, y with
  | XNaN, _ | _, XNaN => XNaN
  | Fin a, Fin b => Fin (a * b)
  | Fin a, PInf | PInf, Fin a => signedInf a
  | Fin a, NInf | NInf, Fin a => signedInf (- a)
  | PInf, PInf | NInf, NInf => PInf
  | PInf, NInf | NInf, PInf => NInf
  end.

(** Zero has no sign here: [a / 0] is the infinity of the sign of [a]. *)
Definition div (x y : xreal) : xreal :=
  match x, y with
  | XNaN, _ | _, XNaN => XNaN
  | Fin a, Fin b => if Reqb b 0 then signedInf a else Fin (a / b)
  | Fin _, (PInf | NInf) => Fin 0
  | PInf, Fin b => if Rltb b 0 then NInf else PInf
  | NInf, Fin b => if Rltb b 0 then PInf else NInf
  | (PInf | NInf), (PInf | NInf) => XNaN
  end.

Definition lt (x y : xreal) : bool :=
  match x, y with
  | XNaN, _ | _, XNaN => false
  | Fin a, Fin b => Rltb a b
  | NInf, (Fin _ | PInf) => true
  | Fin _, PInf => true
  | _, _ => false
  end.

Definition le (x y : xreal) : bool :=
  match x, y with
  | XNaN, _ | _, XNaN => false
  | Fin a, Fin b => Rleb a b
  | NInf, _ => true
  | _, PInf => true
  | _, _ => false
  end.

Definition truthy (x : xreal) : bool :=
  match x with
  | Fin r => negb (Reqb r 0)
  | PInf | NInf => true
  | XNaN => false
  end.

Definition abs (x : xreal) : xreal :=
  match x with
  | Fin r => Fin (Rabs r)
  | PInf | NInf => PInf
  | XNaN => XNaN
  end.

Definition min (x y : xreal) : xreal :=
  match x, y with
  | XNaN, _ | _, XNaN => XNaN
  | _, _ => if lt y x then y else x
  end.

Definition lift (f : R -> R) (x : xreal) : xreal :=
  match x with
  | Fin r => Fin (f r)
  | _ => XNaN
  end.

End XReal.

#[export] Instance xreal_JSNumber : JSNumber xreal := {|
  add := XReal.add;
  sub := XReal.sub;
  mul := XReal.mul;
  div := XReal.div;
  lt := XReal.lt;
  le := XReal.le;
  truthy := XReal.truthy;
  ofZ := fun z => Fin (IZR z);
  NaN := XNaN;
  Math_PI := Fin PI;
  Math_abs := XReal.abs;
  Math_min := XReal.min
|}.

#[export] Instance xreal_JSTrig : JSTrig xreal := {|
  Math_sin := XReal.lift sin;
  Math_cos := XReal.lift cos
|}.

(* ================================================================== *)
(** * Exceptions *)
(* ================================================================== *)

(** What a call can throw: a [TypeError] (a property read or written on
    [undefined]), or one of the two errors of [calculateAnchorPlacement],
    which carry the offending angle. *)
Inductive Exn (num : Type) : Type :=
| TypeError (where_ : string)
| InvalidRadsHorizontal (rads : num)
| InvalidRadsVertical (rads : num).

Inductive completion (num T : Type) : Type :=
| Normal (v : T)
| Throw (e : Exn num).

Arguments TypeError {num} where_.
Arguments Normal {num T} v.
Arguments Throw {num T} e.

Definition bind {num T U} (c : completion num T) (k : T -> completion num U)
  : completion num U :=
  match c with
  | Normal v => k v
  | Throw e => Throw e
  end.

Notation "x <- c ;; k" := (bind c (fun x => k))
  (at level 61, c at next level, right associativity).

(** [xs.forEach] over a body that rewrites the element and may throw. *)
Fixpoint forEachM {num T} (f : T -> completion num T) (xs : list T)
  : completion num (list T) :=
  match xs with
  | [] => Normal []
  | x :: rest =>
      x' <- f x ;;
      rest' <- forEachM f rest ;;
      Normal (x' :: rest')
  end.

(** [xs.forEach] over a body that updates a state and may throw. *)
Fixpoint foldM {num S T} (f : S -> T -> completion num S) (xs : list T) (s : S)
  : completion num S :=
  match xs with
  | [] => Normal s
  | x :: rest => s' <- f s x ;; foldM f rest s'
  end.

(** The array [xs.forEach] leaves, whether it returns or throws, over a body
    that throws before it writes: the elements before the one the body throws
    on are rewritten, this one and those behind it are as they were. *)
Fixpoint forEachWritten {num T} (f : T -> completion num T) (xs : list T)
  : list T :=
  match xs with
  | [] => []
  | x :: rest =>
      match f x with
      | Normal x' => x' :: forEachWritten f rest
      | Throw _ => x :: rest
      end
  end.

(* ================================================================== *)
(** * Arrays *)
(* ================================================================== *)

(** [xs[i] = x] for an index inside the array. *)
Fixpoint update {T} (xs : list T) (i : nat) (x : T) : list T :=
  match xs, i with
  | [], _ => []
  | _ :: rest, O => x :: rest
  | y :: rest, S j => y :: update rest j x
  end.

(** The index of the element [xs.find(p)] returns. *)
Fixpoint findIndex {T} (p : T -> bool) (xs : list T) : option nat :=
  match xs with
  | [] => None
  | x :: rest => if p x then Some O else option_map S (findIndex p rest)
  end.

(** [xs.map((x, i) => f x i)], the indices counted from [i0]. *)
Fixpoint mapi_from {T U} (f : T -> nat -> U) (i0 : nat) (xs : list T) : list U :=
  match xs with
  | [] => []
  | x :: rest => f x i0 :: mapi_from f (S i0) rest
  end.

Definition mapi {T U} (f : T -> nat -> U) (xs : list T) : list U :=
  mapi_from f 0 xs.

(* ================================================================== *)
(** * The content tree and the configuration *)
(* ================================================================== *)

(** The types of [RadarPie.ts].  The types they extend ([CatInfo],
    [SliceProcessed], [SubSliceProcessed], [SegmentProcessed],
    [RadarItemProcessed], [CatInfoSubSlice], of the data source) are read off
    the fields the layout uses.  An optional field ([arcParams?], [radius?])
    is an [option]; [None] is [undefined].  Field names carry the name of
    their record. *)

Inductive HAnchor : Type := h_middle | h_start | h_end.

Inductive VAnchor : Type :=
| v_baseline | v_alphabetical | v_ideographic | v_hanging | v_mathematical
| v_middle | v_central | v_text_before_edge | v_text_after_edge.

Record TextPlacement : Type := {
  hAnchor : HAnchor;
  vAnchor : VAnchor
}.

Section Types.

Variable num : Type.

(** [d3.DefaultArcObject]. *)
Record DefaultArcObject : Type := {
  arc_innerRadius : num;
  arc_outerRadius : num;
  arc_startAngle : num;
  arc_endAngle : num;
  arc_padAngle : num
}.

Record RadarItem : Type := {
  item_groupId : string;
  item_x : option num;
  item_y : option num
}.

Record LabelData : Type := {
  ld_x : num;
  ld_y : num;
  ld_bBoxPadding : num;
  ld_labelPlacement : TextPlacement
}.

Record DividerLine : Type := {
  line_x1 : num;
  line_y1 : num;
  line_x2 : num;
  line_y2 : num
}.

Record SliceLabelData : Type := {
  sld_x : num;
  sld_y : num;
  sld_bBoxPadding : num;
  sld_labelPlacement : TextPlacement;
  sld_midAngle : num;
  sld_dividerLine : DividerLine
}.

Record Segment : Type := {
  seg_ringId : string;
  seg_ringLevel : nat;
  seg_items : list RadarItem;
  seg_arcParams : option DefaultArcObject
}.

Record SubSlice : Type := {
  ss_id : string;
  ss_label : string;
  ss_isDummy : bool;
  ss_arcParams : option DefaultArcObject;
  ss_labelData : option LabelData;
  ss_segments : list Segment
}.

Record Slice : Type := {
  slice_id : string;
  slice_label : string;
  slice_labelData : option SliceLabelData;
  slice_subSlices : list SubSlice
}.

Record RingInfo : Type := {
  ring_id : string;
  ring_itemCount : num;
  ring_opacity : option num;
  ring_innerRadius : option num;
  ring_radius : option num
}.

Record CatInfo : Type := {
  cat_id : string;
  cat_itemCount : num
}.

Record CatInfoSubSlice : Type := {
  css_id : string;
  css_sliceId : string;
  css_itemCount : num
}.

Record RadarContent : Type := {
  rc_slices : list Slice;
  rc_subSlices : list CatInfoSubSlice;
  rc_rings : list RingInfo;
  rc_groups : list CatInfo;
  rc_items : list RadarItem
}.

(** [RadarPieConfig], without the item marker, which the layout does not
    read. *)
Record RadarPieConfig : Type := {
  outerRadius : num;
  innerRadius : num;
  minSubSliceAngle : num;
  subSlicePadAngle : num;
  sliceDividerOutFlowLength : num;
  sliceLabelDistance : num;
  subSliceLabelDistance : num;
  sliceLabelPadding : num;
  subSliceLabelPadding : num;
  minRingRadius : num;
  ringPadding : num;
  ringMinOpacity : num;
  ringMaxOpacity : num
}.

(** An arc as [d3.pie] returns it. *)
Record PieArcDatum (T : Type) : Type := {
  pie_data : T;
  pie_index : nat;
  pie_value : num;
  pie_startAngle : num;
  pie_endAngle : num;
  pie_padAngle : num
}.

End Types.

(** [DEFAULT_RADAR_PIE_CONFIG]. *)
Definition DEFAULT_RADAR_PIE_CONFIG : RadarPieConfig float := {|
  outerRadius := 250%float;
  innerRadius := 0%float;
  minSubSliceAngle := 12%float;
  subSlicePadAngle := 0.2%float;
  minRingRadius := 30%float;
  ringPadding := 0%float;
  ringMinOpacity := 0.2%float;
  ringMaxOpacity := 1%float;
  sliceDividerOutFlowLength := 0%float;
  sliceLabelDistance := 60%float;
  subSliceLabelDistance := 10%float;
  sliceLabelPadding := 4%float;
  subSliceLabelPadding := 2%float
|}.

(* ================================================================== *)
(** * Helpers of the layout *)
(* ================================================================== *)

Section Helpers.

Context {num : Type} `{JSNumber num}.
Local Open Scope js_scope.

(** The number an optional numeric field gives where a number is expected:
    [undefined] in arithmetic, or under d3's unary [+], is [NaN]. *)
Definition toNumber (v : option num) : num :=
  match v with
  | Some x => x
  | None => NaN
  end.

(** Modelled from the spec: [degToRad] of [geometricUtils], which is not
    among the sources: the angle of [deg] degrees in radians, 360 degrees
    being 2 pi radians. *)
Definition degToRad (deg : num) : num := (deg * Math_PI) / ofZ 180.

(** [d3.sum(values, valueof)]: the values that coerce to false (zero and
    [NaN]) are skipped, the others added from left to right. *)
Definition d3_sum {T} (values : list T) (valueof : T -> nat -> num) : num :=
  fold_left (fun sum value : num => if truthy value then sum + value else sum)
            (mapi valueof values) (ofZ 0).

(** Modelled from the spec: the Proportional Scaler [scaleProportional] of
    [utils], which is not among the sources.  One round of it, over the
    weights with the flags of the items clamped so far: the shares of the
    remaining budget, by weight, among the items not clamped. *)
Definition poolWeight (ws : list num) (clamped : list bool) : num :=
  fold_left add
    (map (fun wc : num * bool => if snd wc then ofZ 0 else fst wc)
         (combine ws clamped))
    (ofZ 0).

(** Modelled from the spec: the number of items clamped to the floor so
    far. *)
Definition clampedCount (clamped : list bool) : nat :=
  length (filter (fun c => c) clamped).

(** Modelled from the spec: the share of an item of weight [w] in what the
    floors of the clamped items leave of the budget. *)
Definition share (ws : list num) (clamped : list bool) (total minimum w : num)
  : num :=
  (w / poolWeight ws clamped)
  * (total - minimum * ofNat (clampedCount clamped)).

(** Modelled from the spec: the items of a round whose share is not at
    least the floor are clamped too.  That is a share under the floor, and
    also the share [0 / 0] of an item without weight in a pool without
    weight: an item of weight zero receives the floor. *)
Definition clampRound (ws : list num) (clamped : list bool)
           (total minimum : num) : list bool :=
  map (fun wc : num * bool =>
         snd wc
         || negb (share ws clamped total minimum (fst wc) >=? minimum))
      (combine ws clamped).

(** Modelled from the spec: a clamped item receives the floor, the others
    their share. *)
Definition scaledOutput (ws : list num) (clamped : list bool)
           (total minimum : num) : list num :=
  map (fun wc : num * bool =>
         if snd wc then minimum
                 else share ws clamped total minimum (fst wc))
      (combine ws clamped).

(** Modelled from the spec: the rounds are repeated until one clamps no
    further item; each round before that clamps one more at least, so
    [length ws] rounds are enough. *)
Fixpoint scaleRounds (rounds : nat) (ws : list num) (clamped : list bool)
         (total minimum : num) : list num :=
  match rounds with
  | O => scaledOutput ws clamped total minimum
  | S rounds' =>
      let clamped' := clampRound ws clamped total minimum in
      if Nat.eqb (clampedCount clamped') (clampedCount clamped)
      then scaledOutput ws clamped total minimum
      else scaleRounds rounds' ws clamped' total minimum
  end.

(** Modelled from the spec: [scaleProportional(weights, total, minimum)].
    When the floors alone exceed the budget every item receives the
    floor. *)
Definition scaleProportional (ws : list num) (total minimum : num) : list num :=
  if total <? minimum * ofNat (length ws)
  then map (fun _ => minimum) ws
  else scaleRounds (length ws) ws (map (fun _ => false) ws) total minimum.

(** Modelled from the spec: [d3.pie().sort(null).value(value)
    .padAngle(padAngle)] of the d3 library, applied to [data]: the circle
    from angle 0 to [2 * Math.PI] is cut into consecutive arcs in the order
    of the data; each arc spans the pad angle plus its part, by value, of
    what the pads leave of the circle, and a value that is not positive
    takes no part.  The pad angle is capped at an equal share of the
    circle.  The start angle 0 and the end angle [2 * Math.PI] are the
    defaults of d3, which the constructor keeps. *)
Definition pie_tau : num := ofZ 2 * Math_PI.

Definition pie_p (n : nat) (padAngle : num) : num :=
  Math_min (Math_abs pie_tau / ofNat n) padAngle.

Definition pie_sum (values : list num) : num :=
  fold_left (fun sum v : num => if v >? ofZ 0 then sum + v else sum) values (ofZ 0).

Definition pie_k (n : nat) (p : num) (values : list num) : num :=
  if truthy (pie_sum values)
  then (pie_tau - ofNat n * p) / pie_sum values
  else ofZ 0.

Fixpoint pie_arcs {T} (k p : num) (i : nat) (a0 : num)
         (dvs : list (T * num)) : list (PieArcDatum num T) :=
  match dvs with
  | [] => []
  | (d, v) :: rest =>
      let a1 := a0 + (if v >? ofZ 0 then v * k else ofZ 0) + p in
      {| pie_data := d; pie_index := i; pie_value := v;
         pie_startAngle := a0; pie_endAngle := a1; pie_padAngle := p |}
      :: pie_arcs k p (S i) a1 rest
  end.

Definition d3_pie {T} (value : T -> nat -> num) (padAngle : num)
           (data : list T) : list (PieArcDatum num T) :=
  let n := length data in
  let values := mapi value data in
  let p := pie_p n padAngle in
  pie_arcs (pie_k n p values) p 0 (ofZ 0) (combine data values).

End Helpers.

(* ================================================================== *)
(** * [RadarPie] *)
(* ================================================================== *)

Section RadarPie.

Context {num : Type} `{JSNumber num} `{JSTrig num}.
Local Open Scope js_scope.

(** ** [RadarPie.calculateAnchorPlacement] *)

Definition H_CUT_OFF_DEGREE : num := ofZ 10.
Definition V_CUT_OFF_DEGREE : num := ofZ 45.

(** [endAngle] is [None] when the call passes one argument.  [!endAngle]
    holds of [undefined] and of an end angle that coerces to false. *)
Definition anchorRads (startOrMidAngle : num) (endAngle : option num) : num :=
  match endAngle with
  | None => startOrMidAngle
  | Some e =>
      if truthy e
      then (e - startOrMidAngle) / ofZ 2 + startOrMidAngle
      else startOrMidAngle
  end.

Definition horizontalAnchor (rads : num) : completion num HAnchor :=
  (* circle top section *)
  if (rads >? degToRad (ofZ 360 - H_CUT_OFF_DEGREE))
     || (rads <? degToRad H_CUT_OFF_DEGREE)
  then Normal h_middle
  (* bottom section *)
  else if (rads >? degToRad (ofZ 180 - H_CUT_OFF_DEGREE))
          && (rads <? degToRad (ofZ 180 + H_CUT_OFF_DEGREE))
  then Normal h_middle
  (* right section *)
  else if (rads >=? degToRad H_CUT_OFF_DEGREE)
          && (rads <=? degToRad (ofZ 180 - H_CUT_OFF_DEGREE))
  then Normal h_start
  (* left section *)
  else if (rads >=? degToRad (ofZ 180 + H_CUT_OFF_DEGREE))
          && (rads <=? degToRad (ofZ 360 - H_CUT_OFF_DEGREE))
  then Normal h_end
  else Throw (InvalidRadsHorizontal rads).

Definition verticalAnchor (rads : num) : completion num VAnchor :=
  (* circle top section *)
  if (rads >? degToRad (ofZ 360 - V_CUT_OFF_DEGREE))
     || (rads <? degToRad V_CUT_OFF_DEGREE)
  then Normal v_baseline
  (* bottom section *)
  else if (rads >? degToRad (ofZ 180 - V_CUT_OFF_DEGREE))
          && (rads <? degToRad (ofZ 180 + V_CUT_OFF_DEGREE))
  then Normal v_hanging
  (* right section *)
  else if (rads >=? degToRad V_CUT_OFF_DEGREE)
          && (rads <=? degToRad (ofZ 180 - V_CUT_OFF_DEGREE))
  then Normal v_middle
  (* left section *)
  else if (rads >=? degToRad (ofZ 180 + V_CUT_OFF_DEGREE))
          && (rads <=? degToRad (ofZ 360 - V_CUT_OFF_DEGREE))
  then Normal v_middle
  else Throw (InvalidRadsVertical rads).

Definition calculateAnchorPlacement (startOrMidAngle : num)
           (endAngle : option num) : completion num TextPlacement :=
  let rads := anchorRads startOrMidAngle endAngle in
  h <- horizontalAnchor rads ;;
  v <- verticalAnchor rads ;;
  Normal {| hAnchor := h; vAnchor := v |}.

(** ** The constructor: radius and opacity of each ring *)

Variable config : RadarPieConfig num.

Definition availableRadius (rings : list (RingInfo num)) : num :=
  outerRadius config - innerRadius config
  - ringPadding config * (ofNat (length rings) - ofZ 1).

Definition ringWeights (rings : list (RingInfo num)) : list num :=
  mapi (fun r level =>
          ring_itemCount r
          * Math_pow2 (ofNat (length rings) - ofNat level)
          * Math_PI)
       rings.

Definition scaledRadiuses (rings : list (RingInfo num)) : list num :=
  scaleProportional (ringWeights rings) (availableRadius rings)
                    (minRingRadius config).

Definition ringOpacity (ringCount ringLevel : nat) : num :=
  ((ringMaxOpacity config - ringMinOpacity config)
   * (ofNat ringCount - ofNat ringLevel - ofZ 1))
  / (ofNat ringCount - ofZ 1)
  + ringMinOpacity config.

(** The sum reads the radius of the rings below [ringLevel] only, as the
    earlier iterations left it. *)
Definition ringInnerRadius (rings : list (RingInfo num)) (ringLevel : nat)
  : num :=
  innerRadius config
  + d3_sum rings
      (fun r idx =>
         if Nat.ltb idx ringLevel
         then toNumber (ring_radius r) + ringPadding config
         else ofZ 0).

(** One iteration of [rings.forEach], on the array as the earlier
    iterations left it. *)
Definition ringStep (scaled : list num) (rings : list (RingInfo num))
           (ringLevel : nat) : list (RingInfo num) :=
  match nth_error rings ringLevel with
  | None => rings
  | Some ring =>
      update rings ringLevel
        {| ring_id := ring_id ring;
           ring_itemCount := ring_itemCount ring;
           ring_opacity := Some (ringOpacity (length rings) ringLevel);
           ring_innerRadius := Some (ringInnerRadius rings ringLevel);
           ring_radius := nth_error scaled ringLevel |}
  end.

(** The array after the iterations of [rings.forEach] for the levels
    before [k]. *)
Definition ringsAfter (scaled : list num) (rings : list (RingInfo num))
           (k : nat) : list (RingInfo num) :=
  fold_left (ringStep scaled) (seq 0 k) rings.

Definition layoutRings (rings : list (RingInfo num)) : list (RingInfo num) :=
  ringsAfter (scaledRadiuses rings) rings (length rings).

(** The ring at level [i] as iteration [i] leaves it. *)
Definition ringLaidOut (scaled : list num) (rings : list (RingInfo num))
           (i : nat) (ring : RingInfo num) : RingInfo num :=
  {| ring_id := ring_id ring;
     ring_itemCount := ring_itemCount ring;
     ring_opacity := Some (ringOpacity (length rings) i);
     ring_innerRadius := Some (ringInnerRadius (ringsAfter scaled rings i) i);
     ring_radius := nth_error scaled i |}.

(** ** The constructor: angles of the sub-slices, arcs of the segments *)

Definition scaledSubSlices (subSlices : list (CatInfoSubSlice num))
  : list num :=
  scaleProportional (map (@css_itemCount num) subSlices) (ofZ 360)
                    (minSubSliceAngle config).

(** [subSliceGen(this.radarContent.subSlices)]: the value of the sub-slice
    at [idx] is [scaledSubSlices[idx]], which d3 coerces to a number. *)
Definition subSliceArcs (subSlices : list (CatInfoSubSlice num))
  : list (PieArcDatum num (CatInfoSubSlice num)) :=
  d3_pie (fun _ idx => toNumber (nth_error (scaledSubSlices subSlices) idx))
         (degToRad (subSlicePadAngle config))
         subSlices.

(** The arc of a segment: the angles of its sub-slice, the radii of its
    ring.  The radius is read from the ring found by [segment.ringId], the
    inner radius from the ring at index [segment.ringLevel]. *)
Definition segmentArc (rings : list (RingInfo num))
           (subSliceArc : DefaultArcObject num) (segment : Segment num)
  : completion num (Segment num) :=
  match find (fun r => String.eqb (ring_id r) (seg_ringId segment)) rings with
  | None => Throw (TypeError "rings.find(...).radius")
  | Some found =>
      let ringRadius := toNumber (ring_radius found) in
      match nth_error rings (seg_ringLevel segment) with
      | None => Throw (TypeError "rings[segment.ringLevel].innerRadius")
      | Some atLevel =>
          let ringInnerRadius := toNumber (ring_innerRadius atLevel) in
          Normal
            {| seg_ringId := seg_ringId segment;
               seg_ringLevel := seg_ringLevel segment;
               seg_items := seg_items segment;
               seg_arcParams :=
                 Some {| arc_startAngle := arc_startAngle subSliceArc;
                         arc_endAngle := arc_endAngle subSliceArc;
                         arc_padAngle := arc_padAngle subSliceArc;
                         arc_innerRadius := ringInnerRadius;
                         arc_outerRadius := ringInnerRadius + ringRadius |} |}
      end
  end.

(** The arc [subSlice.arcParams] is the arc d3 returned, with the radii
    of the configuration written into it. *)
Definition subSliceArcParams (arc : PieArcDatum num (CatInfoSubSlice num))
  : DefaultArcObject num :=
  {| arc_innerRadius := innerRadius config;
     arc_outerRadius := outerRadius config;
     arc_startAngle := pie_startAngle arc;
     arc_endAngle := pie_endAngle arc;
     arc_padAngle := pie_padAngle arc |}.

Definition subSliceLabelData (arcParams : DefaultArcObject num)
  : completion num (LabelData num) :=
  labelPlacement <- calculateAnchorPlacement (arc_startAngle arcParams)
                      (Some (arc_endAngle arcParams)) ;;
  let midAngle :=
    (arc_endAngle arcParams - arc_startAngle arcParams) / ofZ 2
    + arc_startAngle arcParams in
  Normal
    {| ld_labelPlacement := labelPlacement;
       ld_bBoxPadding := subSliceLabelPadding config;
       ld_x := (arc_outerRadius arcParams + subSliceLabelDistance config)
               * Math_sin midAngle;
       ld_y := ofZ (-1)
               * (arc_outerRadius arcParams + subSliceLabelDistance config)
               * Math_cos midAngle |}.

Definition layoutSubSlice (rings : list (RingInfo num))
           (arc : PieArcDatum num (CatInfoSubSlice num))
           (subSlice : SubSlice num) : completion num (SubSlice num) :=
  let arcParams := subSliceArcParams arc in
  labelData <- subSliceLabelData arcParams ;;
  segments <- forEachM (segmentArc rings arcParams) (ss_segments subSlice) ;;
  Normal
    {| ss_id := ss_id subSlice;
       ss_label := ss_label subSlice;
       ss_isDummy := ss_isDummy subSlice;
       ss_arcParams := Some arcParams;
       ss_labelData := Some labelData;
       ss_segments := segments |}.

(** One iteration of [subSliceArcs.forEach]: the sub-slice of the arc is
    the first sub-slice with the id of [arc.data] in the first slice with
    the id [arc.data.sliceId]. *)
Definition subSliceArcStep (content : RadarContent num)
           (arc : PieArcDatum num (CatInfoSubSlice num))
  : completion num (RadarContent num) :=
  let slices := rc_slices content in
  match findIndex (fun slice => String.eqb (css_sliceId (pie_data arc))
                                           (slice_id slice)) slices with
  | None => Throw (TypeError "slices.find(...).subSlices")
  | Some i =>
      match nth_error slices i with
      | None => Throw (TypeError "slices.find(...).subSlices")
      | Some slice =>
          match findIndex (fun subSlice => String.eqb (ss_id subSlice)
                                             (css_id (pie_data arc)))
                          (slice_subSlices slice) with
          | None => Throw (TypeError "subSlice.arcParams")
          | Some j =>
              match nth_error (slice_subSlices slice) j with
              | None => Throw (TypeError "subSlice.arcParams")
              | Some subSlice =>
                  subSlice' <- layoutSubSlice (rc_rings content) arc subSlice ;;
                  Normal
                    {| rc_slices :=
                         update slices i
                           {| slice_id := slice_id slice;
                              slice_label := slice_label slice;
                              slice_labelData := slice_labelData slice;
                              slice_subSlices :=
                                update (slice_subSlices slice) j subSlice' |};
                       rc_subSlices := rc_subSlices content;
                       rc_rings := rc_rings content;
                       rc_groups := rc_groups content;
                       rc_items := rc_items content |}
              end
          end
      end
  end.

(** ** The constructor: separator lines and labels of the slices *)

Definition sliceLabelDataOf (firstArcParams lastArcParams : DefaultArcObject num)
  : completion num (SliceLabelData num) :=
  let midAngle :=
    arc_startAngle firstArcParams
    + (arc_endAngle lastArcParams - arc_startAngle firstArcParams) / ofZ 2 in
  labelPlacement <- calculateAnchorPlacement midAngle None ;;
  Normal
    {| sld_x := Math_cos (midAngle - Math_PI / ofZ 2)
                * (arc_outerRadius firstArcParams + sliceLabelDistance config);
       sld_y := Math_sin (midAngle - Math_PI / ofZ 2)
                * (arc_outerRadius firstArcParams + sliceLabelDistance config);
       sld_labelPlacement := labelPlacement;
       sld_bBoxPadding := sliceLabelPadding config;
       sld_midAngle := midAngle;
       sld_dividerLine :=
         {| line_x1 := Math_cos (arc_startAngle firstArcParams - Math_PI / ofZ 2)
                       * arc_innerRadius firstArcParams;
            line_y1 := Math_sin (arc_startAngle firstArcParams - Math_PI / ofZ 2)
                       * arc_innerRadius firstArcParams;
            line_x2 := Math_cos (arc_startAngle firstArcParams - Math_PI / ofZ 2)
                       * (arc_outerRadius firstArcParams
                          + sliceDividerOutFlowLength config);
            line_y2 := Math_sin (arc_startAngle firstArcParams - Math_PI / ofZ 2)
                       * (arc_outerRadius firstArcParams
                          + sliceDividerOutFlowLength config) |} |}.

(** One iteration of [slices.forEach]. *)
Definition sliceStep (slice : Slice num) : completion num (Slice num) :=
  match nth_error (slice_subSlices slice) 0,
        nth_error (slice_subSlices slice)
                  (length (slice_subSlices slice) - 1) with
  | Some firstSubSlice, Some lastSubSlice =>
      match ss_arcParams firstSubSlice, ss_arcParams lastSubSlice with
      | Some firstArcParams, Some lastArcParams =>
          labelData <- sliceLabelDataOf firstArcParams lastArcParams ;;
          Normal
            {| slice_id := slice_id slice;
               slice_label := slice_label slice;
               slice_labelData := Some labelData;
               slice_subSlices := slice_subSlices slice |}
      | _, _ => Throw (TypeError "firstArcParams.startAngle")
      end
  | _, _ => Throw (TypeError "slice.subSlices[0].arcParams")
  end.

(** ** The constructor *)

(** What the constructor does to the content tree it is given, when it
    returns.  A throw abandons the construction: the tree as it is left then
    is [layoutWritten], below. *)
Definition layout (content : RadarContent num)
  : completion num (RadarContent num) :=
  let content1 :=
    {| rc_slices := rc_slices content;
       rc_subSlices := rc_subSlices content;
       rc_rings := layoutRings (rc_rings content);
       rc_groups := rc_groups content;
       rc_items := rc_items content |} in
  content2 <- foldM subSliceArcStep (subSliceArcs (rc_subSlices content1))
                    content1 ;;
  slices <- forEachM sliceStep (rc_slices content2) ;;
  Normal
    {| rc_slices := slices;
       rc_subSlices := rc_subSlices content2;
       rc_rings := rc_rings content2;
       rc_groups := rc_groups content2;
       rc_items := rc_items content2 |}.

(** ** The tree as the constructor leaves it *)

(** The constructor writes into the tree as it goes, so that a throw leaves
    what was written before it.  A sub-slice as an iteration of
    [subSliceArcs.forEach] leaves it, whether it returns or throws: the arc
    is written first; the label data are, unless the classifier throws; then
    the arcs of the segments, up to the first segment whose ring is
    missing. *)
Definition subSliceWritten (rings : list (RingInfo num))
           (arc : PieArcDatum num (CatInfoSubSlice num))
           (subSlice : SubSlice num) : SubSlice num :=
  let arcParams := subSliceArcParams arc in
  match subSliceLabelData arcParams with
  | Throw _ =>
      {| ss_id := ss_id subSlice;
         ss_label := ss_label subSlice;
         ss_isDummy := ss_isDummy subSlice;
         ss_arcParams := Some arcParams;
         ss_labelData := ss_labelData subSlice;
         ss_segments := ss_segments subSlice |}
  | Normal labelData =>
      {| ss_id := ss_id subSlice;
         ss_label := ss_label subSlice;
         ss_isDummy := ss_isDummy subSlice;
         ss_arcParams := Some arcParams;
         ss_labelData := Some labelData;
         ss_segments :=
           forEachWritten (segmentArc rings arcParams)
                          (ss_segments subSlice) |}
  end.

(** The tree as one iteration of [subSliceArcs.forEach] leaves it: as it
    was, when the iteration finds no sub-slice for the arc. *)
Definition subSliceArcStepWritten (content : RadarContent num)
           (arc : PieArcDatum num (CatInfoSubSlice num))
  : RadarContent num :=
  let slices := rc_slices content in
  match findIndex (fun slice => String.eqb (css_sliceId (pie_data arc))
                                           (slice_id slice)) slices with
  | None => content
  | Some i =>
      match nth_error slices i with
      | None => content
      | Some slice =>
          match findIndex (fun subSlice => String.eqb (ss_id subSlice)
                                             (css_id (pie_data arc)))
                          (slice_subSlices slice) with
          | None => content
          | Some j =>
              match nth_error (slice_subSlices slice) j with
              | None => content
              | Some subSlice =>
                  {| rc_slices :=
                       update slices i
                         {| slice_id := slice_id slice;
                            slice_label := slice_label slice;
                            slice_labelData := slice_labelData slice;
                            slice_subSlices :=
                              update (slice_subSlices slice) j
                                (subSliceWritten (rc_rings content) arc
                                                 subSlice) |};
                     rc_subSlices := rc_subSlices content;
                     rc_rings := rc_rings content;
                     rc_groups := rc_groups content;
                     rc_items := rc_items content |}
              end
          end
      end
  end.

(** The tree as [subSliceArcs.forEach] leaves it: the loop stops at the
    first iteration that throws. *)
Fixpoint arcsWritten (arcs : list (PieArcDatum num (CatInfoSubSlice num)))
         (content : RadarContent num) : RadarContent num :=
  match arcs with
  | [] => content
  | arc :: rest =>
      match subSliceArcStep content arc with
      | Normal content' => arcsWritten rest content'
      | Throw _ => subSliceArcStepWritten content arc
      end
  end.

(** The tree as the constructor leaves it, whether it returns or throws:
    the loop over the rings has run; the loop over the arcs has run as far
    as it got; and when this one has returned, the loop over the slices has
    run as far as it got. *)
Definition layoutWritten (content : RadarContent num) : RadarContent num :=
  let content1 :=
    {| rc_slices := rc_slices content;
       rc_subSlices := rc_subSlices content;
       rc_rings := layoutRings (rc_rings content);
       rc_groups := rc_groups content;
       rc_items := rc_items content |} in
  let arcs := subSliceArcs (rc_subSlices content1) in
  let content2 := arcsWritten arcs content1 in
  match foldM subSliceArcStep arcs content1 with
  | Throw _ => content2
  | Normal _ =>
      {| rc_slices := forEachWritten sliceStep (rc_slices content2);
         rc_subSlices := rc_subSlices content2;
         rc_rings := rc_rings content2;
         rc_groups := rc_groups content2;
         rc_items := rc_items content2 |}
  end.

End RadarPie.

(* ================================================================== *)
(** * [RadarSegment] *)
(* ================================================================== *)

Section RadarSegment.

Context {num : Type} `{JSNumber num}.
Local Open Scope js_scope.

Definition Point : Type := (num * num)%type.

(** The functions the constructor calls and the sources do not hold: the
    arc generator of d3 ([d3.arc()] applied to arc parameters, and its
    [centroid]), and [flattenSVGPath] and [distributePointsWithinBoundary]
    of [geometricUtils]. *)
Variable arcGenerator : DefaultArcObject num -> string.
Variable arcGenerator_centroid : DefaultArcObject num -> Point.
Variable flattenSVGPath : string -> list Point.
Variable distributePointsWithinBoundary : list Point -> nat -> list Point.

(** The calls of these functions, in the order they are made. *)
Inductive Call : Type :=
| CallArcGenerator (arcParams : DefaultArcObject num)
| CallCentroid (arcParams : DefaultArcObject num)
| CallFlattenSVGPath (path : string)
| CallDistributePoints (boundary : list Point) (count : nat).

Definition SYMBOL_BOUND_RADIUS : num := ofZ 6.
Definition PADDING_ANGLE : num := (ofZ 2 * Math_PI) / ofZ 180.
Definition PAD_INNER_RADIUS : num := SYMBOL_BOUND_RADIUS.
Definition PAD_OUTER_RADIUS : num := ofZ (-6).

Record RadarSegment : Type := {
  segment : Segment num;
  opacity : option num;
  arcCentroid : Point;
  arcPathString : string;
  itemBoundaryPolygonPoints : list Point
}.

Definition paddedArcParams (arcParams : DefaultArcObject num)
           (paddingAngle padInnerRadius padOuterRadius : num)
  : DefaultArcObject num :=
  {| arc_startAngle := arc_startAngle arcParams;
     arc_endAngle := arc_endAngle arcParams;
     arc_padAngle := arc_padAngle arcParams + paddingAngle;
     arc_innerRadius := arc_innerRadius arcParams + padInnerRadius;
     arc_outerRadius := arc_outerRadius arcParams + padOuterRadius |}.

(** [RadarSegment.getItemBoundaryArc], with the calls it makes. *)
Definition getItemBoundaryArc (arcParams : DefaultArcObject num)
           (paddingAngle padInnerRadius padOuterRadius : num)
  : list Point * list Call :=
  let padded :=
    paddedArcParams arcParams paddingAngle padInnerRadius padOuterRadius in
  let containingArcPathString := arcGenerator padded in
  (flattenSVGPath containingArcPathString,
   [CallArcGenerator arcParams; CallArcGenerator padded;
    CallFlattenSVGPath containingArcPathString]).

(** [items[idx].x = p[0]; items[idx].y = p[1]]. *)
Definition setPosition (items : list (RadarItem num)) (idx : nat) (p : Point)
  : completion num (list (RadarItem num)) :=
  match nth_error items idx with
  | None => Throw (TypeError "segment.items[idx].x")
  | Some item =>
      Normal (update items idx
                {| item_groupId := item_groupId item;
                   item_x := Some (fst p);
                   item_y := Some (snd p) |})
  end.

(** [points.forEach((p, idx) => ...)]. *)
Definition setPositions (items : list (RadarItem num)) (points : list Point)
  : completion num (list (RadarItem num)) :=
  foldM (fun its ip => setPosition its (fst ip) (snd ip))
        (combine (seq 0 (length points)) points) items.

(** The constructor: the segment object built, with the positions written
    into the items of the segment it was given, and the calls made.  The
    arc generator reads the fields of [segment.arcParams], and throws when
    there are none. *)
Definition RadarSegment_constructor (seg : Segment num)
           (rings : list (RingInfo num))
  : completion num (RadarSegment * list Call) :=
  match nth_error rings (seg_ringLevel seg) with
  | None => Throw (TypeError "rings[this.segment.ringLevel].opacity")
  | Some ring =>
      match seg_arcParams seg with
      | None => Throw (TypeError "arcGenerator(this.segment.arcParams)")
      | Some arcParams =>
          let path := arcGenerator arcParams in
          let centroid := arcGenerator_centroid arcParams in
          let '(boundary, boundaryCalls) :=
            getItemBoundaryArc arcParams PADDING_ANGLE PAD_INNER_RADIUS
                               PAD_OUTER_RADIUS in
          let calls :=
            [CallArcGenerator arcParams; CallCentroid arcParams]
            ++ boundaryCalls in
          let count := length (seg_items seg) in
          itemsAndCalls <-
            (if Nat.eqb count 1
             then
               items <- setPosition (seg_items seg) 0 centroid ;;
               Normal (items, calls)
             else if Nat.ltb 0 count
             then
               items <- setPositions (seg_items seg)
                          (distributePointsWithinBoundary boundary count) ;;
               Normal (items, calls ++ [CallDistributePoints boundary count])
             else Normal (seg_items seg, calls)) ;;
          Normal
            ({| segment :=
                  {| seg_ringId := seg_ringId seg;
                     seg_ringLevel := seg_ringLevel seg;
                     seg_items := fst itemsAndCalls;
                     seg_arcParams := seg_arcParams seg |};
                opacity := ring_opacity ring;
                arcCentroid := centroid;
                arcPathString := path;
                itemBoundaryPolygonPoints := boundary |},
             snd itemsAndCalls)
      end
  end.

(** An item with its position set to [p]. *)
Definition placedAt (p : Point) (item : RadarItem num) : RadarItem num :=
  {| item_groupId := item_groupId item;
     item_x := Some (fst p);
     item_y := Some (snd p) |}.

(** No call of [distributePointsWithinBoundary] among [calls]. *)
Definition noDistribution (calls : list Call) : Prop :=
  forall boundary count, ~ In (CallDistributePoints boundary count) calls.

End RadarSegment.

(** [d3.arc().centroid(arcParams)] of the d3 library: the point at the middle
    radius on the middle angle of the arc, angles counted clockwise from
    twelve o'clock. *)
Definition d3_arc_centroid {num} `{JSNumber num} `{JSTrig num}
           (arcParams : DefaultArcObject num) : num * num :=
  let r := div (add (arc_innerRadius arcParams) (arc_outerRadius arcParams))
               (ofZ 2) in
  let a := sub (div (add (arc_startAngle arcParams) (arc_endAngle arcParams))
                    (ofZ 2))
               (div Math_PI (ofZ 2)) in
  (mul (Math_cos a) r, mul (Math_sin a) r).

(* ================================================================== *)
(** * Objects and references *)
(* ================================================================== *)

(** The constructor of [RadarPie] keeps the content tree it is given
    ([this.radarContent = radarContentInput]) and writes the layout into it.
    Content trees live in a heap, at addresses; a [RadarPie] holds the
    address of its tree. *)
Section Objects.

Context {num : Type} `{JSNumber num} `{JSTrig num}.

Definition Heap : Type := list (RadarContent num).

Record RadarPie : Type := {
  radarContent : nat;
  config : RadarPieConfig num
}.

(** [new RadarPie(radarContentInput, config)], the configuration being the
    one [nestedAssign] merged from the defaults: the heap after the call, and
    the pie or what was thrown.  The layout is written into the tree at
    [radarContentInput] as it is computed, so that the heap holds the tree as
    it was left when the constructor throws half-way.  Without a tree the
    constructor throws on the first property it reads of it, and nothing is
    written. *)
Definition RadarPie_constructor (radarContentInput : nat)
           (cfg : RadarPieConfig num) (heap : Heap)
  : Heap * completion num RadarPie :=
  match nth_error heap radarContentInput with
  | None => (heap, Throw (TypeError "radarContentInput.groups"))
  | Some content =>
      (update heap radarContentInput (layoutWritten cfg content),
       bind (layout cfg content)
            (fun _ => Normal {| radarContent := radarContentInput;
                                config := cfg |}))
  end.

End Objects.

(* ================================================================== *)
(** * Vocabulary of the statements *)
(* ================================================================== *)

Section TreeVocabulary.

Context {num : Type} `{JSNumber num}.

(** The arc of [segment] has the angles of the sub-slice arc [a], the inner
    radius of the ring at the level of the segment, and as outer radius this
    inner radius plus the radius of the ring with the id of the segment. *)
Definition segmentFollows (rings : list (RingInfo num))
           (a : DefaultArcObject num) (segment : Segment num) : Prop :=
  exists found atLevel,
    find (fun r => String.eqb (ring_id r) (seg_ringId segment)) rings
    = Some found
    /\ nth_error rings (seg_ringLevel segment) = Some atLevel
    /\ seg_arcParams segment
       = Some {| arc_startAngle := arc_startAngle a;
                 arc_endAngle := arc_endAngle a;
                 arc_padAngle := arc_padAngle a;
                 arc_innerRadius := toNumber (ring_innerRadius atLevel);
                 arc_outerRadius :=
                   add (toNumber (ring_innerRadius atLevel))
                       (toNumber (ring_radius found)) |}.

(** Every segment of every sub-slice that has an arc follows it. *)
Definition segmentsFollow (rings : list (RingInfo num))
           (slices : list (Slice num)) : Prop :=
  forall slice subSlice a segment,
    In slice slices -> In subSlice (slice_subSlices slice) ->
    ss_arcParams subSlice = Some a -> In segment (ss_segments subSlice) ->
    segmentFollows rings a segment.

(** The items of a tree, segment by segment. *)
Definition subSliceItems (subSlice : SubSlice num)
  : list (list (RadarItem num)) :=
  map (@seg_items num) (ss_segments subSlice).

Definition sliceItems (slice : Slice num)
  : list (list (list (RadarItem num))) :=
  map subSliceItems (slice_subSlices slice).

Definition treeItems (content : RadarContent num)
  : list (list (list (list (RadarItem num)))) :=
  map sliceItems (rc_slices content).

(** No sub-slice of the tree has an arc yet. *)
Definition noArcsYet (slices : list (Slice num)) : Prop :=
  forall slice subSlice,
    In slice slices -> In subSlice (slice_subSlices slice) ->
    ss_arcParams subSlice = None.

End TreeVocabulary.

(** The point [(x, y)] lies on the radial line of angle [theta], at the
    distance [r] from the origin, counted backwards when [r] is negative.
    Angles turn clockwise from twelve o'clock and the y axis points down, so
    the direction of [theta] is [(sin theta, - cos theta)]. *)
Definition onRadial (theta r : R) (x y : xreal) : Prop :=
  x = Fin (r * sin theta) /\ y = Fin (- (r * cos theta)).


(** The sum of a list of reals. *)
Definition sumR (xs : list R) : R := fold_right Rplus 0%R xs.

(** The part a value takes in the pie: none unless it is positive. *)
Definition positivePart (v : R) : R := if Rlt_dec 0 v then v else 0%R.

(** The step of an arc: its part [k] per unit of value, and the pad. *)
Definition arcStep (k p v : R) : R := (positivePart v * k + p)%R.

(** The arcs go round from the angle [from] to the angle [to]: each starts
    where the one before ends, and none ends before it starts. *)
Fixpoint chained {T} (from : R) (arcs : list (PieArcDatum xreal T)) (to : R)
  : Prop :=
  match arcs with
  | [] => from = to
  | arc :: rest =>
      pie_startAngle arc = Fin from
      /\ exists next, pie_endAngle arc = Fin next
                      /\ (from <= next)%R
                      /\ chained next rest to
  end.

(** [endAngle - startAngle] and [padAngle] of an arc with finite angles. *)
Definition spanOf {T} (arc : PieArcDatum xreal T) : R :=
  match pie_endAngle arc, pie_startAngle arc with
  | Fin e, Fin s => (e - s)%R
  | _, _ => 0%R
  end.

Definition padOf {T} (arc : PieArcDatum xreal T) : R :=
  match pie_padAngle arc with
  | Fin p => p
  | _ => 0%R
  end.

(** ** The Proportional Scaler on finite numbers *)

(** A round of the scaler over weights paired with their flags, for the pool
    [P] and the budget [B] of the round and the floor [m]. *)
Definition unclampedWeight (wc : R * bool) : R :=
  if snd wc then 0%R else fst wc.

Definition poolOf (wcs : list (R * bool)) : R :=
  sumR (map unclampedWeight wcs).

Definition clampedOf (wcs : list (R * bool)) : nat :=
  length (filter (fun wc : R * bool => snd wc) wcs).

Definition shareAt (P B w : R) : R := (w / P * B)%R.

Definition roundOf (P B m : R) (wcs : list (R * bool)) : list (R * bool) :=
  map (fun wc : R * bool =>
         (fst wc, snd wc || XReal.Rltb (shareAt P B (fst wc)) m))
      wcs.

Definition outputsOf (P B m : R) (wcs : list (R * bool)) : list R :=
  map (fun wc : R * bool => if snd wc then m else shareAt P B (fst wc)) wcs.

(** A number of the floating-point reading is [NaN]. *)
Definition isNaN (x : float) : Prop := PrimFloat.is_nan x = true.


(** The bands of the anchor classifier, on an angle in degrees: the
    horizontal anchor is [middle] within 10 degrees of the top or of the
    bottom, [start] on the right, [end] on the left. *)
Definition hBand (a : R) (h : HAnchor) : Prop :=
  ((a < 10 \/ 350 < a \/ 170 < a < 190)%R -> h = h_middle)
  /\ ((10 <= a <= 170)%R -> h = h_start)
  /\ ((190 <= a <= 350)%R -> h = h_end).

(** The vertical anchor is [baseline] within 45 degrees of the top,
    [hanging] within 45 degrees of the bottom, [middle] on the sides. *)
Definition vBand (a : R) (v : VAnchor) : Prop :=
  ((a < 45 \/ 315 < a)%R -> v = v_baseline)
  /\ ((135 < a < 225)%R -> v = v_hanging)
  /\ ((45 <= a <= 135 \/ 225 <= a <= 315)%R -> v = v_middle).

(* ================================================================== *)
(** * Examples *)
(* ================================================================== *)

(** [DEFAULT_RADAR_PIE_CONFIG] in exact arithmetic. *)
Definition DEFAULT_RADAR_PIE_CONFIG_exact : RadarPieConfig xreal := {|
  outerRadius := Fin 250;
  innerRadius := Fin 0;
  minSubSliceAngle := Fin 12;
  subSlicePadAngle := Fin (2 / 10);
  minRingRadius := Fin 30;
  ringPadding := Fin 0;
  ringMinOpacity := Fin (2 / 10);
  ringMaxOpacity := Fin 1;
  sliceDividerOutFlowLength := Fin 0;
  sliceLabelDistance := Fin 60;
  subSliceLabelDistance := Fin 10;
  sliceLabelPadding := Fin 4;
  subSliceLabelPadding := Fin 2
|}.



(** A ring as the data source hands it over: no layout yet. *)
Definition newRing {num} (id : string) (itemCount : num) : RingInfo num :=
  {| ring_id := id; ring_itemCount := itemCount;
     ring_opacity := None; ring_innerRadius := None; ring_radius := None |}.

(** Three rings with 10, 5 and 2 items. *)
Definition exampleRings {num} `{JSNumber num} : list (RingInfo num) :=
  [newRing "adopt" (ofZ 10); newRing "trial" (ofZ 5); newRing "assess" (ofZ 2)].

(** Four rings with 10, 5, 2 and 1 items. *)
Definition fourRings {num} `{JSNumber num} : list (RingInfo num) :=
  [newRing "adopt" (ofZ 10); newRing "trial" (ofZ 5);
   newRing "assess" (ofZ 2); newRing "hold" (ofZ 1)].

(** ** A content tree *)

(** Trees as the data source hands them over: no layout yet. *)
Definition newItem {num} (groupId : string) : RadarItem num :=
  {| item_groupId := groupId; item_x := None; item_y := None |}.

Definition newSegment {num} (ringId : string) (ringLevel : nat)
           (items : list (RadarItem num)) : Segment num :=
  {| seg_ringId := ringId; seg_ringLevel := ringLevel; seg_items := items;
     seg_arcParams := None |}.

Definition newSubSlice {num} (id : string) (isDummy : bool)
           (segments : list (Segment num)) : SubSlice num :=
  {| ss_id := id; ss_label := id; ss_isDummy := isDummy;
     ss_arcParams := None; ss_labelData := None; ss_segments := segments |}.

Definition newSlice {num} (id : string) (subSlices : list (SubSlice num))
  : Slice num :=
  {| slice_id := id; slice_label := id; slice_labelData := None;
     slice_subSlices := subSlices |}.

(** Two slices over the three rings of [exampleRings]: "tools" with the
    sub-slices "build" (three items) and "test" (one item), "languages"
    with one dummy sub-slice (two items). *)
Definition exampleContent {num} `{JSNumber num} : RadarContent num :=
  {| rc_slices :=
       [newSlice "tools"
          [newSubSlice "build" false
             [newSegment "adopt" 0 [newItem "new"; newItem "moved"];
              newSegment "trial" 1 [newItem "new"];
              newSegment "assess" 2 []];
           newSubSlice "test" false
             [newSegment "adopt" 0 [newItem "new"];
              newSegment "trial" 1 [];
              newSegment "assess" 2 []]];
        newSlice "languages"
          [newSubSlice "languages" true
             [newSegment "adopt" 0 [];
              newSegment "trial" 1 [newItem "moved"];
              newSegment "assess" 2 [newItem "new"]]]];
     rc_subSlices :=
       [{| css_id := "build"; css_sliceId := "tools"; css_itemCount := ofZ 3 |};
        {| css_id := "test"; css_sliceId := "tools"; css_itemCount := ofZ 1 |};
        {| css_id := "languages"; css_sliceId := "languages";
           css_itemCount := ofZ 2 |}];
     rc_rings := exampleRings;
     rc_groups :=
       [{| cat_id := "new"; cat_itemCount := ofZ 4 |};
        {| cat_id := "moved"; cat_itemCount := ofZ 2 |}];
     rc_items := [] |}.

(** A slice whose two sub-slices have their arcs: from 0 to 1 radian and
    from 1 to 2 radians. *)
Definition exampleArc (startAngle endAngle : R) : DefaultArcObject xreal :=
  {| arc_innerRadius := Fin 0; arc_outerRadius := Fin 250;
     arc_startAngle := Fin startAngle; arc_endAngle := Fin endAngle;
     arc_padAngle := Fin 0 |}.



(* ================================================================== *)
(** * Further code

    The rest of this part embeds code of the same files that the layout
    above leaves out, and code of two more files: the loop of the constructor
    of [RadarSegment] over the points of several items, the static
    [RadarContainer.scaleToFit], [fetchData] and [appendTo] of
    [src/RadarPie/RadarContainer.ts], and the class [Example] of
    [src/DataSource/Example.ts].  What only builds elements of the DOM
    ([getElement] of the three classes, and [ItemLegend]) is not embedded. *)
(* ================================================================== *)

(* ================================================================== *)
(** * Further vocabulary: segments, anchors, the bare tree *)
(* ================================================================== *)

Section FurtherVocabulary.

Context {num : Type}.

(** The items after [points.forEach((p, idx) => ...)] has written the point
    at [idx] into the item at [idx]: the items beyond the points are as they
    were. *)
Fixpoint placedAlong (points : list (num * num)) (items : list (RadarItem num))
  : list (RadarItem num) :=
  match points, items with
  | p :: points', item :: items' =>
      placedAt p item :: placedAlong points' items'
  | _, _ => items
  end.

(** The tree without what the layout writes into it: the arcs and the label
    data of the slices, sub-slices and segments, and the opacity and the
    radii of the rings. *)
Definition bareSegment (seg : Segment num) : Segment num :=
  {| seg_ringId := seg_ringId seg;
     seg_ringLevel := seg_ringLevel seg;
     seg_items := seg_items seg;
     seg_arcParams := None |}.

Definition bareSubSlice (subSlice : SubSlice num) : SubSlice num :=
  {| ss_id := ss_id subSlice;
     ss_label := ss_label subSlice;
     ss_isDummy := ss_isDummy subSlice;
     ss_arcParams := None;
     ss_labelData := None;
     ss_segments := map bareSegment (ss_segments subSlice) |}.

Definition bareSlice (slice : Slice num) : Slice num :=
  {| slice_id := slice_id slice;
     slice_label := slice_label slice;
     slice_labelData := None;
     slice_subSlices := map bareSubSlice (slice_subSlices slice) |}.

Definition bareRing (ring : RingInfo num) : RingInfo num :=
  {| ring_id := ring_id ring;
     ring_itemCount := ring_itemCount ring;
     ring_opacity := None;
     ring_innerRadius := None;
     ring_radius := None |}.

Definition bareContent (content : RadarContent num) : RadarContent num :=
  {| rc_slices := map bareSlice (rc_slices content);
     rc_subSlices := rc_subSlices content;
     rc_rings := map bareRing (rc_rings content);
     rc_groups := rc_groups content;
     rc_items := rc_items content |}.

(** The place of the sub-slice the constructor looks up for an entry of
    [radarContent.subSlices]: the index of the first slice with the id
    [sliceId] of the entry, and in this slice the index of the first
    sub-slice with the id of the entry. *)
Definition target (slices : list (Slice num)) (entry : CatInfoSubSlice num)
  : option (nat * nat) :=
  match findIndex (fun slice => String.eqb (css_sliceId entry)
                                           (slice_id slice)) slices with
  | None => None
  | Some i =>
      match nth_error slices i with
      | None => None
      | Some slice =>
          match findIndex (fun subSlice => String.eqb (ss_id subSlice)
                                                      (css_id entry))
                          (slice_subSlices slice) with
          | None => None
          | Some j => Some (i, j)
          end
      end
  end.

(** The sub-slice at a place of the tree. *)
Definition subSliceAt (slices : list (Slice num)) (place : nat * nat)
  : option (SubSlice num) :=
  match nth_error slices (fst place) with
  | None => None
  | Some slice => nth_error (slice_subSlices slice) (snd place)
  end.

End FurtherVocabulary.

(** The polygon the constructor of a segment distributes the items in:
    what [RadarSegment.getItemBoundaryArc] returns for the arc of the segment
    and the paddings of the module. *)
Definition itemBoundary {num} `{JSNumber num}
           (arcGenerator : DefaultArcObject num -> string)
           (flattenSVGPath : string -> list (num * num))
           (arcParams : DefaultArcObject num) : list (num * num) :=
  fst (getItemBoundaryArc arcGenerator flattenSVGPath arcParams
         PADDING_ANGLE PAD_INNER_RADIUS PAD_OUTER_RADIUS).

(* ================================================================== *)
(** * Further vocabulary: the loops of the constructor of [RadarPie] *)
(* ================================================================== *)

Section ConstructorVocabulary.

Context {num : Type} `{JSNumber num}.

(** What the loop over the arcs keeps of [content], the tree the
    constructor was given: in every [state] the loop goes through the bare
    tree is that of [content], and the rings are the rings of [content] laid
    out. *)
Definition loopKeeps (cfg : RadarPieConfig num)
           (content state : RadarContent num) : Prop :=
  map (@bareSlice num) (rc_slices state)
  = map (@bareSlice num) (rc_slices content)
  /\ rc_rings state = layoutRings cfg (rc_rings content)
  /\ rc_subSlices state = rc_subSlices content
  /\ rc_groups state = rc_groups content
  /\ rc_items state = rc_items content.

(** The tree after the loop over the rings, where the loop over the arcs
    starts. *)
Definition afterRings (cfg : RadarPieConfig num) (content : RadarContent num)
  : RadarContent num :=
  {| rc_slices := rc_slices content;
     rc_subSlices := rc_subSlices content;
     rc_rings := layoutRings cfg (rc_rings content);
     rc_groups := rc_groups content;
     rc_items := rc_items content |}.

(** Every entry of [radarContent.subSlices] names a slice of the tree and a
    sub-slice of this slice. *)
Definition entriesResolve (content : RadarContent num) : Prop :=
  forall entry,
    In entry (rc_subSlices content) ->
    exists place, target (rc_slices content) entry = Some place.

(** Every segment names a ring by its id, and its ring level is the index of
    a ring. *)
Definition ringsResolve (content : RadarContent num) : Prop :=
  forall slice subSlice seg,
    In slice (rc_slices content) ->
    In subSlice (slice_subSlices slice) ->
    In seg (ss_segments subSlice) ->
    (exists ring,
        find (fun r => String.eqb (ring_id r) (seg_ringId seg))
             (rc_rings content) = Some ring)
    /\ seg_ringLevel seg < length (rc_rings content).

(** Every slice has a sub-slice, and its first and its last sub-slice are
    the places of entries of [radarContent.subSlices]. *)
Definition slicesCovered (content : RadarContent num) : Prop :=
  forall i slice,
    nth_error (rc_slices content) i = Some slice ->
    slice_subSlices slice <> []
    /\ (exists entry,
           In entry (rc_subSlices content)
           /\ target (rc_slices content) entry = Some (i, 0))
    /\ (exists entry,
           In entry (rc_subSlices content)
           /\ target (rc_slices content) entry
              = Some (i, length (slice_subSlices slice) - 1)).

(** [found] is the place [place]. *)
Definition isPlace (found : option (nat * nat)) (place : nat * nat) : bool :=
  match found with
  | None => false
  | Some (i, j) => Nat.eqb (fst place) i && Nat.eqb (snd place) j
  end.

(** The last of the arcs whose entry has the place [place] in [slices]: the
    arc the sub-slice at this place is laid out by in the end. *)
Fixpoint lastArcAt (slices : list (Slice num)) (place : nat * nat)
         (arcs : list (PieArcDatum num (CatInfoSubSlice num)))
  : option (PieArcDatum num (CatInfoSubSlice num)) :=
  match arcs with
  | [] => None
  | arc :: rest =>
      match lastArcAt slices place rest with
      | Some later => Some later
      | None =>
          if isPlace (target slices (pie_data arc)) place
          then Some arc
          else None
      end
  end.

(** What the loop over the arcs leaves of a slice as it is: everything but
    its sub-slices. *)
Definition sliceFrame (slice : Slice num)
  : string * string * option (SliceLabelData num) :=
  (slice_id slice, slice_label slice, slice_labelData slice).

End ConstructorVocabulary.

(** A sub-slice the constructor has laid out, in exact arithmetic: it has
    its arc, with finite angles, and its label data. *)
Definition finiteAngles (a : DefaultArcObject xreal) : Prop :=
  exists s e, arc_startAngle a = Fin s /\ arc_endAngle a = Fin e.

Definition laidOut (subSlice : SubSlice xreal) : Prop :=
  exists a ld,
    ss_arcParams subSlice = Some a
    /\ ss_labelData subSlice = Some ld
    /\ finiteAngles a.

(* ================================================================== *)
(** * Further examples *)
(* ================================================================== *)

(** [exampleContent] with one more entry in [subSlices], of a slice the
    tree does not have. *)
Definition contentWithStrayEntry {num} `{JSNumber num} : RadarContent num :=
  {| rc_slices := rc_slices exampleContent;
     rc_subSlices :=
       rc_subSlices exampleContent
       ++ [{| css_id := "run"; css_sliceId := "platforms";
              css_itemCount := ofZ 1 |}];
     rc_rings := rc_rings exampleContent;
     rc_groups := rc_groups exampleContent;
     rc_items := rc_items exampleContent |}.

(** [exampleContent] without its third ring, which three of its segments
    name. *)
Definition contentWithTwoRings {num} `{JSNumber num} : RadarContent num :=
  {| rc_slices := rc_slices exampleContent;
     rc_subSlices := rc_subSlices exampleContent;
     rc_rings := [newRing "adopt" (ofZ 10); newRing "trial" (ofZ 5)];
     rc_groups := rc_groups exampleContent;
     rc_items := rc_items exampleContent |}.

(** [exampleContent] with a segment of the sub-slice "build" that names the
    ring "adopt" by its id and the ring "assess" by its level. *)
Definition contentWithMisplacedSegment {num} `{JSNumber num}
  : RadarContent num :=
  {| rc_slices :=
       [newSlice "tools"
          [newSubSlice "build" false
             [newSegment "adopt" 0 [newItem "new"; newItem "moved"];
              newSegment "trial" 1 [newItem "new"];
              newSegment "adopt" 2 []];
           newSubSlice "test" false
             [newSegment "adopt" 0 [newItem "new"];
              newSegment "trial" 1 [];
              newSegment "assess" 2 []]];
        newSlice "languages"
          [newSubSlice "languages" true
             [newSegment "adopt" 0 [];
              newSegment "trial" 1 [newItem "moved"];
              newSegment "assess" 2 [newItem "new"]]]];
     rc_subSlices := rc_subSlices exampleContent;
     rc_rings := rc_rings exampleContent;
     rc_groups := rc_groups exampleContent;
     rc_items := rc_items exampleContent |}.

(** [exampleContent] with one more sub-slice, "deploy", between the two of
    the slice "tools", which no entry of [subSlices] names. *)
Definition contentWithUnnamedSubSlice {num} `{JSNumber num}
  : RadarContent num :=
  {| rc_slices :=
       [newSlice "tools"
          [newSubSlice "build" false
             [newSegment "adopt" 0 [newItem "new"; newItem "moved"];
              newSegment "trial" 1 [newItem "new"];
              newSegment "assess" 2 []];
           newSubSlice "deploy" false
             [newSegment "adopt" 0 [];
              newSegment "trial" 1 [];
              newSegment "assess" 2 []];
           newSubSlice "test" false
             [newSegment "adopt" 0 [newItem "new"];
              newSegment "trial" 1 [];
              newSegment "assess" 2 []]];
        newSlice "languages"
          [newSubSlice "languages" true
             [newSegment "adopt" 0 [];
              newSegment "trial" 1 [newItem "moved"];
              newSegment "assess" 2 [newItem "new"]]]];
     rc_subSlices := rc_subSlices exampleContent;
     rc_rings := rc_rings exampleContent;
     rc_groups := rc_groups exampleContent;
     rc_items := rc_items exampleContent |}.

(** [exampleContent] with one more slice, which has no sub-slice. *)
Definition contentWithEmptySlice {num} `{JSNumber num} : RadarContent num :=
  {| rc_slices := rc_slices exampleContent ++ [newSlice "platforms" []];
     rc_subSlices := rc_subSlices exampleContent;
     rc_rings := rc_rings exampleContent;
     rc_groups := rc_groups exampleContent;
     rc_items := rc_items exampleContent |}.

(* ================================================================== *)
(** * [RadarContainer.scaleToFit] *)
(* ================================================================== *)

(** The unary minus of JavaScript. *)
Class JSNegate (num : Type) : Type := {
  negate : num -> num
}.

#[export] Instance float_JSNegate : JSNegate float := {|
  negate := PrimFloat.opp
|}.

#[export] Instance xreal_JSNegate : JSNegate xreal := {|
  negate := XReal.neg
|}.

Section ContainerTypes.

Variable num : Type.

(** The rectangle [node.getBBox()] returns. *)
Record SVGRect : Type := {
  rect_x : num;
  rect_y : num;
  rect_width : num;
  rect_height : num
}.

(** The value of the attribute [transform] that [scaleToFit] sets:
    ["translate(" + transX + " " + transY + ")scale(" + scale + " " + scale
    + ")"]. *)
Record Transform : Type := {
  tr_translateX : num;
  tr_translateY : num;
  tr_scaleX : num;
  tr_scaleY : num
}.

(** A rectangle of the debug display: its geometry and its stroke. *)
Record DebugRect : Type := {
  debug_rect : SVGRect;
  debug_stroke : string
}.

End ContainerTypes.

Section ScaleToFit.

Context {num : Type} `{JSNumber num} `{JSNegate num}.
Local Open Scope js_scope.

(** [RadarContainer.scaleToFit(el, newWidth, newHeight, padding)], from the
    bounding box [bb] of the node of [el]: the rectangles appended to [el]
    when [window.RADAR_DEBUG_MODE] is set, and the transform the transition
    of [el] is given. *)
Definition scaleToFit (RADAR_DEBUG_MODE : bool) (bb : SVGRect num)
           (newWidth newHeight padding : num)
  : list (DebugRect num) * Transform num :=
  (* center of element *)
  let cx := rect_x bb + rect_width bb / ofZ 2 in
  let cy := rect_y bb + rect_height bb / ofZ 2 in
  let scaleX := newWidth / (rect_width bb + padding * ofZ 2) in
  let scaleY := newHeight / (rect_height bb + padding * ofZ 2) in
  let scale := Math_min scaleX scaleY in
  (* move to center *)
  let targetX := newWidth / ofZ 2 in
  let targetY := newHeight / ofZ 2 in
  (* move its center to target x,y *)
  let transX := negate cx * scale + targetX in
  let transY := negate cy * scale + targetY in
  ((if RADAR_DEBUG_MODE
    then [{| debug_rect :=
               {| rect_x := rect_x bb - padding;
                  rect_y := rect_y bb - padding;
                  rect_width := rect_width bb + padding * ofZ 2;
                  rect_height := rect_height bb + padding * ofZ 2 |};
             debug_stroke := "red" |};
          {| debug_rect :=
               {| rect_x := rect_x bb;
                  rect_y := rect_y bb;
                  rect_width := rect_width bb;
                  rect_height := rect_height bb |};
             debug_stroke := "gray" |}]
    else []),
   {| tr_translateX := transX;
      tr_translateY := transY;
      tr_scaleX := scale;
      tr_scaleY := scale |}).

End ScaleToFit.

(** A bounding box with finite coordinates. *)
Definition finiteRect (x y width height : R) : SVGRect xreal :=
  {| rect_x := Fin x; rect_y := Fin y;
     rect_width := Fin width; rect_height := Fin height |}.

(* ================================================================== *)
(** * [Example] *)
(* ================================================================== *)

(** A literal of a configuration: a whole number, a string, an array, an
    object. *)
#[warnings="-register-all"]
Inductive JSLiteral : Type :=
| NumberLiteral (z : Z)
| StringLiteral (s : string)
| ArrayLiteral (elements : list JSLiteral)
| ObjectLiteral (properties : list (string * JSLiteral)).

Record DsvFileUris : Type := {
  uris_slices : string;
  uris_subSlices : string;
  uris_rings : string;
  uris_items : string
}.

(** The three types of example, each with the fields of its [type]. *)
Inductive ExampleType : Type :=
| json (fileUri : string)
| dsv (separator : string) (fileUris : DsvFileUris)
| singleDsv (separator : string) (fileUri : string).

Record ExampleEntry : Type := {
  entry_name : string;
  entry_type : ExampleType;
  entry_radarConfig : option JSLiteral
}.

Open Scope string_scope.

(** [Example.EXAMPLES]. *)
Definition EXAMPLES : list ExampleEntry :=
  [ {| entry_name := "data validation example";
       entry_type := json "exampleData/validationTestData.json";
       entry_radarConfig := None |};
    {| entry_name := "test example";
       entry_type := json "exampleData/testData.json";
       entry_radarConfig := None |};
    {| entry_name := "Now/next/Later example 1";
       entry_type :=
         dsv ","
           {| uris_slices :=
                "./exampleData/NowNextLater 1/NowNextLater 1 - slices.csv";
              uris_subSlices :=
                "exampleData/NowNextLater 1/NowNextLater 1 - subSlices.csv";
              uris_rings :=
                "exampleData/NowNextLater 1/NowNextLater 1 - rings.csv";
              uris_items :=
                "exampleData/NowNextLater 1/NowNextLater 1 - items.csv" |};
       entry_radarConfig := None |};
    {| entry_name := "Confidential example (not in repo)";
       entry_type :=
         dsv ","
           {| uris_slices := "./exampleData/Confidential/slices.csv";
              uris_subSlices := "exampleData/Confidential/subSlices.csv";
              uris_rings := "exampleData/Confidential/rings.csv";
              uris_items := "exampleData/Confidential/items.csv" |};
       entry_radarConfig :=
         Some (ObjectLiteral
                 [("ringLegend",
                   ObjectLiteral [("startAngle", NumberLiteral (-90));
                                  ("endAngle", NumberLiteral 90)])]) |};
    {| entry_name := "ThoughtWorks Technology Radar Vol 23";
       entry_type := singleDsv "," "./exampleData/TW_TechRadar_Vol23.csv";
       entry_radarConfig :=
         Some (ObjectLiteral
                 [("itemLegend",
                   ObjectLiteral
                     [("pos", ObjectLiteral [("x", NumberLiteral 400);
                                             ("y", NumberLiteral 30)])]);
                  ("ringLegend",
                   ObjectLiteral
                     [("pos", ObjectLiteral [("x", NumberLiteral 400);
                                             ("y", NumberLiteral 0)]);
                      ("startAngle", NumberLiteral 0);
                      ("endAngle", NumberLiteral 90)]);
                  ("pie",
                   ObjectLiteral
                     [("innerRadius", NumberLiteral 5);
                      ("minSubSliceAngle", NumberLiteral 360);
                      ("minRingRadius", NumberLiteral 50);
                      ("ringPadding", NumberLiteral 4);
                      ("sliceDividerOutFlowLength", NumberLiteral (-245));
                      ("sliceLabelPadding", NumberLiteral 12);
                      ("subSlicePadAngle", NumberLiteral 2);
                      ("itemMarker",
                       ObjectLiteral
                         [("size", NumberLiteral 80);
                          ("colorScheme",
                           ObjectLiteral
                             [("categorical",
                               ArrayLiteral
                                 [StringLiteral "#20c72e";
                                  StringLiteral "dummy_don_not_ask";
                                  StringLiteral "#ff4800"])])])])]) |};
    {| entry_name := "Single Google sheet example";
       entry_type :=
         singleDsv ","
           "https://docs.google.com/spreadsheets/d/e/2PACX-1vSMgk767I1gWr1F1bmI2XMttvPa1TyXcdd910BSfQZjqIvOHA_aE_ESnAhftTmjnJ-KL5uwPr-LIRYJ/pub?output=csv";
       entry_radarConfig := None |} ].

Close Scope string_scope.

(** The data sources [getDataSource] constructs, with the argument each is
    constructed with. *)
Inductive DataSource : Type :=
| JSONDataSource (fileUri : string)
| DsvDataSource (fileUris : DsvFileUris)
| SingleDsvDataSource (fileUri : string).

(** What the methods of [Example] throw: the [RadarError] of the
    constructor, which carries the index it refuses, and the [TypeError] of a
    property read on [undefined]. *)
Inductive ExampleError (num : Type) : Type :=
| InvalidExampleIdx (exampleIdx : num)
| UndefinedExample (where_ : string).

Arguments UndefinedExample {num} where_.

Inductive outcome (E T : Type) : Type :=
| Returns (v : T)
| Throws (e : E).

Arguments Returns {E T} v.
Arguments Throws {E T} e.

Section Example.

Context {num : Type} `{JSNumber num}.
Local Open Scope js_scope.

Record Example : Type := {
  exampleIdx : num
}.

(** [xs[idx]] for a number [idx]: the element at the index that [idx] is
    equal to, and [undefined] when it is equal to no index of the array, as
    a fraction, a negative number or [NaN]. *)
Definition elementAt {T} (xs : list T) (idx : num) : option T :=
  match findIndex (fun i => (ofNat i <=? idx) && (idx <=? ofNat i))
                  (seq 0 (length xs)) with
  | None => None
  | Some i => nth_error xs i
  end.

Definition Example_constructor (exampleIdx : num)
  : outcome (ExampleError num) Example :=
  if (exampleIdx >=? ofNat (length EXAMPLES)) || (exampleIdx <? ofZ 0)
  then Throws (InvalidExampleIdx exampleIdx)
  else Returns {| exampleIdx := exampleIdx |}.

(** [get name()]. *)
Definition Example_name (this : Example)
  : outcome (ExampleError num) string :=
  match elementAt EXAMPLES (exampleIdx this) with
  | None => Throws (UndefinedExample "this.EXAMPLES[this.exampleIdx].name")
  | Some example => Returns (entry_name example)
  end.

(** [get radarConfig()]; [None] is the [undefined] of an example without
    configuration. *)
Definition Example_radarConfig (this : Example)
  : outcome (ExampleError num) (option JSLiteral) :=
  match elementAt EXAMPLES (exampleIdx this) with
  | None =>
      Throws (UndefinedExample "this.EXAMPLES[this.exampleIdx].radarConfig")
  | Some example => Returns (entry_radarConfig example)
  end.

(** [getDataSource()].  The [default] of the [switch], for an example of no
    known type, has no example to take it: the types are the three of
    [ExampleType]. *)
Definition Example_getDataSource (this : Example)
  : outcome (ExampleError num) DataSource :=
  match elementAt EXAMPLES (exampleIdx this) with
  | None => Throws (UndefinedExample "example.type")
  | Some example =>
      match entry_type example with
      | json fileUri => Returns (JSONDataSource fileUri)
      | dsv _ fileUris => Returns (DsvDataSource fileUris)
      | singleDsv _ fileUri => Returns (SingleDsvDataSource fileUri)
      end
  end.

End Example.

(* ================================================================== *)
(** * [RadarContainer]: [fetchData] and [appendTo] *)
(* ================================================================== *)

(** A data source as the container sees it: whether the promise of its
    [fetchData()] is rejected, and the address of the content tree its
    [getRadarContent()] returns. *)
Record RadarDataSource : Type := {
  ds_fetchData_rejects : bool;
  ds_getRadarContent : nat
}.

(** What [fetchData] and [appendTo] reject their promise with: the
    rejection of the data source, the [RadarError] of [appendTo], or what
    the constructor of [RadarPie] throws. *)
Inductive ContainerError (num : Type) : Type :=
| FetchRejected
| RadarError (message : string)
| PieError (e : Exn num).

Arguments FetchRejected {num}.
Arguments RadarError {num} message.

Section RadarContainer.

Context {num : Type} `{JSNumber num} `{JSTrig num}.

(** The fields of the container the two methods read and write; a field
    not yet assigned is [None]. *)
Record RadarContainer : Type := {
  container_dataSource : option RadarDataSource;
  container_radarContent : option nat;
  container_radarPie : option (RadarPie (num := num))
}.

(** [fetchData(dataSource)]: the container after the call, and what the
    promise settles with. *)
Definition fetchData (this : RadarContainer) (dataSource : RadarDataSource)
  : RadarContainer * outcome (ContainerError num) nat :=
  let this1 :=
    {| container_dataSource := Some dataSource;
       container_radarContent := container_radarContent this;
       container_radarPie := container_radarPie this |} in
  if ds_fetchData_rejects dataSource
  then (this1, Throws FetchRejected)
  else
    ({| container_dataSource := Some dataSource;
        container_radarContent := Some (ds_getRadarContent dataSource);
        container_radarPie := container_radarPie this |},
     Returns (ds_getRadarContent dataSource)).

(** [new RadarPie(this.radarContent, this.config.pie)], where
    [this.radarContent] may be [undefined]: the constructor then reads a
    property of [undefined]. *)
Definition newRadarPie (radarContentInput : option nat)
           (cfg : RadarPieConfig num) (heap : Heap (num := num))
  : Heap (num := num) * completion num (RadarPie (num := num)) :=
  match radarContentInput with
  | None => (heap, Throw (TypeError "radarContentInput.groups"))
  | Some address => RadarPie_constructor address cfg heap
  end.

(** What [appendTo] does once the pie is constructed: the elements of the
    pie and of the legends, the arrangement of the labels and the scaling,
    which are the work of the DOM. *)
Variable render :
  RadarPie (num := num) -> Heap (num := num) ->
  outcome (ContainerError num) (Heap (num := num)).

(** [appendTo(element)], for the merged configuration [cfg] of the pie.
    The children of [element] are the names of the elements appended to
    it.  The result is the container, the children of [element] and the
    heap after the call, and what the promise settles with. *)
Definition appendTo (this : RadarContainer) (cfg : RadarPieConfig num)
           (element : list string) (heap : Heap (num := num))
  : (RadarContainer * list string * Heap (num := num))
    * outcome (ContainerError num) unit :=
  let element1 := element ++ ["svg"%string] in
  match container_dataSource this, container_radarContent this with
  | None, None =>
      ((this, element1, heap),
       Throws (RadarError "Call fetchData before calling getElement"))
  | _, _ =>
      match newRadarPie (container_radarContent this) cfg heap with
      | (heap1, Throw e) => ((this, element1, heap1), Throws (PieError e))
      | (heap1, Normal pie) =>
          let this1 :=
            {| container_dataSource := container_dataSource this;
               container_radarContent := container_radarContent this;
               container_radarPie := Some pie |} in
          match render pie heap1 with
          | Throws e => ((this1, element1, heap1), Throws e)
          | Returns heap2 => ((this1, element1, heap2), Returns tt)
          end
      end
  end.

End RadarContainer.

(* ================================================================== *)
(** * Facts about arrays *)
(* ================================================================== *)

Section ArrayFacts.

Context {T : Type}.

Lemma update_length (xs : list T) (i : nat) (x : T) :
  length (update xs i x) = length xs.
Proof.
  revert i; induction xs as [| y rest IH]; intros [| j]; simpl; auto.
Qed.

Lemma nth_error_update_same (xs : list T) (i : nat) (x : T) :
  i < length xs -> nth_error (update xs i x) i = Some x.
Proof.
  revert i; induction xs as [| y rest IH]; intros [| j] Hi; simpl in *;
    try lia; auto.
  apply IH; lia.
Qed.

Lemma nth_error_update_other (xs : list T) (i j : nat) (x : T) :
  i <> j -> nth_error (update xs i x) j = nth_error xs j.
Proof.
  revert i j; induction xs as [| y rest IH]; intros [| i] [| j] Hij; simpl;
    try congruence; auto.
Qed.

Lemma nth_error_in_range (xs : list T) (i : nat) (x : T) :
  nth_error xs i = Some x -> i < length xs.
Proof.
  intros Hx; apply nth_error_Some; congruence.
Qed.

Lemma mapi_from_length {U} (f : T -> nat -> U) (i0 : nat) (xs : list T) :
  length (mapi_from f i0 xs) = length xs.
Proof.
  revert i0; induction xs as [| x rest IH]; intros i0; simpl; auto.
Qed.

End ArrayFacts.

(* ================================================================== *)
(** * The rings, for every reading of the numbers *)
(* ================================================================== *)

Section RingFacts.

Context {num : Type} `{JSNumber num}.
Variable cfg : RadarPieConfig num.
Variable scaled : list num.

Lemma ringStep_length (rings : list (RingInfo num)) (ringLevel : nat) :
  length (ringStep cfg scaled rings ringLevel) = length rings.
Proof.
  unfold ringStep.
  destruct (nth_error rings ringLevel); [apply update_length | reflexivity].
Qed.

Lemma ringsAfter_succ (rings : list (RingInfo num)) (k : nat) :
  ringsAfter cfg scaled rings (S k)
  = ringStep cfg scaled (ringsAfter cfg scaled rings k) k.
Proof.
  unfold ringsAfter. rewrite seq_S, fold_left_app. reflexivity.
Qed.

Lemma ringsAfter_length (rings : list (RingInfo num)) (k : nat) :
  length (ringsAfter cfg scaled rings k) = length rings.
Proof.
  induction k as [| k IH]; [reflexivity |].
  rewrite ringsAfter_succ, ringStep_length. exact IH.
Qed.

(** The iterations before [k] leave the rings from [k] on as they were. *)
Lemma ringsAfter_untouched (rings : list (RingInfo num)) (k i : nat) :
  k <= i -> nth_error (ringsAfter cfg scaled rings k) i = nth_error rings i.
Proof.
  induction k as [| k IH]; intros Hki; [reflexivity |].
  rewrite ringsAfter_succ. unfold ringStep.
  destruct (nth_error (ringsAfter cfg scaled rings k) k) eqn:Hk.
  - rewrite nth_error_update_other by lia. apply IH; lia.
  - apply IH; lia.
Qed.



Lemma ringsAfter_done (rings : list (RingInfo num)) (k i : nat)
      (ring : RingInfo num) :
  i < k -> nth_error rings i = Some ring ->
  nth_error (ringsAfter cfg scaled rings k) i
  = Some (ringLaidOut cfg scaled rings i ring).
Proof.
  induction k as [| k IH]; intros Hik Hring; [lia |].
  rewrite ringsAfter_succ. unfold ringStep.
  destruct (Nat.eq_dec i k) as [-> | Hne].
  - rewrite (ringsAfter_untouched rings (Nat.le_refl k)), Hring.
    rewrite nth_error_update_same.
    + unfold ringLaidOut. now rewrite ringsAfter_length.
    + rewrite ringsAfter_length. eapply nth_error_in_range; eauto.
  - destruct (nth_error (ringsAfter cfg scaled rings k) k).
    + rewrite nth_error_update_other by lia. apply IH; [lia | assumption].
    + apply IH; [lia | assumption].
Qed.

End RingFacts.

(* ================================================================== *)
(** * Facts about the numbers *)
(* ================================================================== *)

Section XRealFacts.

Local Open Scope R_scope.

Lemma Rltb_true (a b : R) : a < b -> XReal.Rltb a b = true.
Proof.
  intros; unfold XReal.Rltb; destruct (Rlt_dec a b); [reflexivity | contradiction].
Qed.

Lemma Rltb_false (a b : R) : b <= a -> XReal.Rltb a b = false.
Proof.
  intros; unfold XReal.Rltb; destruct (Rlt_dec a b); [lra | reflexivity].
Qed.

Lemma Rleb_true (a b : R) : a <= b -> XReal.Rleb a b = true.
Proof.
  intros; unfold XReal.Rleb; destruct (Rle_dec a b); [reflexivity | contradiction].
Qed.

Lemma Rleb_false (a b : R) : b < a -> XReal.Rleb a b = false.
Proof.
  intros; unfold XReal.Rleb; destruct (Rle_dec a b); [lra | reflexivity].
Qed.

Lemma Reqb_false (a b : R) : a <> b -> XReal.Reqb a b = false.
Proof.
  intros; unfold XReal.Reqb; destruct (Req_dec_T a b); [contradiction | reflexivity].
Qed.

Lemma ofNat_xreal (n : nat) : ofNat n = Fin (INR n).
Proof.
  unfold ofNat; cbn. now rewrite INR_IZR_INZ.
Qed.

Lemma sumR_app (xs ys : list R) : sumR (xs ++ ys) = sumR xs + sumR ys.
Proof.
  induction xs as [| x rest IH]; simpl; [lra | rewrite IH; lra].
Qed.

(** [d3.sum] over finite numbers is their sum: the zeros it skips add
    nothing. *)
Lemma d3_sum_loop_Fin (vs : list R) (acc : R) :
  fold_left (fun sum value : xreal => if truthy value then add sum value else sum)
            (map Fin vs) (Fin acc)
  = Fin (acc + sumR vs).
Proof.
  revert acc; induction vs as [| v rest IH]; intros acc; simpl.
  - f_equal; lra.
  - unfold XReal.Reqb; destruct (Req_dec_T v 0) as [-> | Hv]; simpl;
      rewrite IH; f_equal; lra.
Qed.

Lemma mapi_from_Fin {T} (f : T -> nat -> xreal) (g : nat -> R) (xs : list T)
      (i0 : nat) :
  (forall i x, nth_error xs i = Some x -> f x (i0 + i)%nat = Fin (g (i0 + i)%nat)) ->
  mapi_from f i0 xs = map Fin (map g (seq i0 (length xs))).
Proof.
  revert i0; induction xs as [| x rest IH]; intros i0 Hf; simpl; [reflexivity |].
  f_equal.
  - specialize (Hf 0%nat x eq_refl). now rewrite Nat.add_0_r in Hf.
  - apply IH. intros i y Hy.
    replace (S i0 + i)%nat with (i0 + S i)%nat by lia.
    apply (Hf (S i) y Hy).
Qed.

Lemma d3_sum_Fin {T} (values : list T) (valueof : T -> nat -> xreal)
      (g : nat -> R) :
  (forall i x, nth_error values i = Some x -> valueof x i = Fin (g i)) ->
  d3_sum values valueof = Fin (sumR (map g (seq 0 (length values)))).
Proof.
  intros Hf. unfold d3_sum, mapi.
  rewrite (mapi_from_Fin valueof g values 0) by (intros i x Hx; simpl; auto).
  change (ofZ 0) with (Fin 0). rewrite d3_sum_loop_Fin. f_equal; lra.
Qed.

End XRealFacts.

Section FloatFacts.

Lemma isNaN_of_spec (x : float) : Prim2SF x = S754_nan -> isNaN x.
Proof.
  intros Hx. unfold isNaN, PrimFloat.is_nan.
  rewrite FloatAxioms.eqb_spec, Hx. reflexivity.
Qed.

Lemma spec_of_isNaN (x : float) : isNaN x -> Prim2SF x = S754_nan.
Proof.
  unfold isNaN, PrimFloat.is_nan. rewrite FloatAxioms.eqb_spec.
  destruct (Prim2SF x) as [s | s | | s m e]; try reflexivity;
    unfold SFeqb, SFcompare.
  - discriminate.
  - destruct s; discriminate.
  - change (PosDef.Pos.compare_cont Eq m m) with (Pos.compare m m).
    destruct s; rewrite Z.compare_refl, Pos.compare_refl; discriminate.
Qed.

(** No comparison with [NaN] holds. *)
Lemma isNaN_le_l (x y : float) : isNaN x -> PrimFloat.leb x y = false.
Proof.
  intros Hx. rewrite FloatAxioms.leb_spec, (spec_of_isNaN Hx). reflexivity.
Qed.

Lemma isNaN_le_r (x y : float) : isNaN y -> PrimFloat.leb x y = false.
Proof.
  intros Hy. rewrite FloatAxioms.leb_spec, (spec_of_isNaN Hy).
  destruct (Prim2SF x); reflexivity.
Qed.

(** Zero times anything, over zero, is [NaN], and stays so. *)
Lemma mul0_div0_add_NaN (d m : float) : isNaN (d * 0 / 0 + m)%float.
Proof.
  apply isNaN_of_spec.
  rewrite add_spec, div_spec, mul_spec.
  change (Prim2SF 0%float) with (S754_zero false).
  destruct (Prim2SF d) as [s | s | | s mant e]; reflexivity.
Qed.

End FloatFacts.

(* ================================================================== *)
(** * The opacity of the rings *)
(* ================================================================== *)

Lemma layoutRings_length {num} `{JSNumber num} (cfg : RadarPieConfig num)
      (rings : list (RingInfo num)) :
  length (layoutRings cfg rings) = length rings.
Proof.
  apply ringsAfter_length.
Qed.

Lemma layoutRings_nth {num} `{JSNumber num} (cfg : RadarPieConfig num)
      (rings : list (RingInfo num)) (i : nat) (ring : RingInfo num) :
  nth_error rings i = Some ring ->
  nth_error (layoutRings cfg rings) i
  = Some (ringLaidOut cfg (scaledRadiuses cfg rings) rings i ring).
Proof.
  intros Hring. apply ringsAfter_done; [| assumption].
  eapply nth_error_in_range; eauto.
Qed.






(** C10: with one ring the interpolation divides zero by zero: the opacity
    of the ring is [NaN], whatever the configured range, and lies neither
    above [ringMinOpacity] nor below [ringMaxOpacity]. *)
Theorem single_ring_opacity_is_NaN
        (cfg : RadarPieConfig float) (ring : RingInfo float) :
  exists ring' o,
    layoutRings cfg [ring] = [ring']
    /\ ring_opacity ring' = Some o
    /\ isNaN o
    /\ PrimFloat.leb (ringMinOpacity cfg) o = false
    /\ PrimFloat.leb o (ringMaxOpacity cfg) = false.
Proof.
  pose proof (@layoutRings_nth _ _ cfg [ring] 0 ring eq_refl) as Hnth.
  pose proof (layoutRings_length cfg [ring]) as Hlen.
  destruct (layoutRings cfg [ring]) as [| ring' [| extra rest]];
    simpl in Hlen; try discriminate.
  simpl in Hnth. injection Hnth as ->.
  assert (HNaN : isNaN (ringOpacity cfg 1 0)).
  { unfold ringOpacity. cbn. apply mul0_div0_add_NaN. }
  eexists; eexists. split; [reflexivity |]. split; [reflexivity |].
  repeat split.
  - exact HNaN.
  - now apply isNaN_le_r.
  - now apply isNaN_le_l.
Qed.

(* ================================================================== *)
(** * The radius and the inner radius of the rings *)
(* ================================================================== *)

Section ScalerFacts.

Context {num : Type} `{JSNumber num}.

Lemma clampRound_length (ws : list num) (clamped : list bool)
      (total minimum : num) :
  length clamped = length ws ->
  length (clampRound ws clamped total minimum) = length ws.
Proof.
  intros Hlen. unfold clampRound.
  rewrite length_map, length_combine. lia.
Qed.

Lemma scaledOutput_length (ws : list num) (clamped : list bool)
      (total minimum : num) :
  length clamped = length ws ->
  length (scaledOutput ws clamped total minimum) = length ws.
Proof.
  intros Hlen. unfold scaledOutput.
  rewrite length_map, length_combine. lia.
Qed.

Lemma scaleRounds_length (rounds : nat) (ws : list num) (clamped : list bool)
      (total minimum : num) :
  length clamped = length ws ->
  length (scaleRounds rounds ws clamped total minimum) = length ws.
Proof.
  revert clamped; induction rounds as [| rounds IH]; intros clamped Hlen; simpl.
  - now apply scaledOutput_length.
  - destruct (Nat.eqb _ _).
    + now apply scaledOutput_length.
    + apply IH. now apply clampRound_length.
Qed.

(** The scaler returns one magnitude per weight. *)
Lemma scaleProportional_length (ws : list num) (total minimum : num) :
  length (scaleProportional ws total minimum) = length ws.
Proof.
  unfold scaleProportional. destruct (lt _ _).
  - apply length_map.
  - apply scaleRounds_length. apply length_map.
Qed.








End ScalerFacts.

Section RingRadii.

Local Open Scope R_scope.

Variable cfg : RadarPieConfig xreal.
Variables outer inner pad : R.
Hypothesis cfg_outer : outerRadius cfg = Fin outer.
Hypothesis cfg_inner : innerRadius cfg = Fin inner.
Hypothesis cfg_pad : ringPadding cfg = Fin pad.

Lemma availableRadius_exact (rings : list (RingInfo xreal)) :
  availableRadius cfg rings
  = Fin (outer - inner - pad * (INR (length rings) - 1)).
Proof.
  unfold availableRadius.
  rewrite cfg_outer, cfg_inner, cfg_pad, ofNat_xreal. reflexivity.
Qed.

Lemma ringWeights_from (rings : list (RingInfo xreal)) (counts : list R)
      (n : R) (i0 : nat) :
  map (@ring_itemCount xreal) rings = map Fin counts ->
  mapi_from (fun r level =>
               mul (mul (ring_itemCount r)
                        (Math_pow2 (sub (Fin n) (ofNat level))))
                   Math_PI) i0 rings
  = map Fin (mapi_from (fun c level => c * (n - INR level) ^ 2 * PI) i0 counts).
Proof.
  revert counts i0; induction rings as [| r rest IH];
    intros [| c counts] i0 Hcounts; cbn [mapi_from map] in *;
    try discriminate; auto.
  injection Hcounts as Hc Hrest.
  rewrite Hc, ofNat_xreal, (IH counts) by assumption.
  cbn. do 2 f_equal. unfold Rminus. ring.
Qed.

Lemma ringWeights_exact (rings : list (RingInfo xreal)) (counts : list R) :
  map (@ring_itemCount xreal) rings = map Fin counts ->
  ringWeights rings
  = map Fin (mapi (fun c level =>
                     c * (INR (length rings) - INR level) ^ 2 * PI) counts).
Proof.
  intros Hcounts. unfold ringWeights, mapi.
  rewrite ofNat_xreal. now apply ringWeights_from.
Qed.

Lemma firstn_by_index (L : nat) (xs : list R) :
  (L <= length xs)%nat ->
  firstn L xs = map (fun i => nth i xs 0) (seq 0 L).
Proof.
  revert L; induction xs as [| x rest IH]; intros [| L] HL; simpl in *;
    try lia; try reflexivity.
  f_equal. rewrite <- seq_shift, map_map. apply IH. lia.
Qed.

(** The terms [d3.sum] adds for the ring at level [L]: radius and padding of
    the rings below, zero for the others. *)
Lemma sum_below (radii : list R) (L n : nat) :
  (L <= n)%nat -> length radii = n ->
  sumR (map (fun i => if Nat.ltb i L then nth i radii 0 + pad else 0)
            (seq 0 n))
  = sumR (map (fun r => r + pad) (firstn L radii)).
Proof.
  intros HL Hlen.
  replace n with (L + (n - L))%nat by lia.
  rewrite seq_app, map_app, sumR_app. simpl.
  assert (Hzero : forall m k, (L <= k)%nat ->
            sumR (map (fun i => if Nat.ltb i L then nth i radii 0 + pad else 0)
                      (seq k m)) = 0).
  { induction m as [| m IH]; intros k Hk; simpl; [reflexivity |].
    destruct (Nat.ltb_spec k L); [lia |]. rewrite IH by lia. lra. }
  rewrite (Hzero (n - L)%nat L) by lia. rewrite Rplus_0_r. f_equal.
  rewrite (@firstn_by_index L radii) by lia. rewrite map_map.
  apply map_ext_in. intros i Hi. apply in_seq in Hi.
  destruct (Nat.ltb_spec i L); [reflexivity | lia].
Qed.

Lemma nth_error_Fin (radii : list R) (i : nat) :
  (i < length radii)%nat ->
  nth_error (map Fin radii) i = Some (Fin (nth i radii 0)).
Proof.
  intros Hi. rewrite nth_error_map.
  rewrite (nth_error_nth' radii 0 Hi). reflexivity.
Qed.

Lemma ringInnerRadius_exact (rings : list (RingInfo xreal)) (radii : list R)
      (L : nat) :
  length radii = length rings -> (L <= length rings)%nat ->
  ringInnerRadius cfg (ringsAfter cfg (map Fin radii) rings L) L
  = Fin (inner + sumR (map (fun r => r + pad) (firstn L radii))).
Proof.
  intros Hlen HL. unfold ringInnerRadius.
  rewrite (@d3_sum_Fin _ _ _
             (fun i => if Nat.ltb i L then nth i radii 0 + pad else 0)).
  - rewrite ringsAfter_length, cfg_inner.
    rewrite (@sum_below radii L (length rings)) by assumption.
    reflexivity.
  - intros i ring Hring.
    destruct (Nat.ltb_spec i L) as [HiL | HiL]; [| reflexivity].
    assert (Hi : (i < length rings)%nat) by lia.
    destruct (nth_error rings i) as [ring0 |] eqn:Hring0;
      [| apply nth_error_None in Hring0; lia].
    rewrite (ringsAfter_done cfg (map Fin radii) rings HiL Hring0) in Hring.
    injection Hring as <-. simpl.
    rewrite nth_error_Fin by lia. rewrite cfg_pad. reflexivity.
Qed.

(** C6: the radii of the rings are what the Proportional Scaler returns for
    the weights [c[L] * (n - L)^2 * pi], the budget
    [outerRadius - innerRadius - ringPadding * (n - 1)] and the floor
    [minRingRadius]; the inner radius of the ring at level [L] is the
    configured inner radius plus the sum of [radius + ringPadding] over the
    rings below [L]. *)
Theorem ring_radii_and_inner_radii
        (rings : list (RingInfo xreal)) (counts radii : list R) :
  map (@ring_itemCount xreal) rings = map Fin counts ->
  let n := length rings in
  scaleProportional
    (map Fin (mapi (fun c level => c * (INR n - INR level) ^ 2 * PI) counts))
    (Fin (outer - inner - pad * (INR n - 1)))
    (minRingRadius cfg)
  = map Fin radii ->
  forall L, (L < n)%nat ->
    exists ring radius,
      nth_error (layoutRings cfg rings) L = Some ring
      /\ nth_error radii L = Some radius
      /\ ring_radius ring = Some (Fin radius)
      /\ ring_innerRadius ring
         = Some (Fin (inner + sumR (map (fun r => r + pad) (firstn L radii)))).
Proof.
  intros Hcounts n Hscaler L HL.
  assert (Hscaled : scaledRadiuses cfg rings = map Fin radii).
  { unfold scaledRadiuses.
    rewrite (@ringWeights_exact rings counts Hcounts), availableRadius_exact.
    exact Hscaler. }
  assert (Hlen : length radii = length rings).
  { pose proof (scaleProportional_length (ringWeights rings)
                  (availableRadius cfg rings) (minRingRadius cfg)) as Hl.
    fold (scaledRadiuses cfg rings) in Hl. rewrite Hscaled in Hl.
    rewrite length_map in Hl. rewrite Hl.
    unfold ringWeights, mapi. apply mapi_from_length. }
  destruct (nth_error rings L) as [ring0 |] eqn:Hring0;
    [| apply nth_error_None in Hring0; unfold n in HL; lia].
  exists (ringLaidOut cfg (scaledRadiuses cfg rings) rings L ring0).
  exists (nth L radii 0).
  split; [now apply layoutRings_nth |].
  split; [apply nth_error_nth'; unfold n in HL; lia |].
  rewrite Hscaled. simpl. split.
  - apply nth_error_Fin. unfold n in HL; lia.
  - f_equal. apply ringInnerRadius_exact; [assumption | unfold n in HL; lia].
Qed.

End RingRadii.


(* ================================================================== *)
(** * The anchor of a label *)
(* ================================================================== *)

Section AnchorFacts.

Local Open Scope R_scope.

Lemma degToRad_exact (d : R) : degToRad (Fin d) = Fin (d * PI / 180).
Proof.
  unfold degToRad. cbn. rewrite Reqb_false by lra. reflexivity.
Qed.

Lemma Rltb_degrees (a d : R) :
  XReal.Rltb (a * PI / 180) (d * PI / 180) = XReal.Rltb a d.
Proof.
  pose proof PI_RGT_0 as Hpi.
  unfold XReal.Rltb.
  destruct (Rlt_dec (a * PI / 180) (d * PI / 180)) as [Hr | Hr],
           (Rlt_dec a d) as [Hd | Hd]; try reflexivity; exfalso.
  - apply Hd. nra.
  - apply Hr. nra.
Qed.

Lemma Rleb_degrees (a d : R) :
  XReal.Rleb (a * PI / 180) (d * PI / 180) = XReal.Rleb a d.
Proof.
  pose proof PI_RGT_0 as Hpi.
  unfold XReal.Rleb.
  destruct (Rle_dec (a * PI / 180) (d * PI / 180)) as [Hr | Hr],
           (Rle_dec a d) as [Hd | Hd]; try reflexivity; exfalso.
  - apply Hd. nra.
  - apply Hr. nra.
Qed.

(** The classifier on an angle of [a] degrees compares [a] with the
    cut-offs in degrees. *)
Lemma horizontalAnchor_degrees (a : R) :
  horizontalAnchor (Fin (a * PI / 180))
  = if XReal.Rltb (360 + - 10) a || XReal.Rltb a 10 then Normal h_middle
    else if XReal.Rltb (180 + - 10) a && XReal.Rltb a (180 + 10)
    then Normal h_middle
    else if XReal.Rleb 10 a && XReal.Rleb a (180 + - 10) then Normal h_start
    else if XReal.Rleb (180 + 10) a && XReal.Rleb a (360 + - 10)
    then Normal h_end
    else Throw (InvalidRadsHorizontal (Fin (a * PI / 180))).
Proof.
  unfold horizontalAnchor, H_CUT_OFF_DEGREE.
  change (sub (ofZ 360) (ofZ 10)) with (Fin (360 + - 10)).
  change (sub (ofZ 180) (ofZ 10)) with (Fin (180 + - 10)).
  change (add (ofZ 180) (ofZ 10)) with (Fin (180 + 10)).
  change (ofZ 10) with (Fin 10).
  rewrite !degToRad_exact. cbn [lt le xreal_JSNumber XReal.lt XReal.le].
  rewrite !Rltb_degrees, !Rleb_degrees. reflexivity.
Qed.

Lemma verticalAnchor_degrees (a : R) :
  verticalAnchor (Fin (a * PI / 180))
  = if XReal.Rltb (360 + - 45) a || XReal.Rltb a 45 then Normal v_baseline
    else if XReal.Rltb (180 + - 45) a && XReal.Rltb a (180 + 45)
    then Normal v_hanging
    else if XReal.Rleb 45 a && XReal.Rleb a (180 + - 45) then Normal v_middle
    else if XReal.Rleb (180 + 45) a && XReal.Rleb a (360 + - 45)
    then Normal v_middle
    else Throw (InvalidRadsVertical (Fin (a * PI / 180))).
Proof.
  unfold verticalAnchor, V_CUT_OFF_DEGREE.
  change (sub (ofZ 360) (ofZ 45)) with (Fin (360 + - 45)).
  change (sub (ofZ 180) (ofZ 45)) with (Fin (180 + - 45)).
  change (add (ofZ 180) (ofZ 45)) with (Fin (180 + 45)).
  change (ofZ 45) with (Fin 45).
  rewrite !degToRad_exact. cbn [lt le xreal_JSNumber XReal.lt XReal.le].
  rewrite !Rltb_degrees, !Rleb_degrees. reflexivity.
Qed.

End AnchorFacts.

(** Decides the comparisons of reals in the goal from the hypotheses. *)
Ltac decide_comparisons :=
  repeat match goal with
         | |- context [XReal.Rltb ?a ?b] =>
             first [ rewrite (@Rltb_true a b) by lra
                   | rewrite (@Rltb_false a b) by lra ]
         | |- context [XReal.Rleb ?a ?b] =>
             first [ rewrite (@Rleb_true a b) by lra
                   | rewrite (@Rleb_false a b) by lra ]
         end;
  cbn [orb andb negb].

Section AnchorBands.

Local Open Scope R_scope.

Lemma horizontalAnchor_top (a : R) :
  a < 10 \/ 350 < a ->
  horizontalAnchor (Fin (a * PI / 180)) = Normal h_middle.
Proof.
  intros [Ha | Ha]; rewrite horizontalAnchor_degrees; decide_comparisons;
    reflexivity.
Qed.

Lemma horizontalAnchor_bottom (a : R) :
  170 < a < 190 ->
  horizontalAnchor (Fin (a * PI / 180)) = Normal h_middle.
Proof.
  intros Ha; rewrite horizontalAnchor_degrees; decide_comparisons; reflexivity.
Qed.

Lemma horizontalAnchor_right (a : R) :
  10 <= a <= 170 ->
  horizontalAnchor (Fin (a * PI / 180)) = Normal h_start.
Proof.
  intros Ha; rewrite horizontalAnchor_degrees; decide_comparisons; reflexivity.
Qed.

Lemma horizontalAnchor_left (a : R) :
  190 <= a <= 350 ->
  horizontalAnchor (Fin (a * PI / 180)) = Normal h_end.
Proof.
  intros Ha; rewrite horizontalAnchor_degrees; decide_comparisons; reflexivity.
Qed.

Lemma verticalAnchor_top (a : R) :
  a < 45 \/ 315 < a ->
  verticalAnchor (Fin (a * PI / 180)) = Normal v_baseline.
Proof.
  intros [Ha | Ha]; rewrite verticalAnchor_degrees; decide_comparisons;
    reflexivity.
Qed.

Lemma verticalAnchor_bottom (a : R) :
  135 < a < 225 ->
  verticalAnchor (Fin (a * PI / 180)) = Normal v_hanging.
Proof.
  intros Ha; rewrite verticalAnchor_degrees; decide_comparisons; reflexivity.
Qed.

Lemma verticalAnchor_sides (a : R) :
  45 <= a <= 135 \/ 225 <= a <= 315 ->
  verticalAnchor (Fin (a * PI / 180)) = Normal v_middle.
Proof.
  intros [Ha | Ha]; rewrite verticalAnchor_degrees; decide_comparisons;
    reflexivity.
Qed.

(** Every real angle falls in one band of each axis. *)
Lemma horizontalAnchor_total (a : R) :
  exists h, horizontalAnchor (Fin (a * PI / 180)) = Normal h /\ hBand a h.
Proof.
  unfold hBand.
  destruct (Rlt_dec a 10) as [H10 | H10].
  { exists h_middle. split; [apply horizontalAnchor_top; lra |].
    repeat split; intros; try reflexivity; lra. }
  destruct (Rle_dec a 170) as [H170 | H170].
  { exists h_start. split; [apply horizontalAnchor_right; lra |].
    repeat split; intros; try reflexivity; lra. }
  destruct (Rlt_dec a 190) as [H190 | H190].
  { exists h_middle. split; [apply horizontalAnchor_bottom; lra |].
    repeat split; intros; try reflexivity; lra. }
  destruct (Rle_dec a 350) as [H350 | H350].
  { exists h_end. split; [apply horizontalAnchor_left; lra |].
    repeat split; intros; try reflexivity; lra. }
  exists h_middle. split; [apply horizontalAnchor_top; lra |].
  repeat split; intros; try reflexivity; lra.
Qed.

Lemma verticalAnchor_total (a : R) :
  exists v, verticalAnchor (Fin (a * PI / 180)) = Normal v /\ vBand a v.
Proof.
  unfold vBand.
  destruct (Rlt_dec a 45) as [H45 | H45].
  { exists v_baseline. split; [apply verticalAnchor_top; lra |].
    repeat split; intros; try reflexivity; lra. }
  destruct (Rle_dec a 135) as [H135 | H135].
  { exists v_middle. split; [apply verticalAnchor_sides; lra |].
    repeat split; intros; try reflexivity; lra. }
  destruct (Rlt_dec a 225) as [H225 | H225].
  { exists v_hanging. split; [apply verticalAnchor_bottom; lra |].
    repeat split; intros; try reflexivity; lra. }
  destruct (Rle_dec a 315) as [H315 | H315].
  { exists v_middle. split; [apply verticalAnchor_sides; lra |].
    repeat split; intros; try reflexivity; lra. }
  exists v_baseline. split; [apply verticalAnchor_top; lra |].
  repeat split; intros; try reflexivity; lra.
Qed.

(** A finite angle in radians, in degrees. *)
Lemma radians_as_degrees (r : R) : r = (r * 180 / PI) * PI / 180.
Proof.
  pose proof PI_RGT_0. field. lra.
Qed.

End AnchorBands.

(** C3: on an angle of [a] degrees in [0, 360), given in radians as the
    only argument, the classifier returns the anchors of the bands of [a]:
    horizontally [middle] under 10 or over 350 degrees and strictly between
    170 and 190, [start] from 10 to 170, [end] from 190 to 350; vertically
    [baseline] under 45 or over 315 degrees, [hanging] strictly between 135
    and 225, [middle] on the two sides. *)
Theorem anchor_placement_bands (a : R) :
  (0 <= a < 360)%R ->
  exists h v,
    calculateAnchorPlacement (Fin (a * PI / 180)) None
    = Normal {| hAnchor := h; vAnchor := v |}
    /\ hBand a h /\ vBand a v.
Proof.
  intros _.
  destruct (horizontalAnchor_total a) as (h & Hh & Hband).
  destruct (verticalAnchor_total a) as (v & Hv & Vband).
  exists h, v. split; [| split; assumption].
  unfold calculateAnchorPlacement, anchorRads. rewrite Hh, Hv. reflexivity.
Qed.

Lemma anchor_placement_bands_witness :
  (0 <= 90 < 360)%R
  /\ exists h v,
       calculateAnchorPlacement (Fin (90 * PI / 180)) None
       = Normal {| hAnchor := h; vAnchor := v |}
       /\ hBand 90 h /\ vBand 90 v.
Proof.
  assert (H90 : (0 <= 90 < 360)%R) by lra.
  split; [exact H90 | exact (@anchor_placement_bands 90%R H90)].
Defined.

(** The four angles the specification names. *)
Lemma anchor_placement_at_0 :
  calculateAnchorPlacement (degToRad (Fin 0)) None
  = Normal {| hAnchor := h_middle; vAnchor := v_baseline |}.
Proof.
  rewrite degToRad_exact. unfold calculateAnchorPlacement, anchorRads.
  rewrite horizontalAnchor_top, verticalAnchor_top by (left; lra).
  reflexivity.
Qed.

Lemma anchor_placement_at_90 :
  calculateAnchorPlacement (degToRad (Fin 90)) None
  = Normal {| hAnchor := h_start; vAnchor := v_middle |}.
Proof.
  rewrite degToRad_exact. unfold calculateAnchorPlacement, anchorRads.
  rewrite horizontalAnchor_right by lra.
  rewrite verticalAnchor_sides by (left; lra).
  reflexivity.
Qed.

Lemma anchor_placement_at_180 :
  calculateAnchorPlacement (degToRad (Fin 180)) None
  = Normal {| hAnchor := h_middle; vAnchor := v_hanging |}.
Proof.
  rewrite degToRad_exact. unfold calculateAnchorPlacement, anchorRads.
  rewrite horizontalAnchor_bottom, verticalAnchor_bottom by lra.
  reflexivity.
Qed.

Lemma anchor_placement_at_270 :
  calculateAnchorPlacement (degToRad (Fin 270)) None
  = Normal {| hAnchor := h_end; vAnchor := v_middle |}.
Proof.
  rewrite degToRad_exact. unfold calculateAnchorPlacement, anchorRads.
  rewrite horizontalAnchor_left by lra.
  rewrite verticalAnchor_sides by (right; lra).
  reflexivity.
Qed.

(** The same four angles in floating point. *)
Example anchor_placement_float :
  map (fun deg => calculateAnchorPlacement (degToRad deg) None)
      [0; 90; 180; 270]%float
  = [Normal {| hAnchor := h_middle; vAnchor := v_baseline |};
     Normal {| hAnchor := h_start; vAnchor := v_middle |};
     Normal {| hAnchor := h_middle; vAnchor := v_hanging |};
     Normal {| hAnchor := h_end; vAnchor := v_middle |}].
Proof. vm_compute. reflexivity. Qed.

(** C4: an angle under 0 or over 360 degrees does not make the classifier
    throw: the first test of each axis, [rads > 350 degrees || rads < 10
    degrees], takes it, and the placement returned is that of the top of the
    circle. *)
Theorem anchor_placement_out_of_range (a : R) :
  (a < 0 \/ 360 < a)%R ->
  calculateAnchorPlacement (Fin (a * PI / 180)) None
  = Normal {| hAnchor := h_middle; vAnchor := v_baseline |}.
Proof.
  intros Ha. unfold calculateAnchorPlacement, anchorRads.
  rewrite horizontalAnchor_top, verticalAnchor_top
    by (destruct Ha; [left | right]; lra).
  reflexivity.
Qed.

Lemma anchor_placement_out_of_range_witness :
  (-90 < 0 \/ 360 < -90)%R
  /\ calculateAnchorPlacement (Fin (-90 * PI / 180)) None
     = Normal {| hAnchor := h_middle; vAnchor := v_baseline |}.
Proof.
  assert (H : (-90 < 0 \/ 360 < -90)%R) by (left; lra).
  split; [exact H | exact (@anchor_placement_out_of_range (-90)%R H)].
Defined.

(** In floating point: angles of -1 and 7 radians are placed like the top
    of the circle; the errors are left to [NaN]. *)
Example anchor_placement_out_of_range_float :
  map (fun rads => calculateAnchorPlacement rads None) [-1; 7; nan]%float
  = [Normal {| hAnchor := h_middle; vAnchor := v_baseline |};
     Normal {| hAnchor := h_middle; vAnchor := v_baseline |};
     Throw (InvalidRadsHorizontal nan)].
Proof. vm_compute. reflexivity. Qed.

(** Unfolds the classifier down to the cut-offs in radians. *)
Ltac anchor_thresholds :=
  unfold calculateAnchorPlacement, anchorRads, horizontalAnchor, verticalAnchor,
    H_CUT_OFF_DEGREE, V_CUT_OFF_DEGREE;
  change (sub (ofZ 360) (ofZ 10)) with (Fin (360 + - 10));
  change (sub (ofZ 180) (ofZ 10)) with (Fin (180 + - 10));
  change (add (ofZ 180) (ofZ 10)) with (Fin (180 + 10));
  change (sub (ofZ 360) (ofZ 45)) with (Fin (360 + - 45));
  change (sub (ofZ 180) (ofZ 45)) with (Fin (180 + - 45));
  change (add (ofZ 180) (ofZ 45)) with (Fin (180 + 45));
  change (ofZ 10) with (Fin 10); change (ofZ 45) with (Fin 45);
  rewrite !degToRad_exact.

(** The infinities are placed like the top of the circle. *)
Lemma anchor_placement_infinite (rads : xreal) :
  rads = PInf \/ rads = NInf ->
  calculateAnchorPlacement rads None
  = Normal {| hAnchor := h_middle; vAnchor := v_baseline |}.
Proof.
  intros Hrads. anchor_thresholds.
  destruct Hrads as [-> | ->]; reflexivity.
Qed.

Lemma anchor_placement_NaN :
  calculateAnchorPlacement XNaN None = Throw (InvalidRadsHorizontal XNaN).
Proof.
  anchor_thresholds. reflexivity.
Qed.

(** In exact arithmetic the classifier throws on [NaN] and on nothing
    else. *)
Lemma anchor_placement_throws_on_NaN_only (rads : xreal) :
  (exists e, calculateAnchorPlacement rads None = Throw e) <-> rads = XNaN.
Proof.
  split.
  - intros [e He]. destruct rads as [r | | |]; [exfalso | | | reflexivity].
    + rewrite (radians_as_degrees r) in He.
      destruct (horizontalAnchor_total (r * 180 / PI)) as (h & Hh & _).
      destruct (verticalAnchor_total (r * 180 / PI)) as (v & Hv & _).
      unfold calculateAnchorPlacement, anchorRads in He.
      rewrite Hh, Hv in He. discriminate.
    + rewrite anchor_placement_infinite in He by (left; reflexivity).
      discriminate.
    + rewrite anchor_placement_infinite in He by (right; reflexivity).
      discriminate.
  - intros ->. eexists. apply anchor_placement_NaN.
Qed.

(* ================================================================== *)
(** * The arcs of the segments *)
(* ================================================================== *)

Section LoopFacts.

Context {num : Type}.

Lemma forEachM_Normal {T} (f : T -> completion num T) (xs ys : list T) :
  forEachM f xs = Normal ys -> Forall2 (fun x y => f x = Normal y) xs ys.
Proof.
  revert ys; induction xs as [| x rest IH]; intros ys Hys; simpl in Hys.
  - injection Hys as <-. constructor.
  - destruct (f x) as [x' |] eqn:Hx; simpl in Hys; [| discriminate].
    destruct (forEachM f rest) as [rest' |] eqn:Hrest; simpl in Hys;
      [| discriminate].
    injection Hys as <-. constructor; auto.
Qed.

Lemma foldM_invariant {S T} (f : S -> T -> completion num S) (P : S -> Prop)
      (xs : list T) (s0 s : S) :
  (forall s1 x s2, P s1 -> f s1 x = Normal s2 -> P s2) ->
  P s0 -> foldM f xs s0 = Normal s -> P s.
Proof.
  intros Hstep. revert s0; induction xs as [| x rest IH]; intros s0 H0 Hs;
    simpl in Hs.
  - now injection Hs as <-.
  - destruct (f s0 x) as [s1 |] eqn:H1; simpl in Hs; [| discriminate].
    apply (IH s1); [apply (Hstep s0 x s1 H0 H1) | exact Hs].
Qed.

Lemma In_update {T} (xs : list T) (i : nat) (x y : T) :
  In y (update xs i x) -> y = x \/ In y xs.
Proof.
  revert i; induction xs as [| z rest IH]; intros [| i] Hy; simpl in *;
    try tauto.
  - destruct Hy as [<- | Hy]; auto.
  - destruct Hy as [<- | Hy]; auto. destruct (IH i Hy); auto.
Qed.

Lemma Forall2_In_r {A B} (R : A -> B -> Prop) (xs : list A) (ys : list B)
      (y : B) :
  Forall2 R xs ys -> In y ys -> exists x, In x xs /\ R x y.
Proof.
  induction 1 as [| x y' xs ys Hxy _ IH]; intros Hy; simpl in Hy; [tauto |].
  destruct Hy as [<- | Hy].
  - exists x; simpl; auto.
  - destruct (IH Hy) as (x0 & Hx0 & HR). exists x0; simpl; auto.
Qed.

End LoopFacts.

Section SegmentFacts.

Context {num : Type} `{JSNumber num} `{JSTrig num}.
Variable cfg : RadarPieConfig num.

Lemma segmentArc_follows (rings : list (RingInfo num))
      (a : DefaultArcObject num) (seg seg' : Segment num) :
  segmentArc rings a seg = Normal seg' -> segmentFollows rings a seg'.
Proof.
  unfold segmentArc, segmentFollows. intros Hseg.
  destruct (find _ rings) as [found |] eqn:Hfound; [| discriminate].
  destruct (nth_error rings (seg_ringLevel seg)) as [atLevel |] eqn:Hlevel;
    [| discriminate].
  injection Hseg as <-. simpl. exists found, atLevel. auto.
Qed.

Lemma layoutSubSlice_follows (rings : list (RingInfo num))
      (arc : PieArcDatum num (CatInfoSubSlice num)) (ss ss' : SubSlice num) :
  layoutSubSlice cfg rings arc ss = Normal ss' ->
  ss_arcParams ss' = Some (subSliceArcParams cfg arc)
  /\ forall seg, In seg (ss_segments ss') ->
                 segmentFollows rings (subSliceArcParams cfg arc) seg.
Proof.
  unfold layoutSubSlice. intros Hss.
  destruct (subSliceLabelData cfg _) as [labelData |]; simpl in Hss;
    [| discriminate].
  destruct (forEachM _ _) as [segments |] eqn:Hsegs; simpl in Hss;
    [| discriminate].
  injection Hss as <-. simpl. split; [reflexivity |].
  intros seg Hseg. apply forEachM_Normal in Hsegs.
  destruct (@Forall2_In_r _ _ _ _ _ _ Hsegs Hseg) as (seg0 & _ & Hseg0).
  eapply segmentArc_follows; eauto.
Qed.

Lemma subSliceArcStep_follows (content content' : RadarContent num)
      (arc : PieArcDatum num (CatInfoSubSlice num)) :
  segmentsFollow (rc_rings content) (rc_slices content) ->
  subSliceArcStep cfg content arc = Normal content' ->
  rc_rings content' = rc_rings content
  /\ segmentsFollow (rc_rings content') (rc_slices content').
Proof.
  intros Hinv. unfold subSliceArcStep.
  destruct (findIndex _ (rc_slices content)) as [i |]; [| discriminate].
  destruct (nth_error (rc_slices content) i) as [slice |] eqn:Hslice;
    [| discriminate].
  destruct (findIndex _ (slice_subSlices slice)) as [j |]; [| discriminate].
  destruct (nth_error (slice_subSlices slice) j) as [ss |] eqn:Hss;
    [| discriminate].
  destruct (layoutSubSlice cfg (rc_rings content) arc ss) as [ss' |] eqn:Hss';
    simpl; [| discriminate].
  intros Hc; injection Hc as <-. simpl. split; [reflexivity |].
  destruct (layoutSubSlice_follows _ _ _ Hss') as (Harc & Hsegs).
  intros slice1 ss1 a seg Hslice1 Hss1 Ha Hseg.
  apply In_update in Hslice1. destruct Hslice1 as [-> | Hslice1].
  - simpl in Hss1. apply In_update in Hss1. destruct Hss1 as [-> | Hss1].
    + rewrite Harc in Ha. injection Ha as <-. now apply Hsegs.
    + apply (Hinv slice ss1 a seg); auto.
      eapply nth_error_In; eauto.
  - apply (Hinv slice1 ss1 a seg); auto.
Qed.

Lemma sliceStep_subSlices (slice slice' : Slice num) :
  sliceStep cfg slice = Normal slice' ->
  slice_subSlices slice' = slice_subSlices slice.
Proof.
  unfold sliceStep. intros Hs.
  destruct (nth_error (slice_subSlices slice) 0) as [f |]; [| discriminate].
  destruct (nth_error (slice_subSlices slice) _) as [l |]; [| discriminate].
  destruct (ss_arcParams f) as [fa |]; [| discriminate].
  destruct (ss_arcParams l) as [la |]; [| discriminate].
  destruct (sliceLabelDataOf cfg fa la) as [ld |]; simpl in Hs;
    [| discriminate].
  now injection Hs as <-.
Qed.

(** What the constructor leaves of the tree: the rings are those of
    [layoutRings], the other arrays are untouched, and the segments follow
    their sub-slices. *)
Lemma layout_frame (content content' : RadarContent num) :
  layout cfg content = Normal content' ->
  rc_rings content' = layoutRings cfg (rc_rings content)
  /\ rc_subSlices content' = rc_subSlices content
  /\ rc_groups content' = rc_groups content
  /\ rc_items content' = rc_items content.
Proof.
  unfold layout. intros Hl.
  destruct (foldM _ _ _) as [content2 |] eqn:Hfold; simpl in Hl;
    [| discriminate].
  destruct (forEachM _ _) as [slices |]; simpl in Hl; [| discriminate].
  injection Hl as <-. simpl.
  revert Hfold.
  apply (@foldM_invariant num _ _ (subSliceArcStep cfg)
           (fun c => rc_rings c = layoutRings cfg (rc_rings content)
                     /\ rc_subSlices c = rc_subSlices content
                     /\ rc_groups c = rc_groups content
                     /\ rc_items c = rc_items content)).
  - intros c arc c' (Hr & Hs & Hg & Hi). unfold subSliceArcStep.
    destruct (findIndex _ (rc_slices c)) as [i |]; [| discriminate].
    destruct (nth_error (rc_slices c) i) as [slice |]; [| discriminate].
    destruct (findIndex _ (slice_subSlices slice)) as [j |]; [| discriminate].
    destruct (nth_error (slice_subSlices slice) j) as [ss |]; [| discriminate].
    destruct (layoutSubSlice cfg (rc_rings c) arc ss) as [ss' |]; simpl;
      [| discriminate].
    intros Hc; injection Hc as <-. simpl. auto.
  - simpl. auto.
Qed.

Lemma layout_follows (content content' : RadarContent num) :
  noArcsYet (rc_slices content) ->
  layout cfg content = Normal content' ->
  segmentsFollow (rc_rings content') (rc_slices content').
Proof.
  intros Hfresh Hl. pose proof Hl as Hl0. unfold layout in Hl.
  destruct (foldM _ _ _) as [content2 |] eqn:Hfold; simpl in Hl;
    [| discriminate].
  destruct (forEachM _ _) as [slices |] eqn:Hslices; simpl in Hl;
    [| discriminate].
  injection Hl as <-. simpl.
  assert (Hinv : rc_rings content2 = layoutRings cfg (rc_rings content)
                 /\ segmentsFollow (rc_rings content2) (rc_slices content2)).
  { revert Hfold.
    apply (@foldM_invariant num _ _ (subSliceArcStep cfg)
             (fun c => rc_rings c = layoutRings cfg (rc_rings content)
                       /\ segmentsFollow (rc_rings c) (rc_slices c))).
    - intros c arc c' (Hr & Hf) Hstep.
      destruct (@subSliceArcStep_follows c c' arc Hf Hstep) as (Hr' & Hf').
      split; [congruence | assumption].
    - simpl. split; [reflexivity |].
      intros slice ss a seg Hslice Hss Ha. rewrite (Hfresh slice ss) in Ha;
        [discriminate | assumption | assumption]. }
  destruct Hinv as (_ & Hinv).
  intros slice' ss a seg Hslice' Hss Ha Hseg.
  apply forEachM_Normal in Hslices.
  destruct (@Forall2_In_r _ _ _ _ _ _ Hslices Hslice') as (slice & Hslice & Hstep).
  apply sliceStep_subSlices in Hstep. rewrite Hstep in Hss.
  apply (Hinv slice ss a seg); auto.
Qed.

End SegmentFacts.

Section RingLookup.

Context {num : Type} `{JSNumber num}.

Lemma layoutRings_ids (cfg : RadarPieConfig num) (rings : list (RingInfo num)) :
  map (@ring_id num) (layoutRings cfg rings) = map (@ring_id num) rings.
Proof.
  apply nth_error_ext. intros i. rewrite !nth_error_map.
  destruct (nth_error rings i) as [ring |] eqn:Hring.
  - rewrite (layoutRings_nth cfg _ _ Hring). reflexivity.
  - apply nth_error_None in Hring.
    rewrite <- (layoutRings_length cfg) in Hring.
    apply nth_error_None in Hring. now rewrite Hring.
Qed.

(** After the loop over the rings every ring has its inner radius and its
    radius. *)
Lemma layoutRings_fields (cfg : RadarPieConfig num)
      (rings : list (RingInfo num)) (i : nat) (ring : RingInfo num) :
  nth_error (layoutRings cfg rings) i = Some ring ->
  exists ri rr, ring_innerRadius ring = Some ri /\ ring_radius ring = Some rr.
Proof.
  intros Hring.
  assert (Hi : i < length rings).
  { rewrite <- (layoutRings_length cfg). eapply nth_error_in_range; eauto. }
  destruct (nth_error rings i) as [ring0 |] eqn:Hring0;
    [| apply nth_error_None in Hring0; lia].
  rewrite (layoutRings_nth cfg _ _ Hring0) in Hring. injection Hring as <-.
  simpl.
  destruct (nth_error (scaledRadiuses cfg rings) i) as [rr |] eqn:Hrr.
  - eauto.
  - apply nth_error_None in Hrr. unfold scaledRadiuses in Hrr.
    rewrite scaleProportional_length in Hrr.
    unfold ringWeights, mapi in Hrr. rewrite mapi_from_length in Hrr. lia.
Qed.

End RingLookup.

(* ================================================================== *)
(** * The items of a segment *)
(* ================================================================== *)

Section SegmentItems.

Context {num : Type} `{JSNumber num}.
Variable arcGenerator : DefaultArcObject num -> string.
Variable arcGenerator_centroid : DefaultArcObject num -> Point (num := num).
Variable flattenSVGPath : string -> list (Point (num := num)).
Variable distributePointsWithinBoundary :
  list (Point (num := num)) -> nat -> list (Point (num := num)).

(** C9: the constructor of a segment with one item puts the item at the
    centroid of the arc of the segment, and calls no distribution of points;
    with no item it sets no position, and throws nothing. *)
Theorem segment_with_at_most_one_item
        (seg : Segment num) (rings : list (RingInfo num))
        (ring : RingInfo num) (arcParams : DefaultArcObject num) :
  nth_error rings (seg_ringLevel seg) = Some ring ->
  seg_arcParams seg = Some arcParams ->
  length (seg_items seg) <= 1 ->
  exists radarSegment calls,
    RadarSegment_constructor arcGenerator arcGenerator_centroid flattenSVGPath
      distributePointsWithinBoundary seg rings
    = Normal (radarSegment, calls)
    /\ noDistribution calls
    /\ arcCentroid radarSegment = arcGenerator_centroid arcParams
    /\ seg_items (segment radarSegment)
       = map (placedAt (arcGenerator_centroid arcParams)) (seg_items seg).
Proof.
  intros Hring Harc Hcount. unfold RadarSegment_constructor.
  rewrite Hring, Harc. unfold getItemBoundaryArc.
  destruct (seg_items seg) as [| item [| item' rest]]; simpl in Hcount;
    [| | lia]; cbn; eexists; eexists; (split; [reflexivity |]);
    (split; [| split; reflexivity]);
    intros boundary count Hin; simpl in Hin;
    repeat (destruct Hin as [Hin | Hin]; [discriminate |]); contradiction.
Qed.

End SegmentItems.

Lemma segment_with_at_most_one_item_witness :
  let arc : DefaultArcObject float :=
    {| arc_innerRadius := 180; arc_outerRadius := 220;
       arc_startAngle := 0; arc_endAngle := 2; arc_padAngle := 0 |}%float in
  let seg : Segment float :=
    {| seg_ringId := "trial"; seg_ringLevel := 1;
       seg_items := [newItem "new"];
       seg_arcParams := Some arc |} in
  let rings := layoutRings DEFAULT_RADAR_PIE_CONFIG exampleRings in
  (exists ring arcParams,
      nth_error rings (seg_ringLevel seg) = Some ring
      /\ seg_arcParams seg = Some arcParams
      /\ length (seg_items seg) <= 1)
  /\ exists radarSegment calls,
       RadarSegment_constructor (fun _ => EmptyString) d3_arc_centroid
         (fun _ => []) (fun _ _ => []) seg rings
       = Normal (radarSegment, calls)
       /\ noDistribution calls
       /\ seg_items (segment radarSegment)
          = [{| item_groupId := "new";
                item_x := Some (fst (d3_arc_centroid arc));
                item_y := Some (snd (d3_arc_centroid arc)) |}].
Proof.
  intros arc seg rings.
  destruct (nth_error rings (seg_ringLevel seg)) as [ring |] eqn:Hring;
    [| vm_compute in Hring; discriminate].
  split.
  - exists ring. eexists. split; [reflexivity |]. split; [reflexivity |].
    simpl. lia.
  - destruct (@segment_with_at_most_one_item float _ (fun _ => EmptyString)
                d3_arc_centroid (fun _ => []) (fun _ _ => [])
                seg rings ring _ Hring eq_refl (le_n 1))
      as (radarSegment & calls & Hnew & Hcalls & _ & Hitems).
    exists radarSegment, calls. split; [exact Hnew |]. split; [exact Hcalls |].
    rewrite Hitems. reflexivity.
Defined.

(* ================================================================== *)
(** * The label and the separator line of a slice *)
(* ================================================================== *)

Section SliceLabelFacts.

Local Open Scope R_scope.

Lemma cos_quarter_back (theta : R) : cos (theta + - (PI / 2)) = sin theta.
Proof.
  replace (theta + - (PI / 2)) with (- (PI / 2 - theta)) by lra.
  rewrite cos_neg. apply cos_shift.
Qed.

Lemma sin_quarter_back (theta : R) : sin (theta + - (PI / 2)) = - cos theta.
Proof.
  replace (theta + - (PI / 2)) with (- (PI / 2 - theta)) by lra.
  rewrite sin_neg, sin_shift. reflexivity.
Qed.

(** A point on a radial line is as far from the origin as the line says. *)
Lemma onRadial_distance (theta r x y : R) :
  onRadial theta r (Fin x) (Fin y) -> R_sqrt.sqrt (x * x + y * y) = Rabs r.
Proof.
  intros [Hx Hy]. injection Hx as ->. injection Hy as ->.
  replace (r * sin theta * (r * sin theta)
           + - (r * cos theta) * - (r * cos theta))
    with (r² * ((sin theta)² + (cos theta)²)) by (unfold Rsqr; ring).
  rewrite sin2_cos2, Rmult_1_r. apply sqrt_Rsqr_abs.
Qed.

(** The classifier returns on every finite angle. *)
Lemma anchor_placement_finite (r : R) :
  exists placement, calculateAnchorPlacement (Fin r) None = Normal placement.
Proof.
  rewrite (radians_as_degrees r).
  destruct (horizontalAnchor_total (r * 180 / PI)) as (h & Hh & _).
  destruct (verticalAnchor_total (r * 180 / PI)) as (v & Hv & _).
  unfold calculateAnchorPlacement, anchorRads. rewrite Hh, Hv.
  eexists. reflexivity.
Qed.

Variable cfg : RadarPieConfig xreal.
Variables labelDistance outFlow : R.
Hypothesis cfg_labelDistance : sliceLabelDistance cfg = Fin labelDistance.
Hypothesis cfg_outFlow : sliceDividerOutFlowLength cfg = Fin outFlow.




End SliceLabelFacts.


(* ================================================================== *)
(** * Arrays rewritten element by element *)
(* ================================================================== *)

Section ItemFacts.

Context {num : Type} `{JSNumber num} `{JSTrig num}.
Variable cfg : RadarPieConfig num.

Lemma map_update_same {T U} (f : T -> U) (xs : list T) (i : nat) (x x' : T) :
  nth_error xs i = Some x -> f x' = f x -> map f (update xs i x') = map f xs.
Proof.
  revert i; induction xs as [| y rest IH]; intros [| i] Hx Hf; simpl in *;
    try discriminate.
  - injection Hx as ->. now rewrite Hf.
  - f_equal. eapply IH; eauto.
Qed.

Lemma forEachM_map {T U} (f : T -> completion num T) (g : T -> U)
      (xs ys : list T) :
  (forall x y, f x = Normal y -> g y = g x) ->
  forEachM f xs = Normal ys -> map g ys = map g xs.
Proof.
  intros Hg Hys. apply forEachM_Normal in Hys.
  induction Hys as [| x y xs ys Hxy _ IH]; simpl; [reflexivity |].
  now rewrite (Hg x y Hxy), IH.
Qed.

End ItemFacts.

(* ================================================================== *)
(** * The Proportional Scaler *)
(* ================================================================== *)

Section ScalerRounds.

Local Open Scope R_scope.

Variables P B m : R.

Lemma clampedOf_cons (wc : R * bool) (wcs : list (R * bool)) :
  clampedOf (wc :: wcs)
  = ((if snd wc then 1 else 0) + clampedOf wcs)%nat.
Proof.
  unfold clampedOf. simpl. destruct (snd wc); reflexivity.
Qed.

Lemma clampedOf_le_length (wcs : list (R * bool)) :
  (clampedOf wcs <= length wcs)%nat.
Proof.
  unfold clampedOf. apply filter_length_le.
Qed.

Lemma roundOf_length (wcs : list (R * bool)) :
  length (roundOf P B m wcs) = length wcs.
Proof.
  unfold roundOf. apply length_map.
Qed.

Lemma roundOf_weights (wcs : list (R * bool)) :
  map fst (roundOf P B m wcs) = map fst wcs.
Proof.
  unfold roundOf. rewrite map_map. reflexivity.
Qed.

(** A round clamps more and more. *)
Lemma clampedOf_roundOf_ge (wcs : list (R * bool)) :
  (clampedOf wcs <= clampedOf (roundOf P B m wcs))%nat.
Proof.
  induction wcs as [| [w c] rest IH]; [apply Nat.le_refl |].
  change (roundOf P B m ((w, c) :: rest))
    with ((w, c || XReal.Rltb (shareAt P B w) m) :: roundOf P B m rest).
  rewrite !clampedOf_cons. simpl.
  destruct c; simpl; [lia |]. destruct (XReal.Rltb _ _); lia.
Qed.

(** A round that clamps as many items as before changes nothing. *)
Lemma roundOf_stable (wcs : list (R * bool)) :
  clampedOf (roundOf P B m wcs) = clampedOf wcs ->
  roundOf P B m wcs = wcs.
Proof.
  induction wcs as [| [w c] rest IH]; intros Hcount; [reflexivity |].
  change (roundOf P B m ((w, c) :: rest))
    with ((w, c || XReal.Rltb (shareAt P B w) m) :: roundOf P B m rest)
    in Hcount |- *.
  rewrite !clampedOf_cons in Hcount. simpl in Hcount.
  pose proof (clampedOf_roundOf_ge rest) as Hge.
  destruct c; simpl in *.
  - f_equal. apply IH. lia.
  - destruct (XReal.Rltb (shareAt P B w) m); [lia |].
    f_equal. apply IH. lia.
Qed.

(** The outputs of a round: the floor for the items clamped, and for the
    others their shares of the budget. *)
Lemma sum_outputsOf (wcs : list (R * bool)) :
  sumR (outputsOf P B m wcs)
  = m * INR (clampedOf wcs) + poolOf wcs / P * B.
Proof.
  induction wcs as [| [w c] rest IH].
  - unfold poolOf. simpl. lra.
  - change (outputsOf P B m ((w, c) :: rest))
      with ((if c then m else shareAt P B w) :: outputsOf P B m rest).
    change (poolOf ((w, c) :: rest))
      with ((if c then 0 else w) + poolOf rest).
    rewrite clampedOf_cons. cbn [snd].
    change (sumR ((if c then m else shareAt P B w) :: outputsOf P B m rest))
      with ((if c then m else shareAt P B w) + sumR (outputsOf P B m rest)).
    rewrite IH. destruct c.
    + change (1 + clampedOf rest)%nat with (S (clampedOf rest)).
      rewrite S_INR. lra.
    + change (0 + clampedOf rest)%nat with (clampedOf rest).
      unfold shareAt. lra.
Qed.

Lemma outputsOf_floor (wcs : list (R * bool)) :
  roundOf P B m wcs = wcs ->
  forall o, In o (outputsOf P B m wcs) -> m <= o.
Proof.
  induction wcs as [| [w c] rest IH]; intros Hstable o Ho; [contradiction |].
  change (roundOf P B m ((w, c) :: rest))
    with ((w, c || XReal.Rltb (shareAt P B w) m) :: roundOf P B m rest)
    in Hstable.
  injection Hstable as Hc Hrest.
  destruct Ho as [<- | Ho]; [| now apply IH].
  simpl. destruct c; [lra |]. simpl in Hc.
  unfold XReal.Rltb in Hc. destruct (Rlt_dec (shareAt P B w) m); [discriminate |].
  lra.
Qed.

Lemma flags_all_clamped (wcs : list (R * bool)) :
  clampedOf wcs = length wcs -> map snd wcs = map (fun _ => true) wcs.
Proof.
  induction wcs as [| [w c] rest IH]; intros Hall; [reflexivity |].
  rewrite clampedOf_cons in Hall. simpl in Hall.
  pose proof (clampedOf_le_length rest).
  destruct c; simpl in Hall; [| lia].
  simpl. f_equal. apply IH. lia.
Qed.

Lemma poolOf_nonneg (wcs : list (R * bool)) :
  (forall wc, In wc wcs -> 0 <= fst wc) -> 0 <= poolOf wcs.
Proof.
  induction wcs as [| [w c] rest IH]; intros Hws.
  - unfold poolOf. simpl. lra.
  - change (poolOf ((w, c) :: rest)) with ((if c then 0 else w) + poolOf rest).
    pose proof (Hws (w, c) (or_introl eq_refl)) as Hw. simpl in Hw.
    assert (0 <= poolOf rest) by (apply IH; intros; apply Hws; now right).
    destruct c; lra.
Qed.

(** In a pool without weight every item is clamped or has no weight. *)
Lemma poolOf_zero (wcs : list (R * bool)) :
  (forall wc, In wc wcs -> 0 <= fst wc) -> poolOf wcs = 0 ->
  forall wc, In wc wcs -> snd wc = true \/ fst wc = 0.
Proof.
  induction wcs as [| [w c] rest IH]; intros Hws Hpool wc Hwc;
    [contradiction |].
  change (poolOf ((w, c) :: rest)) with ((if c then 0 else w) + poolOf rest)
    in Hpool.
  assert (Hrest : forall wc, In wc rest -> 0 <= fst wc)
    by (intros; apply Hws; now right).
  pose proof (poolOf_nonneg rest Hrest) as Hnonneg.
  pose proof (Hws (w, c) (or_introl eq_refl)) as Hw. simpl in Hw.
  destruct Hwc as [<- | Hwc].
  - simpl. destruct c; [now left | right; lra].
  - apply IH; [assumption | | assumption]. destruct c; lra.
Qed.

End ScalerRounds.

Section ScalerExact.

Local Open Scope R_scope.

Variable ws : list R.
Variables total m : R.

Lemma fold_left_add_Fin (vs : list R) (acc : R) :
  fold_left add (map Fin vs) (Fin acc) = Fin (acc + sumR vs).
Proof.
  revert acc; induction vs as [| v rest IH]; intros acc; simpl.
  - f_equal; lra.
  - rewrite IH. f_equal; lra.
Qed.

Lemma combine_Fin (c : list bool) :
  combine (map Fin ws) c
  = map (fun wc : R * bool => (Fin (fst wc), snd wc)) (combine ws c).
Proof.
  revert c; induction ws as [| w rest IH]; intros [| b c]; simpl;
    try reflexivity.
  now rewrite IH.
Qed.

Lemma poolWeight_exact (c : list bool) :
  poolWeight (map Fin ws) c = Fin (poolOf (combine ws c)).
Proof.
  unfold poolWeight, poolOf. rewrite combine_Fin, map_map.
  rewrite (map_ext _ (fun wc => Fin (unclampedWeight wc))).
  - rewrite <- map_map. change (ofZ 0) with (Fin 0).
    rewrite fold_left_add_Fin. f_equal; lra.
  - intros [w b]. unfold unclampedWeight. simpl. destruct b; reflexivity.
Qed.

Lemma clampedCount_exact (c : list bool) :
  length c = length ws -> clampedCount c = clampedOf (combine ws c).
Proof.
  unfold clampedCount, clampedOf.
  revert c; induction ws as [| w rest IH]; intros [| b c] Hlen;
    simpl in *; try discriminate; [reflexivity |].
  destruct b; simpl; rewrite IH by lia; reflexivity.
Qed.

Lemma flags_of_combine (c : list bool) :
  length c = length ws -> map snd (combine ws c) = c.
Proof.
  revert c; induction ws as [| w rest IH]; intros [| b c] Hlen;
    simpl in *; try discriminate; [reflexivity |].
  f_equal. apply IH. lia.
Qed.

Lemma weights_of_combine (c : list bool) :
  length c = length ws -> map fst (combine ws c) = ws.
Proof.
  revert c; induction ws as [| w rest IH]; intros [| b c] Hlen;
    simpl in *; try discriminate; [reflexivity |].
  f_equal. apply IH. lia.
Qed.

Lemma combine_fst_snd {A B} (l : list (A * B)) :
  combine (map fst l) (map snd l) = l.
Proof.
  induction l as [| [a b] rest IH]; simpl; [reflexivity | now rewrite IH].
Qed.

(** The state of the scaler after a round, as weights with flags. *)
Lemma combine_roundOf (P B : R) (c : list bool) :
  length c = length ws ->
  combine ws (map snd (roundOf P B m (combine ws c)))
  = roundOf P B m (combine ws c).
Proof.
  intros Hlen.
  rewrite <- (weights_of_combine c Hlen) at 1.
  rewrite <- (roundOf_weights P B m (combine ws c)).
  apply combine_fst_snd.
Qed.

Variable c : list bool.
Hypothesis c_length : length c = length ws.

Let P := poolOf (combine ws c).
Let B := total - m * INR (clampedCount c).

Lemma share_exact (w : R) :
  P <> 0 ->
  share (map Fin ws) c (Fin total) (Fin m) (Fin w) = Fin (shareAt P B w).
Proof.
  intros HP. unfold share. rewrite poolWeight_exact, ofNat_xreal.
  fold P. cbn. rewrite Reqb_false by assumption.
  cbn. f_equal; try (unfold shareAt, B; lra).
Qed.

Lemma clampRound_exact :
  P <> 0 ->
  clampRound (map Fin ws) c (Fin total) (Fin m)
  = map snd (roundOf P B m (combine ws c)).
Proof.
  intros HP. unfold clampRound, roundOf. rewrite combine_Fin, !map_map.
  apply map_ext. intros [w b]. cbn [fst snd].
  rewrite share_exact by assumption. cbn. f_equal.
  unfold XReal.Rleb, XReal.Rltb.
  destruct (Rle_dec m (shareAt P B w)), (Rlt_dec (shareAt P B w) m);
    try reflexivity; lra.
Qed.

(** A round over a pool without weight clamps every item. *)
Lemma clampRound_empty_pool :
  (forall w, In w ws -> 0 <= w) -> P = 0 ->
  clampRound (map Fin ws) c (Fin total) (Fin m) = map (fun _ => true) ws.
Proof.
  intros Hws HP. unfold clampRound. rewrite combine_Fin, !map_map.
  rewrite <- (weights_of_combine c c_length) at 2. rewrite map_map.
  apply map_ext_in. intros [w b] Hwb. cbn [fst snd].
  assert (Hw : 0 <= w).
  { apply Hws. apply (in_map fst) in Hwb.
    now rewrite (weights_of_combine c c_length) in Hwb. }
  destruct (@poolOf_zero (combine ws c)) with (wc := (w, b)) as [Hb | Hzero];
    try assumption.
  - intros wc Hwc. apply Hws. apply (in_map fst) in Hwc.
    now rewrite (weights_of_combine c c_length) in Hwc.
  - simpl in Hb. now rewrite Hb.
  - simpl in Hzero. subst w. unfold share. rewrite poolWeight_exact.
    fold P. rewrite HP. cbn. unfold XReal.Reqb.
    destruct (Req_dec_T 0 0) as [_ | Hne]; [| contradiction].
    unfold XReal.signedInf, XReal.Rltb.
    destruct (Rlt_dec 0 0) as [Hlt | _]; [lra |]. cbn.
    apply orb_true_r.
Qed.

Lemma scaledOutput_exact :
  P <> 0 ->
  scaledOutput (map Fin ws) c (Fin total) (Fin m)
  = map Fin (outputsOf P B m (combine ws c)).
Proof.
  intros HP. unfold scaledOutput, outputsOf. rewrite combine_Fin, !map_map.
  apply map_ext. intros [w b]. cbn [fst snd].
  rewrite share_exact by assumption. destruct b; reflexivity.
Qed.

Lemma all_clamped_flags :
  clampedCount c = length ws -> c = map (fun _ => true) ws.
Proof.
  intros Hall. rewrite clampedCount_exact in Hall by assumption.
  rewrite <- (flags_of_combine c c_length).
  rewrite flags_all_clamped by (rewrite Hall, length_combine; lia).
  rewrite <- (weights_of_combine c c_length) at 2. rewrite map_map.
  reflexivity.
Qed.

End ScalerExact.

Section ScalerContract.

Local Open Scope R_scope.

Variable ws : list R.
Variables total m : R.
Hypothesis weights_nonneg : forall w, In w ws -> 0 <= w.

Lemma sumR_const (x : R) {A} (l : list A) :
  sumR (map (fun _ => x) l) = INR (length l) * x.
Proof.
  induction l as [| a rest IH]; [simpl; lra |].
  change (length (a :: rest)) with (S (length rest)). rewrite S_INR.
  simpl. rewrite IH. lra.
Qed.

Lemma map_all_clamped {A U} (f : A * bool -> U) (u : U) (l : list A) :
  (forall a, f (a, true) = u) ->
  map f (combine l (map (fun _ => true) l)) = map (fun _ => u) l.
Proof.
  intros Hf. induction l as [| a rest IH]; [reflexivity |].
  simpl. now rewrite Hf, IH.
Qed.

Lemma clampRound_all_clamped :
  clampRound (map Fin ws) (map (fun _ => true) ws) (Fin total) (Fin m)
  = map (fun _ => true) ws.
Proof.
  unfold clampRound. rewrite combine_Fin, !map_map.
  apply map_all_clamped. reflexivity.
Qed.

Lemma scaledOutput_all_clamped :
  scaledOutput (map Fin ws) (map (fun _ => true) ws) (Fin total) (Fin m)
  = map Fin (map (fun _ => m) ws).
Proof.
  unfold scaledOutput. rewrite combine_Fin, !map_map.
  apply map_all_clamped. reflexivity.
Qed.

(** With every item clamped the scaler stops and returns the floors. *)
Lemma scaleRounds_all_clamped (rounds : nat) (c : list bool) :
  length c = length ws -> clampedCount c = length ws ->
  scaleRounds rounds (map Fin ws) c (Fin total) (Fin m)
  = map Fin (map (fun _ => m) ws).
Proof.
  intros Hlen Hall. rewrite (all_clamped_flags ws c Hlen Hall).
  destruct rounds as [| rounds]; simpl.
  - apply scaledOutput_all_clamped.
  - rewrite clampRound_all_clamped, Nat.eqb_refl.
    apply scaledOutput_all_clamped.
Qed.

Hypothesis floors_fit : INR (length ws) * m <= total.

(** The rounds end with every output at the floor or above, and within
    the budget. *)
Lemma scaleRounds_contract (rounds : nat) (c : list bool) :
  length c = length ws ->
  (length ws <= clampedCount c + rounds)%nat ->
  exists outs,
    scaleRounds rounds (map Fin ws) c (Fin total) (Fin m) = map Fin outs
    /\ (forall o, In o outs -> m <= o)
    /\ sumR outs <= total.
Proof.
  assert (Hfloors : forall rounds c,
             length c = length ws -> clampedCount c = length ws ->
             exists outs,
               scaleRounds rounds (map Fin ws) c (Fin total) (Fin m)
               = map Fin outs
               /\ (forall o, In o outs -> m <= o)
               /\ sumR outs <= total).
  { intros r c0 Hlen Hall. exists (map (fun _ => m) ws).
    split; [now apply scaleRounds_all_clamped |]. split.
    - intros o Ho. apply in_map_iff in Ho. destruct Ho as (_ & <- & _). lra.
    - rewrite sumR_const. exact floors_fit. }
  revert c; induction rounds as [| rounds IH]; intros c Hlen Hfuel.
  { apply Hfloors; [assumption |].
    pose proof (clampedOf_le_length (combine ws c)) as Hle.
    rewrite <- (clampedCount_exact ws c Hlen), length_combine in Hle. lia. }
  destruct (Nat.eq_dec (clampedCount c) (length ws)) as [Hall | Hsome];
    [now apply Hfloors |].
  set (P := poolOf (combine ws c)) in *.
  set (B := total - m * INR (clampedCount c)).
  assert (Hws : forall wc, In wc (combine ws c) -> 0 <= fst wc).
  { intros wc Hwc. apply weights_nonneg.
    apply (in_map fst) in Hwc.
    now rewrite (weights_of_combine ws c Hlen) in Hwc. }
  destruct (Req_dec_T P 0) as [HP0 | HP].
  { (* a pool without weight: every item is clamped, and the floors are
       returned in the round after *)
    simpl scaleRounds.
    rewrite (clampRound_empty_pool ws total m c Hlen weights_nonneg HP0).
    assert (Hcount : clampedCount (map (fun _ : R => true) ws) = length ws).
    { unfold clampedCount. clear. induction ws as [| w rest IHws];
        [reflexivity | simpl; now rewrite IHws]. }
    rewrite Hcount.
    destruct (Nat.eqb_spec (length ws) (clampedCount c)) as [Heq | _];
      [congruence |].
    apply Hfloors; [apply length_map | exact Hcount]. }
  assert (Hlen' : length (map snd (roundOf P B m (combine ws c)))
                  = length ws).
  { rewrite length_map, roundOf_length, length_combine. lia. }
  assert (Hcount' : clampedCount (map snd (roundOf P B m (combine ws c)))
                    = clampedOf (roundOf P B m (combine ws c))).
  { rewrite (clampedCount_exact ws _ Hlen').
    now rewrite (combine_roundOf ws m P B c Hlen). }
  simpl scaleRounds.
  rewrite (clampRound_exact ws total m c HP). fold P B.
  rewrite Hcount', (clampedCount_exact ws c Hlen).
  destruct (Nat.eqb_spec (clampedOf (roundOf P B m (combine ws c)))
                         (clampedOf (combine ws c))) as [Hsame | Hmore].
  - apply roundOf_stable in Hsame.
    exists (outputsOf P B m (combine ws c)).
    split; [apply (scaledOutput_exact ws total m c HP) |]. split.
    + now apply outputsOf_floor.
    + rewrite sum_outputsOf. fold P.
      rewrite <- (clampedCount_exact ws c Hlen). unfold B.
      replace (P / P) with 1 by (field; assumption). lra.
  - pose proof (clampedOf_roundOf_ge P B m (combine ws c)) as Hge.
    apply IH; [exact Hlen' |].
    rewrite Hcount'. rewrite (clampedCount_exact ws c Hlen) in Hfuel. lia.
Qed.

End ScalerContract.

Section ScalerResult.

Local Open Scope R_scope.

(** The Proportional Scaler on finite weights that are not negative: the
    magnitudes are finite; when the floors fit in the budget, no magnitude is
    under the floor and their sum is within the budget; with a positive floor
    every magnitude is positive. *)
Lemma scaleProportional_contract (ws : list R) (total m : R) :
  (forall w, In w ws -> 0 <= w) ->
  exists outs,
    scaleProportional (map Fin ws) (Fin total) (Fin m) = map Fin outs
    /\ (INR (length ws) * m <= total ->
        (forall o, In o outs -> m <= o) /\ sumR outs <= total)
    /\ (0 < m -> forall o, In o outs -> 0 < o).
Proof.
  intros Hws. unfold scaleProportional.
  rewrite length_map, ofNat_xreal.
  cbn [lt mul xreal_JSNumber XReal.lt XReal.mul]. unfold XReal.Rltb.
  destruct (Rlt_dec total (m * INR (length ws))) as [Hover | Hfit].
  - exists (map (fun _ => m) ws). split; [now rewrite !map_map |]. split.
    + intros Hfits. lra.
    + intros Hm o Ho. apply in_map_iff in Ho.
      destruct Ho as (_ & <- & _). lra.
  - assert (Hfits : INR (length ws) * m <= total) by lra.
    destruct (@scaleRounds_contract ws total m Hws Hfits (length ws)
                (map (fun _ => false) ws)) as (outs & Houts & Hfloor & Htotal).
    + apply length_map.
    + lia.
    + exists outs. split; [rewrite map_map; exact Houts |]. split.
      * intros _. split; assumption.
      * intros Hm o Ho. specialize (Hfloor o Ho). lra.
Qed.

End ScalerResult.

(** The three rings of [exampleRings] under the default configuration: the
    scaler returns finite radii for their weights. *)
Lemma example_ring_weights :
  let weights :=
    mapi (fun c level => c * (INR 3 - INR level) ^ 2 * PI)%R [10; 5; 2]%R in
  (forall w, In w weights -> 0 <= w)%R.
Proof.
  pose proof PI_RGT_0 as Hpi. cbn -[PI].
  intros w Hw. repeat (destruct Hw as [<- | Hw]; [nra |]). contradiction.
Qed.

Lemma ring_radii_and_inner_radii_witness :
  let cfg := DEFAULT_RADAR_PIE_CONFIG_exact in
  let rings := @exampleRings xreal _ in
  let counts := [10; 5; 2]%R in
  exists radii,
    (outerRadius cfg = Fin 250 /\ innerRadius cfg = Fin 0
     /\ ringPadding cfg = Fin 0
     /\ map (@ring_itemCount xreal) rings = map Fin counts
     /\ scaleProportional
          (map Fin (mapi (fun c level =>
                            c * (INR (length rings) - INR level) ^ 2 * PI)
                         counts)%R)
          (Fin (250 - 0 - 0 * (INR (length rings) - 1)))
          (minRingRadius cfg)
        = map Fin radii)
    /\ (forall L, L < 3 ->
          exists ring radius,
            nth_error (layoutRings cfg rings) L = Some ring
            /\ nth_error radii L = Some radius
            /\ ring_radius ring = Some (Fin radius)
            /\ ring_innerRadius ring
               = Some (Fin (0 + sumR (map (fun r => r + 0)
                                          (firstn L radii)))%R)).
Proof.
  destruct (@scaleProportional_contract
              (mapi (fun c level => c * (INR 3 - INR level) ^ 2 * PI)
                    [10; 5; 2])%R
              (250 - 0 - 0 * (INR 3 - 1))%R 30%R example_ring_weights)
    as (radii & Hradii & _).
  exists radii. split.
  - repeat split; try reflexivity. exact Hradii.
  - exact (@ring_radii_and_inner_radii DEFAULT_RADAR_PIE_CONFIG_exact 250 0 0
             eq_refl eq_refl eq_refl exampleRings [10; 5; 2]%R radii
             eq_refl Hradii).
Defined.

(* ================================================================== *)
(** * The angles of the sub-slices *)
(* ================================================================== *)

Section PieFacts.

Local Open Scope R_scope.

Context {T : Type}.

Lemma positivePart_nonneg (v : R) : 0 <= positivePart v.
Proof.
  unfold positivePart. destruct (Rlt_dec 0 v); lra.
Qed.

Lemma positivePart_of_nonneg (v : R) : 0 <= v -> positivePart v = v.
Proof.
  unfold positivePart. destruct (Rlt_dec 0 v); lra.
Qed.

Lemma pie_sum_loop_Fin (vs : list R) (acc : R) :
  fold_left (fun sum v : xreal => if lt (ofZ 0) v then add sum v else sum)
            (map Fin vs) (Fin acc)
  = Fin (acc + sumR (map positivePart vs)).
Proof.
  revert acc; induction vs as [| v rest IH]; intros acc; simpl.
  - f_equal; lra.
  - unfold positivePart at 1, XReal.Rltb.
    destruct (Rlt_dec 0 v); rewrite IH; f_equal; lra.
Qed.

Lemma pie_sum_exact (vs : list R) :
  pie_sum (map Fin vs) = Fin (sumR (map positivePart vs)).
Proof.
  unfold pie_sum. change (ofZ 0) with (Fin 0) at 2.
  rewrite pie_sum_loop_Fin. f_equal; lra.
Qed.

Lemma pie_arcs_data (k p a0 : xreal) (i : nat) (dvs : list (T * xreal)) :
  map (@pie_data xreal T) (pie_arcs k p i a0 dvs) = map fst dvs
  /\ map (@pie_index xreal T) (pie_arcs k p i a0 dvs) = seq i (length dvs).
Proof.
  revert i a0; induction dvs as [| [d v] rest IH]; intros i a0; simpl;
    [split; reflexivity |].
  match goal with
  | |- context [pie_arcs k p (S i) ?a1 rest] =>
      destruct (IH (S i) a1) as [-> ->]
  end.
  split; reflexivity.
Qed.

Lemma pie_arcs_chained (k p a0 : R) (i : nat) (data : list T) (vs : list R) :
  0 <= k -> 0 <= p ->
  chained a0 (pie_arcs (Fin k) (Fin p) i (Fin a0) (combine data (map Fin vs)))
          (a0 + sumR (map (arcStep k p) (firstn (length data) vs))).
Proof.
  intros Hk Hp. revert i a0 vs; induction data as [| d rest IH];
    intros i a0 vs; simpl.
  - lra.
  - destruct vs as [| v vs]; simpl; [lra |].
    split; [reflexivity |].
    assert (Hstep : add (add (Fin a0)
                             (if XReal.Rltb 0 v then Fin (v * k) else Fin 0))
                        (Fin p)
                    = Fin (a0 + arcStep k p v)).
    { unfold arcStep, positivePart, XReal.Rltb.
      destruct (Rlt_dec 0 v); cbn; f_equal; lra. }
    exists (a0 + arcStep k p v). cbn in Hstep |- *. rewrite Hstep.
    split; [reflexivity |]. split.
    + unfold arcStep. pose proof (positivePart_nonneg v). nra.
    + replace (a0 + (arcStep k p v
                     + sumR (map (arcStep k p) (firstn (length rest) vs))))
        with (a0 + arcStep k p v
              + sumR (map (arcStep k p) (firstn (length rest) vs))) by lra.
      apply IH.
Qed.

Lemma pie_arcs_spans (k p a0 : R) (i : nat) (data : list T) (vs : list R) :
  length vs = length data ->
  map (@spanOf T) (pie_arcs (Fin k) (Fin p) i (Fin a0)
                            (combine data (map Fin vs)))
  = map (arcStep k p) vs
  /\ map (@padOf T) (pie_arcs (Fin k) (Fin p) i (Fin a0)
                              (combine data (map Fin vs)))
     = map (fun _ => p) vs.
Proof.
  revert i a0 vs; induction data as [| d rest IH]; intros i a0 [| v vs] Hlen;
    simpl in *; try discriminate; [split; reflexivity |].
  assert (Hstep : add (add (Fin a0)
                           (if XReal.Rltb 0 v then Fin (v * k) else Fin 0))
                      (Fin p)
                  = Fin (a0 + arcStep k p v)).
  { unfold arcStep, positivePart, XReal.Rltb.
    destruct (Rlt_dec 0 v); cbn; f_equal; lra. }
  cbn in Hstep |- *. rewrite Hstep.
  destruct (IH (S i) (a0 + arcStep k p v) vs) as [-> ->]; [lia |].
  unfold spanOf, padOf. simpl. split; f_equal; lra.
Qed.

Lemma sumR_arcStep (k p : R) (vs : list R) :
  sumR (map (arcStep k p) vs)
  = sumR (map positivePart vs) * k + INR (length vs) * p.
Proof.
  induction vs as [| v rest IH]; [simpl; lra |].
  change (length (v :: rest)) with (S (length rest)). rewrite S_INR.
  simpl. rewrite IH. unfold arcStep. lra.
Qed.

End PieFacts.

Section SubSliceAngles.

Local Open Scope R_scope.

Lemma div_nonneg (a b : R) : 0 <= a -> 0 < b -> 0 <= a / b.
Proof.
  intros Ha Hb. unfold Rdiv. apply Rmult_le_pos; [assumption |].
  left. now apply Rinv_0_lt_compat.
Qed.

Lemma pie_tau_exact : pie_tau = Fin (2 * PI).
Proof. reflexivity. Qed.

(** The pad of the arcs is the configured one, capped at an equal share of
    the circle. *)
Lemma pie_p_exact (n : nat) (padAngle : R) :
  (1 <= n)%nat -> 0 <= padAngle ->
  exists p, pie_p n (Fin padAngle) = Fin p
            /\ 0 <= p /\ INR n * p <= 2 * PI /\ (0 < padAngle -> 0 < p).
Proof.
  intros Hn Hpad. pose proof PI_RGT_0 as Hpi.
  assert (Hn' : 1 <= INR n) by (apply le_INR in Hn; simpl in Hn; lra).
  unfold pie_p. rewrite pie_tau_exact, ofNat_xreal.
  cbn. rewrite Reqb_false by lra. cbn.
  rewrite (Rabs_pos_eq (2 * PI)) by lra.
  unfold XReal.Rltb. destruct (Rlt_dec padAngle (2 * PI / INR n)) as [Hlt | Hge].
  - exists padAngle. split; [reflexivity |]. split; [assumption |].
    split; [| auto].
    apply Rmult_lt_compat_l with (r := INR n) in Hlt; [| lra].
    replace (INR n * (2 * PI / INR n)) with (2 * PI) in Hlt by (field; lra).
    lra.
  - exists (2 * PI / INR n). split; [reflexivity |]. split.
    + apply div_nonneg; lra.
    + split.
      * replace (INR n * (2 * PI / INR n)) with (2 * PI) by (field; lra). lra.
      * intros _. unfold Rdiv. apply Rmult_lt_0_compat; [lra |].
        apply Rinv_0_lt_compat. lra.
Qed.

Lemma pie_k_exact (n : nat) (p : R) (vs : list R) :
  sumR (map positivePart vs) <> 0 ->
  pie_k n (Fin p) (map Fin vs)
  = Fin ((2 * PI - INR n * p) / sumR (map positivePart vs)).
Proof.
  intros Hsum. unfold pie_k.
  rewrite pie_sum_exact, pie_tau_exact, ofNat_xreal.
  cbn. rewrite !Reqb_false by assumption. reflexivity.
Qed.

Lemma list_by_index (xs : list R) :
  map (fun i => nth i xs 0) (seq 0 (length xs)) = xs.
Proof.
  rewrite <- (@firstn_by_index (length xs) xs) by lia. apply firstn_all.
Qed.

(** The values d3 reads are the shares of the scaler. *)
Lemma pie_values_exact {T} (data : list T) (shares : list R) :
  length shares = length data ->
  mapi (fun (_ : T) idx => toNumber (nth_error (map Fin shares) idx)) data
  = map Fin shares.
Proof.
  intros Hlen. unfold mapi.
  rewrite (@mapi_from_Fin T _ (fun i => nth i shares 0) data 0).
  - rewrite <- Hlen, list_by_index. reflexivity.
  - intros i x Hx. simpl. apply nth_error_in_range in Hx.
    rewrite nth_error_Fin by lia. reflexivity.
Qed.

(** Every share of at least [m] makes the sum at least [n] times [m]. *)
Lemma sumR_floor (m : R) (vs : list R) :
  (forall v, In v vs -> m <= v) -> INR (length vs) * m <= sumR vs.
Proof.
  induction vs as [| v rest IH]; intros Hvs; [simpl; lra |].
  change (length (v :: rest)) with (S (length rest)). rewrite S_INR. simpl.
  pose proof (Hvs v (or_introl eq_refl)).
  assert (INR (length rest) * m <= sumR rest)
    by (apply IH; intros; apply Hvs; now right).
  lra.
Qed.

Lemma sumR_positivePart (vs : list R) :
  (forall v, In v vs -> 0 <= v) -> sumR (map positivePart vs) = sumR vs.
Proof.
  induction vs as [| v rest IH]; intros Hvs; [reflexivity |]. simpl.
  rewrite positivePart_of_nonneg by (apply Hvs; now left).
  rewrite IH by (intros; apply Hvs; now right). reflexivity.
Qed.

(** The span of an arc is not under the floor of the shares, in radians,
    when the shares are not and fit in the 360 degrees. *)
Lemma arcStep_floor (n : nat) (total m v p : R) :
  0 < total <= 360 -> 0 <= m <= v -> INR n * m <= total ->
  0 <= p -> INR n * p <= 2 * PI ->
  m * PI / 180 <= arcStep ((2 * PI - INR n * p) / total) p v.
Proof.
  intros Htotal Hm Hnm Hp Hnp. unfold arcStep.
  rewrite positivePart_of_nonneg by lra.
  set (q := (2 * PI - INR n * p) / total).
  assert (Hq : q * total = 2 * PI - INR n * p) by (unfold q; field; lra).
  assert (Hq0 : 0 <= q) by (unfold q; apply div_nonneg; lra).
  assert (H1 : m * total <= 360 * v) by nra.
  assert (H2 : m * (q * total) <= 360 * (v * q)) by nra.
  assert (H3 : m * (INR n * p) <= 360 * p) by nra.
  nra.
Qed.

Variable cfg : RadarPieConfig xreal.
Variable subSlices : list (CatInfoSubSlice xreal).
Variable shares : list R.
Variable padDegrees : R.
Hypothesis some_subSlice : subSlices <> [].
Hypothesis finite_shares : scaledSubSlices cfg subSlices = map Fin shares.
Hypothesis positive_share : 0 < sumR (map positivePart shares).
Hypothesis cfg_pad : subSlicePadAngle cfg = Fin padDegrees.
Hypothesis pad_nonneg : 0 <= padDegrees.

Lemma shares_length : length shares = length subSlices.
Proof.
  pose proof (scaleProportional_length
                (map (@css_itemCount xreal) subSlices) (ofZ 360)
                (minSubSliceAngle cfg)) as Hl.
  fold (scaledSubSlices cfg subSlices) in Hl. rewrite finite_shares in Hl.
  now rewrite !length_map in Hl.
Qed.

(** The arcs d3 returns for the sub-slices: steps of [share * k + p] from
    the angle 0 on, where the pads [p] and the parts [share * k] make up the
    circle. *)
Lemma subSliceArcs_shape :
  exists p,
    0 <= p
    /\ INR (length subSlices) * p <= 2 * PI
    /\ (0 < padDegrees -> 0 < p)
    /\ subSliceArcs cfg subSlices
       = pie_arcs
           (Fin ((2 * PI - INR (length subSlices) * p)
                 / sumR (map positivePart shares)))
           (Fin p) 0 (Fin 0) (combine subSlices (map Fin shares)).
Proof.
  pose proof PI_RGT_0 as Hpi.
  assert (Hn : (1 <= length subSlices)%nat).
  { destruct subSlices; [contradiction | simpl; lia]. }
  destruct (@pie_p_exact (length subSlices) (padDegrees * PI / 180) Hn)
    as (p & Hp & Hp0 & Hnp & Hpos).
  { apply div_nonneg; [| lra]. apply Rmult_le_pos; lra. }
  exists p. split; [assumption |]. split; [assumption |]. split.
  { intros Hpad. apply Hpos. apply Rmult_lt_0_compat; [| lra].
    apply Rmult_lt_0_compat; lra. }
  unfold subSliceArcs, d3_pie.
  rewrite finite_shares, cfg_pad, degToRad_exact, Hp.
  rewrite (@pie_values_exact _ subSlices shares shares_length).
  rewrite pie_k_exact by lra. reflexivity.
Qed.

Lemma arcs_close_the_circle (p : R) :
  sumR (map (arcStep ((2 * PI - INR (length subSlices) * p)
                      / sumR (map positivePart shares)) p) shares)
  = 2 * PI.
Proof.
  rewrite sumR_arcStep, shares_length. field. lra.
Qed.

End SubSliceAngles.

Lemma map_fst_combine_same {A B} (xs : list A) (ys : list B) :
  length ys = length xs -> map fst (combine xs ys) = xs.
Proof.
  revert ys; induction xs as [| x rest IH]; intros [| y ys] Hlen;
    simpl in *; try discriminate; [reflexivity |].
  f_equal. apply IH. lia.
Qed.

(** The arcs of the sub-slices when the shares of the scaler are finite and
    one at least is positive. *)
Lemma arcs_from_finite_shares
        (cfg : RadarPieConfig xreal)
        (subSlices : list (CatInfoSubSlice xreal))
        (shares : list R) (padDegrees : R) :
  subSlices <> [] ->
  scaledSubSlices cfg subSlices = map Fin shares ->
  (0 < sumR (map positivePart shares))%R ->
  subSlicePadAngle cfg = Fin padDegrees ->
  (0 <= padDegrees)%R ->
  let arcs := subSliceArcs cfg subSlices in
  map (@pie_data xreal _) arcs = subSlices
  /\ map (@pie_index xreal _) arcs = seq 0 (length subSlices)
  /\ chained 0 arcs (2 * PI)
  /\ sumR (map (@spanOf _) arcs) = (2 * PI)%R
  /\ forall minDegrees,
       minSubSliceAngle cfg = Fin minDegrees ->
       (0 <= minDegrees)%R ->
       (forall share, In share shares -> (minDegrees <= share)%R) ->
       (sumR shares <= 360)%R ->
       forall arc, In arc arcs -> (minDegrees * PI / 180 <= spanOf arc)%R.
Proof.
  intros Hsome Hshares Hpositive Hpad Hpad0 arcs.
  pose proof (@shares_length cfg subSlices shares Hshares) as Hlen.
  destruct (@subSliceArcs_shape cfg subSlices shares padDegrees
              Hsome Hshares Hpositive Hpad Hpad0)
    as (p & Hp0 & Hnp & _ & Hshape).
  unfold arcs. rewrite Hshape. clear arcs Hshape.
  set (k := ((2 * PI - INR (length subSlices) * p)
             / sumR (map positivePart shares))%R).
  assert (Hk : (0 <= k)%R) by (unfold k; apply div_nonneg; lra).
  pose proof (pie_arcs_data (Fin k) (Fin p) (Fin 0) 0
                (combine subSlices (map Fin shares))) as [Hdata Hindex].
  pose proof (@pie_arcs_spans _ k p 0%R 0 subSlices shares Hlen)
    as [Hspans _].
  split.
  { rewrite Hdata. apply map_fst_combine_same. now rewrite length_map. }
  split.
  { rewrite Hindex, length_combine, length_map, Hlen, Nat.min_id.
    reflexivity. }
  split.
  { pose proof (@pie_arcs_chained _ k p 0%R 0 subSlices shares Hk Hp0)
      as Hchain.
    rewrite <- Hlen, firstn_all in Hchain. unfold k in Hchain at 2.
    rewrite (@arcs_close_the_circle cfg subSlices shares Hshares Hpositive)
      in Hchain.
    now rewrite Rplus_0_l in Hchain. }
  split.
  { rewrite Hspans. unfold k.
    apply (@arcs_close_the_circle cfg subSlices shares Hshares Hpositive). }
  intros m _ Hm Hfloor Htotal arc Harc.
  apply (in_map (@spanOf _)) in Harc. rewrite Hspans in Harc.
  apply in_map_iff in Harc. destruct Harc as (v & <- & Hv).
  assert (Hsum : sumR (map positivePart shares) = sumR shares).
  { apply sumR_positivePart. intros w Hw. specialize (Hfloor w Hw). lra. }
  unfold k. rewrite Hsum in *.
  apply arcStep_floor; try assumption; try lra.
  - split; [lra | now apply Hfloor].
  - rewrite <- Hlen. now apply sumR_floor.
Qed.

Lemma positive_shares_sum (outs : list R) :
  outs <> [] -> (forall o, In o outs -> 0 < o)%R ->
  (0 < sumR (map positivePart outs))%R.
Proof.
  intros Hsome Hpos.
  assert (Hnonneg : forall l, (forall o, In o l -> 0 < o)%R ->
                              (0 <= sumR (map positivePart l))%R).
  { induction l as [| o rest IH]; intros Hl; simpl; [lra |].
    pose proof (positivePart_nonneg o).
    assert (0 <= sumR (map positivePart rest))%R
      by (apply IH; intros; apply Hl; now right).
    lra. }
  destruct outs as [| o rest]; [contradiction |]. simpl.
  pose proof (Hpos o (or_introl eq_refl)) as Ho.
  rewrite positivePart_of_nonneg by lra.
  assert (0 <= sumR (map positivePart rest))%R
    by (apply Hnonneg; intros; apply Hpos; now right).
  lra.
Qed.

(** The shares of the sub-slices for finite item counts that are not
    negative: finite; with a positive floor their sum is positive; and when
    the floors fit in the 360 degrees, at the floor or above and within the
    360 degrees. *)
Lemma scaledSubSlices_contract
      (cfg : RadarPieConfig xreal) (subSlices : list (CatInfoSubSlice xreal))
      (counts : list R) (minDegrees : R) :
  map (@css_itemCount xreal) subSlices = map Fin counts ->
  (forall c, In c counts -> 0 <= c)%R ->
  minSubSliceAngle cfg = Fin minDegrees ->
  exists shares,
    scaledSubSlices cfg subSlices = map Fin shares
    /\ (subSlices <> [] -> (0 < minDegrees)%R ->
        (0 < sumR (map positivePart shares))%R)
    /\ ((INR (length subSlices) * minDegrees <= 360)%R ->
        (forall share, In share shares -> (minDegrees <= share)%R)
        /\ (sumR shares <= 360)%R).
Proof.
  intros Hcounts Hnonneg Hmin.
  destruct (@scaleProportional_contract counts 360%R minDegrees Hnonneg)
    as (shares & Hshares & Hfloor & Hpos).
  assert (Hscaled : scaledSubSlices cfg subSlices = map Fin shares).
  { unfold scaledSubSlices. rewrite Hcounts, Hmin. exact Hshares. }
  exists shares. split; [exact Hscaled |]. split.
  - intros Hsome Hmin0. apply positive_shares_sum; [| exact (Hpos Hmin0)].
    intros ->. pose proof (@shares_length cfg subSlices [] Hscaled) as Hlen.
    destruct subSlices; [contradiction | discriminate].
  - intros Hfit. apply Hfloor.
    apply (f_equal (@length _)) in Hcounts. rewrite !length_map in Hcounts.
    now rewrite <- Hcounts.
Qed.



Section PieShape.

Context {num : Type} `{JSNumber num} {T : Type}.





End PieShape.


(** The counts of the three sub-slices of [exampleContent]. *)
Lemma example_counts : (forall c, In c [3; 1; 2] -> 0 <= c)%R.
Proof.
  intros c Hc. simpl in Hc. repeat (destruct Hc as [<- | Hc]; [lra |]).
  contradiction.
Qed.



(* ================================================================== *)
(** * The layout in floating point *)
(* ================================================================== *)

(** Three rings of 10, 5 and 2 items under the default configuration: the
    outermost ring is floored at [minRingRadius], the two others share the
    rest by weight, up to rounding. *)
Example ring_layout_float :
  map (fun ring => (ring_radius ring, ring_innerRadius ring, ring_opacity ring))
      (layoutRings DEFAULT_RADAR_PIE_CONFIG exampleRings)
  = [(Some 180, Some 0, Some 1);
     (Some 39.999999999999993, Some 180, Some 0.60000000000000009);
     (Some 30, Some 220, Some 0.2)]%float.
Proof. vm_compute. reflexivity. Qed.

(** Four rings under the default configuration: the opacities fall from
    level to level, down to [ringMinOpacity]. *)
Example four_rings_opacity_float :
  map (@ring_opacity float) (layoutRings DEFAULT_RADAR_PIE_CONFIG fourRings)
  = [Some 1.0000000000000002; Some 0.73333333333333339;
     Some 0.46666666666666667; Some 0.2]%float.
Proof. vm_compute. reflexivity. Qed.

(** The arcs of sub-slices of 3, 1 and 2 items: the last one ends at
    [2 * Math.PI], the first one spans a pad more than its part. *)
Example sub_slice_arcs_float :
  map (fun arc => (pie_startAngle arc, pie_endAngle arc))
      (subSliceArcs DEFAULT_RADAR_PIE_CONFIG
                    (rc_subSlices (@exampleContent float _)))
  = [(0, 3.1398473243377985);
     (3.1398473243377985, 4.1887902047863905);
     (4.1887902047863905, 6.2831853071795862)]%float.
Proof. vm_compute. reflexivity. Qed.

(* ================================================================== *)
(** * [RadarSegment]: segments of several items *)
(* ================================================================== *)

Section SeveralItems.

Context {num : Type} `{JSNumber num}.

Lemma update_app_head {T} (done : list T) (x y : T) (rest : list T) :
  update (done ++ x :: rest) (length done) y = done ++ y :: rest.
Proof.
  induction done as [| d done IH]; simpl; [reflexivity | now rewrite IH].
Qed.

Lemma nth_error_app_head {T} (done : list T) (rest : list T) :
  nth_error (done ++ rest) (length done) = nth_error rest 0.
Proof.
  induction done as [| d done IH]; simpl; [reflexivity | exact IH].
Qed.

(** The loop over the points, from the index the items [done] leave. *)
Lemma setPositions_from (points : list (num * num)) :
  forall done items : list (RadarItem num),
    foldM (fun its ip => setPosition its (fst ip) (snd ip))
          (combine (seq (length done) (length points)) points)
          (done ++ items)
    = if Nat.leb (length points) (length items)
      then Normal (done ++ placedAlong points items)
      else Throw (TypeError "segment.items[idx].x").
Proof.
  induction points as [| p points IH]; intros done items.
  - reflexivity.
  - cbn [length seq combine foldM]. unfold setPosition at 1. cbn [fst snd].
    rewrite nth_error_app_head.
    destruct items as [| item items]; [reflexivity |].
    cbn [nth_error bind]. rewrite update_app_head.
    change {| item_groupId := item_groupId item;
              item_x := Some (fst p); item_y := Some (snd p) |}
      with (placedAt p item).
    change (done ++ placedAt p item :: items)
      with (done ++ [placedAt p item] ++ items).
    rewrite app_assoc.
    replace (S (length done)) with (length (done ++ [placedAt p item]))
      by (rewrite length_app; simpl; lia).
    rewrite (IH (done ++ [placedAt p item]) items).
    cbn [length placedAlong Nat.leb].
    destruct (Nat.leb (length points) (length items)); [| reflexivity].
    now rewrite <- app_assoc.
Qed.

Lemma setPositions_placedAlong (items : list (RadarItem num))
      (points : list (num * num)) :
  setPositions items points
  = if Nat.leb (length points) (length items)
    then Normal (placedAlong points items)
    else Throw (TypeError "segment.items[idx].x").
Proof.
  exact (setPositions_from points [] items).
Qed.

Lemma placedAlong_groupIds (points : list (num * num)) :
  forall items : list (RadarItem num),
    map (@item_groupId num) (placedAlong points items)
    = map (@item_groupId num) items.
Proof.
  induction points as [| p points IH]; intros [| item items]; simpl;
    try reflexivity.
  now rewrite IH.
Qed.

End SeveralItems.

Section SegmentConstructor.

Context {num : Type} `{JSNumber num}.
Variable arcGenerator : DefaultArcObject num -> string.
Variable arcGenerator_centroid : DefaultArcObject num -> Point (num := num).
Variable flattenSVGPath : string -> list (Point (num := num)).
Variable distributePointsWithinBoundary :
  list (Point (num := num)) -> nat -> list (Point (num := num)).


(** X1: the constructor of a segment with two items or more asks
    [distributePointsWithinBoundary] for as many points as there are items,
    within the padded arc of the segment, and writes the point at [idx] into
    the item at [idx].  When fewer points come back, the items beyond them
    keep the position they had; the segment is otherwise as it was. *)
Theorem segment_with_several_items
        (seg : Segment num) (rings : list (RingInfo num))
        (ring : RingInfo num) (arcParams : DefaultArcObject num) :
  nth_error rings (seg_ringLevel seg) = Some ring ->
  seg_arcParams seg = Some arcParams ->
  2 <= length (seg_items seg) ->
  let count := length (seg_items seg) in
  let boundary := itemBoundary arcGenerator flattenSVGPath arcParams in
  let points := distributePointsWithinBoundary boundary count in
  length points <= count ->
  exists radarSegment calls,
    RadarSegment_constructor arcGenerator arcGenerator_centroid flattenSVGPath
      distributePointsWithinBoundary seg rings
    = Normal (radarSegment, calls)
    /\ seg_items (segment radarSegment) = placedAlong points (seg_items seg)
    /\ map (@item_groupId num) (seg_items (segment radarSegment))
       = map (@item_groupId num) (seg_items seg)
    /\ last calls (CallCentroid arcParams)
       = CallDistributePoints boundary count
    /\ itemBoundaryPolygonPoints radarSegment = boundary
    /\ opacity radarSegment = ring_opacity ring.
Proof.
  intros Hring Harc Hcount count boundary points Hpoints.
  subst points boundary count.
  unfold Point in *.
  unfold RadarSegment_constructor. rewrite Hring, Harc.
  unfold itemBoundary in *. unfold getItemBoundaryArc in *. cbn [fst] in *.
  destruct (Nat.eqb_spec (length (seg_items seg)) 1) as [H1 | _]; [lia |].
  destruct (Nat.ltb_spec 0 (length (seg_items seg))) as [_ | H0]; [| lia].
  rewrite setPositions_placedAlong.
  rewrite (proj2 (Nat.leb_le _ _) Hpoints).
  cbn. eexists. eexists. split; [reflexivity |]. cbn.
  repeat split. apply placedAlong_groupIds.
Qed.

(** X2: the constructor of a segment throws in three cases and no other:
    the ring level of the segment is not the index of a ring; the segment has
    no arc; or the segment has two items or more and
    [distributePointsWithinBoundary] returns more points than there are
    items, the point after the last item being written into no item. *)
Theorem segment_constructor_throws
        (seg : Segment num) (rings : list (RingInfo num)) :
  (exists e,
      RadarSegment_constructor arcGenerator arcGenerator_centroid
        flattenSVGPath distributePointsWithinBoundary seg rings
      = Throw e)
  <-> (length rings <= seg_ringLevel seg
       \/ seg_arcParams seg = None
       \/ exists arcParams,
            seg_arcParams seg = Some arcParams
            /\ 2 <= length (seg_items seg)
            /\ length (seg_items seg)
               < length (distributePointsWithinBoundary
                           (itemBoundary arcGenerator flattenSVGPath
                                         arcParams)
                           (length (seg_items seg)))).
Proof.
  unfold RadarSegment_constructor.
  destruct (nth_error rings (seg_ringLevel seg)) as [ring |] eqn:Hring.
  2:{ apply nth_error_None in Hring. split; [auto | eauto]. }
  assert (Hlevel : seg_ringLevel seg < length rings)
    by (eapply nth_error_in_range; eauto).
  destruct (seg_arcParams seg) as [arcParams |] eqn:Harc.
  2:{ split; [auto | eauto]. }
  unfold itemBoundary, getItemBoundaryArc. cbn [fst]. unfold Point in *.
  set (boundary := flattenSVGPath
                     (arcGenerator
                        (paddedArcParams arcParams PADDING_ANGLE
                           PAD_INNER_RADIUS PAD_OUTER_RADIUS))).
  destruct (Nat.eqb_spec (length (seg_items seg)) 1) as [H1 | H1].
  { destruct (seg_items seg) as [| item [| item' rest]] eqn:Hitems;
      try discriminate.
    cbn. split.
    - intros [e He]. discriminate.
    - intros [Hr | [Hn | (a & _ & H2 & _)]];
        [lia | discriminate | simpl in H2; lia]. }
  destruct (Nat.ltb_spec 0 (length (seg_items seg))) as [H0 | H0].
  - rewrite setPositions_placedAlong.
    destruct (Nat.leb_spec
                (length (distributePointsWithinBoundary
                           boundary (length (seg_items seg))))
                (length (seg_items seg)))
      as [Hfew | Hmore]; cbn.
    + split.
      * intros [e He]. discriminate.
      * intros [Hr | [Hn | (a & Ha & _ & Hlt)]]; [lia | discriminate |].
        injection Ha as <-. unfold boundary in *. lia.
    + split; [| eauto]. intros _. right. right.
      exists arcParams. repeat split; [lia | exact Hmore].
  - cbn. split.
    + intros [e He]. discriminate.
    + intros [Hr | [Hn | (a & _ & H2 & _)]]; [lia | discriminate | lia].
Qed.

End SegmentConstructor.

Lemma segment_with_several_items_witness :
  let seg : Segment float :=
    {| seg_ringId := "adopt"; seg_ringLevel := 0;
       seg_items := [newItem "new"; newItem "moved"; newItem "new"];
       seg_arcParams :=
         Some {| arc_innerRadius := 0; arc_outerRadius := 180;
                 arc_startAngle := 0; arc_endAngle := 2;
                 arc_padAngle := 0 |}%float |} in
  let rings := layoutRings DEFAULT_RADAR_PIE_CONFIG exampleRings in
  let distribute := fun (_ : list (float * float)) (count : nat) =>
                      firstn count [(10, -20); (30, -40)]%float in
  (exists ring arcParams,
      nth_error rings (seg_ringLevel seg) = Some ring
      /\ seg_arcParams seg = Some arcParams
      /\ 2 <= length (seg_items seg)
      /\ length (distribute [] (length (seg_items seg)))
         <= length (seg_items seg))
  /\ exists radarSegment calls,
       RadarSegment_constructor (fun _ => EmptyString) d3_arc_centroid
         (fun _ => []) distribute seg rings
       = Normal (radarSegment, calls)
       /\ seg_items (segment radarSegment)
          = [{| item_groupId := "new";
                item_x := Some 10%float; item_y := Some (-20)%float |};
             {| item_groupId := "moved";
                item_x := Some 30%float; item_y := Some (-40)%float |};
             newItem "new"].
Proof.
  intros seg rings distribute.
  destruct (nth_error rings (seg_ringLevel seg)) as [ring |] eqn:Hring;
    [| vm_compute in Hring; discriminate].
  assert (Hcount : 2 <= length (seg_items seg)) by (simpl; lia).
  assert (Hpoints : length (distribute [] (length (seg_items seg)))
                    <= length (seg_items seg)) by (simpl; lia).
  split.
  - exists ring. eexists. split; [reflexivity |]. split; [reflexivity |].
    split; [exact Hcount | exact Hpoints].
  - destruct (@segment_with_several_items float _ (fun _ => EmptyString)
                d3_arc_centroid (fun _ => []) distribute
                seg rings ring _ Hring eq_refl Hcount Hpoints)
      as (radarSegment & calls & Hnew & Hitems & _).
    exists radarSegment, calls. split; [exact Hnew |].
    rewrite Hitems. reflexivity.
Defined.

(* ================================================================== *)
(** * [RadarSegment]: where the only item of a segment is put *)
(* ================================================================== *)

Section SingleItem.

Local Open Scope R_scope.

Variable arcGenerator : DefaultArcObject xreal -> string.
Variable flattenSVGPath : string -> list (Point (num := xreal)).
Variable distributePointsWithinBoundary :
  list (Point (num := xreal)) -> nat -> list (Point (num := xreal)).

Lemma d3_arc_centroid_exact (ri ro s e : R) (pad : xreal) :
  d3_arc_centroid {| arc_innerRadius := Fin ri; arc_outerRadius := Fin ro;
                     arc_startAngle := Fin s; arc_endAngle := Fin e;
                     arc_padAngle := pad |}
  = (Fin ((ri + ro) / 2 * sin ((s + e) / 2)),
     Fin (- ((ri + ro) / 2 * cos ((s + e) / 2)))).
Proof.
  unfold d3_arc_centroid. cbn. rewrite !Reqb_false by lra. cbn.
  rewrite cos_quarter_back, sin_quarter_back. f_equal; f_equal; ring.
Qed.

(** X3: with the centroid of d3's arc generator, the only item of a segment
    is put on the bisector of the angle of the segment, half way between the
    inner and the outer radius of its ring: between the two when the inner
    radius is not negative and not above the outer one. *)
Theorem single_item_sits_mid_segment
        (seg : Segment xreal) (rings : list (RingInfo xreal))
        (ring : RingInfo xreal) (item : RadarItem xreal)
        (ri ro s e : R) (pad : xreal) :
  nth_error rings (seg_ringLevel seg) = Some ring ->
  seg_items seg = [item] ->
  seg_arcParams seg
  = Some {| arc_innerRadius := Fin ri; arc_outerRadius := Fin ro;
            arc_startAngle := Fin s; arc_endAngle := Fin e;
            arc_padAngle := pad |} ->
  exists radarSegment calls x y,
    RadarSegment_constructor arcGenerator d3_arc_centroid flattenSVGPath
      distributePointsWithinBoundary seg rings
    = Normal (radarSegment, calls)
    /\ seg_items (segment radarSegment)
       = [{| item_groupId := item_groupId item;
             item_x := Some (Fin x); item_y := Some (Fin y) |}]
    /\ onRadial ((s + e) / 2) ((ri + ro) / 2) (Fin x) (Fin y)
    /\ R_sqrt.sqrt (x * x + y * y) = Rabs ((ri + ro) / 2)
    /\ (0 <= ri <= ro -> ri <= R_sqrt.sqrt (x * x + y * y) <= ro).
Proof.
  intros Hring Hitems Harc.
  unfold RadarSegment_constructor. rewrite Hring, Harc, Hitems.
  unfold getItemBoundaryArc. cbn [length Nat.eqb bind setPosition nth_error].
  rewrite d3_arc_centroid_exact. cbn.
  eexists. eexists.
  exists ((ri + ro) / 2 * sin ((s + e) / 2)),
         (- ((ri + ro) / 2 * cos ((s + e) / 2))).
  split; [reflexivity |]. cbn. split; [reflexivity |].
  assert (Hon : onRadial ((s + e) / 2) ((ri + ro) / 2)
                  (Fin ((ri + ro) / 2 * sin ((s + e) / 2)))
                  (Fin (- ((ri + ro) / 2 * cos ((s + e) / 2)))))
    by (split; reflexivity).
  split; [exact Hon |].
  pose proof (onRadial_distance Hon) as Hdist.
  split; [exact Hdist |].
  intros Hr. rewrite Hdist, Rabs_right by lra. lra.
Qed.

End SingleItem.

Lemma single_item_sits_mid_segment_witness :
  let seg : Segment xreal :=
    {| seg_ringId := "trial"; seg_ringLevel := 1;
       seg_items := [newItem "new"];
       seg_arcParams :=
         Some {| arc_innerRadius := Fin 180; arc_outerRadius := Fin 220;
                 arc_startAngle := Fin 0; arc_endAngle := Fin 2;
                 arc_padAngle := Fin 0 |} |} in
  exists radarSegment calls x y,
    RadarSegment_constructor (fun _ => EmptyString) d3_arc_centroid
      (fun _ => []) (fun _ _ => []) seg exampleRings
    = Normal (radarSegment, calls)
    /\ seg_items (segment radarSegment)
       = [{| item_groupId := "new";
             item_x := Some (Fin x); item_y := Some (Fin y) |}]
    /\ onRadial ((0 + 2) / 2) ((180 + 220) / 2) (Fin x) (Fin y)
    /\ R_sqrt.sqrt (x * x + y * y) = Rabs ((180 + 220) / 2).
Proof.
  intros seg.
  assert (Hring : nth_error (@exampleRings xreal _) (seg_ringLevel seg)
                  = Some (newRing "trial" (Fin 5))) by reflexivity.
  destruct (@single_item_sits_mid_segment (fun _ => EmptyString)
              (fun _ => []) (fun _ _ => []) seg exampleRings
              (newRing "trial" (Fin 5)) (newItem "new")
              180 220 0 2 (Fin 0) Hring eq_refl eq_refl)
    as (radarSegment & calls & x & y & Hnew & Hitems & Hon & Hdist & _).
  exists radarSegment, calls, x, y. auto.
Defined.

(* ================================================================== *)
(** * [calculateAnchorPlacement]: errors *)
(* ================================================================== *)

Section AnchorErrors.

Local Open Scope R_scope.

Lemma anchorRads_finite (s : R) (e : option R) :
  exists r, anchorRads (Fin s) (option_map Fin e) = Fin r.
Proof.
  destruct e as [e |]; cbn; [| eexists; reflexivity].
  destruct (XReal.Reqb e 0); cbn; [eexists; reflexivity |].
  rewrite Reqb_false by lra. eexists; reflexivity.
Qed.

(** X4: the classifier never throws its error for the vertical anchor; it
    throws the one for the horizontal anchor exactly when the angle it
    classifies, the start angle or the middle of the start and the end angle,
    is [NaN].  On a finite start angle, with a finite end angle or none, it
    returns a placement. *)
Theorem anchor_placement_errors :
  (forall (startOrMidAngle : xreal) (endAngle : option xreal),
      match calculateAnchorPlacement startOrMidAngle endAngle with
      | Normal _ => anchorRads startOrMidAngle endAngle <> XNaN
      | Throw e => e = InvalidRadsHorizontal XNaN
                   /\ anchorRads startOrMidAngle endAngle = XNaN
      end)
  /\ (forall (startOrMidAngle : R) (endAngle : option R),
         exists placement,
           calculateAnchorPlacement (Fin startOrMidAngle)
                                    (option_map Fin endAngle)
           = Normal placement).
Proof.
  assert (Hone : forall s e,
             calculateAnchorPlacement s e
             = calculateAnchorPlacement (anchorRads s e) None)
    by reflexivity.
  split.
  - intros s e. rewrite Hone.
    destruct (anchorRads s e) as [r | | |].
    + destruct (anchor_placement_finite r) as (p & ->). discriminate.
    + rewrite anchor_placement_infinite by (left; reflexivity). discriminate.
    + rewrite anchor_placement_infinite by (right; reflexivity). discriminate.
    + rewrite anchor_placement_NaN. split; reflexivity.
  - intros s e. rewrite Hone.
    destruct (anchorRads_finite s e) as (r & ->).
    apply anchor_placement_finite.
Qed.

End AnchorErrors.

(* ================================================================== *)
(** * The constructor of [RadarPie]: the label of a sub-slice *)
(* ================================================================== *)

Section SubSliceLabel.

Local Open Scope R_scope.

(** X6: the label of a sub-slice with finite angles lies on the bisector of
    its arc, at the distance [outerRadius + subSliceLabelDistance] from the
    centre, and is anchored as the classifier says of the middle angle of
    the arc; of the start angle when the end angle is zero, which the
    classifier takes for a missing one. *)
Theorem sub_slice_label_point
        (cfg : RadarPieConfig xreal) (arcParams : DefaultArcObject xreal)
        (s e ro labelDistance : R) :
  arc_startAngle arcParams = Fin s ->
  arc_endAngle arcParams = Fin e ->
  arc_outerRadius arcParams = Fin ro ->
  subSliceLabelDistance cfg = Fin labelDistance ->
  exists ld x y,
    subSliceLabelData cfg arcParams = Normal ld
    /\ ld_x ld = Fin x /\ ld_y ld = Fin y
    /\ onRadial ((s + e) / 2) (ro + labelDistance) (Fin x) (Fin y)
    /\ R_sqrt.sqrt (x * x + y * y) = Rabs (ro + labelDistance)
    /\ ld_bBoxPadding ld = subSliceLabelPadding cfg
    /\ calculateAnchorPlacement
         (Fin (if Req_dec_T e 0 then s else (s + e) / 2)) None
       = Normal (ld_labelPlacement ld).
Proof.
  intros Hs He Hro Hdist. unfold subSliceLabelData.
  rewrite Hs, He, Hro, Hdist.
  assert (Hrads : anchorRads (Fin s) (Some (Fin e))
                  = Fin (if Req_dec_T e 0 then s else (s + e) / 2)).
  { cbn. unfold XReal.Reqb. destruct (Req_dec_T e 0) as [He0 | He0]; cbn.
    - reflexivity.
    - destruct (Req_dec_T 2 0) as [H2 | _]; [lra |]. cbn. f_equal. lra. }
  assert (Hone : calculateAnchorPlacement (Fin s) (Some (Fin e))
                 = calculateAnchorPlacement
                     (anchorRads (Fin s) (Some (Fin e))) None)
    by reflexivity.
  rewrite Hone, Hrads.
  destruct (anchor_placement_finite (if Req_dec_T e 0 then s else (s + e) / 2))
    as (placement & Hplacement).
  rewrite Hplacement. cbn. rewrite Reqb_false by lra.
  eexists. exists ((ro + labelDistance) * sin ((s + e) / 2)),
                  (- ((ro + labelDistance) * cos ((s + e) / 2))).
  split; [reflexivity |]. cbn.
  assert (Hmid : (e + - s) / 2 + s = (s + e) / 2) by lra.
  rewrite Hmid.
  assert (Hon : onRadial ((s + e) / 2) (ro + labelDistance)
                  (Fin ((ro + labelDistance) * sin ((s + e) / 2)))
                  (Fin (- ((ro + labelDistance) * cos ((s + e) / 2)))))
    by (split; reflexivity).
  split; [reflexivity |]. split; [f_equal; ring |].
  split; [exact Hon |]. split; [exact (onRadial_distance Hon) |].
  split; reflexivity.
Qed.

End SubSliceLabel.

Lemma sub_slice_label_point_witness :
  let cfg := DEFAULT_RADAR_PIE_CONFIG_exact in
  let arcParams := exampleArc 1 2 in
  exists ld x y,
    subSliceLabelData cfg arcParams = Normal ld
    /\ ld_x ld = Fin x /\ ld_y ld = Fin y
    /\ onRadial ((1 + 2) / 2) (250 + 10) (Fin x) (Fin y)
    /\ R_sqrt.sqrt (x * x + y * y) = Rabs (250 + 10).
Proof.
  intros cfg arcParams.
  destruct (@sub_slice_label_point cfg arcParams 1 2 250 10
              eq_refl eq_refl eq_refl eq_refl)
    as (ld & x & y & Hld & Hx & Hy & Hon & Hdist & _).
  exists ld, x, y. auto.
Defined.

(* ================================================================== *)
(** * The constructor of [RadarPie]: what it reads and what it writes *)
(* ================================================================== *)

Section MapFacts.

Lemma nth_error_mapi_from {T U} (f : T -> nat -> U) (xs : list T) :
  forall i0 i,
    nth_error (mapi_from f i0 xs) i
    = option_map (fun x => f x (i0 + i)) (nth_error xs i).
Proof.
  induction xs as [| x rest IH]; intros i0 [| i]; simpl; try reflexivity.
  - now rewrite Nat.add_0_r.
  - rewrite IH. now rewrite Nat.add_succ_r.
Qed.

Lemma mapi_from_map {T U V} (g : T -> U) (h : U -> nat -> V) (xs : list T) :
  forall i0,
    mapi_from (fun x i => h (g x) i) i0 xs = mapi_from h i0 (map g xs).
Proof.
  induction xs as [| x rest IH]; intros i0; simpl; [reflexivity |].
  now rewrite IH.
Qed.

Lemma map_eq_length {T U} (g : T -> U) (xs ys : list T) :
  map g xs = map g ys -> length xs = length ys.
Proof.
  intros Heq. rewrite <- (length_map g xs), Heq. apply length_map.
Qed.

Lemma map_eq_nth {T U} (g : T -> U) (xs ys : list T) (i : nat) (x y : T) :
  map g xs = map g ys ->
  nth_error xs i = Some x -> nth_error ys i = Some y -> g x = g y.
Proof.
  intros Heq Hx Hy.
  pose proof (f_equal (fun l => nth_error l i) Heq) as Hi. cbn in Hi.
  rewrite !nth_error_map, Hx, Hy in Hi. now injection Hi.
Qed.

Lemma nth_error_same_length {T U} (xs : list T) (ys : list U) (i : nat) :
  length xs = length ys ->
  (exists x y, nth_error xs i = Some x /\ nth_error ys i = Some y)
  \/ (nth_error xs i = None /\ nth_error ys i = None).
Proof.
  intros Hlen.
  destruct (nth_error xs i) as [x |] eqn:Hx;
    destruct (nth_error ys i) as [y |] eqn:Hy.
  - left. eauto.
  - exfalso. apply nth_error_None in Hy.
    assert (i < length xs) by (apply nth_error_Some; congruence). lia.
  - exfalso. apply nth_error_None in Hx.
    assert (i < length ys) by (apply nth_error_Some; congruence). lia.
  - right. auto.
Qed.

End MapFacts.

Section RingsAgain.

Context {num : Type} `{JSNumber num}.
Variable cfg : RadarPieConfig num.

Lemma ringWeights_bare (rings rings' : list (RingInfo num)) :
  map (@bareRing num) rings = map (@bareRing num) rings' ->
  ringWeights rings = ringWeights rings'.
Proof.
  intros Hbare.
  assert (Hcounts : map (@ring_itemCount num) rings
                    = map (@ring_itemCount num) rings').
  { apply (f_equal (map (@ring_itemCount num))) in Hbare.
    now rewrite !map_map in Hbare. }
  unfold ringWeights, mapi.
  rewrite (mapi_from_map (@ring_itemCount num)
             (fun c level =>
                mul (mul c (Math_pow2 (sub (ofNat (length rings))
                                           (ofNat level))))
                    Math_PI)).
  rewrite (mapi_from_map (@ring_itemCount num)
             (fun c level =>
                mul (mul c (Math_pow2 (sub (ofNat (length rings'))
                                           (ofNat level))))
                    Math_PI)).
  now rewrite Hcounts, (map_eq_length _ _ _ Hbare).
Qed.

Lemma scaledRadiuses_bare (rings rings' : list (RingInfo num)) :
  map (@bareRing num) rings = map (@bareRing num) rings' ->
  scaledRadiuses cfg rings = scaledRadiuses cfg rings'.
Proof.
  intros Hbare. unfold scaledRadiuses, availableRadius.
  now rewrite (ringWeights_bare rings rings' Hbare), (map_eq_length _ _ _ Hbare).
Qed.

(** The inner radius of a ring is summed from the radii the loop has
    written into the rings below it, whatever radii they had before. *)
Lemma ringInnerRadius_after (scaled : list num)
      (rings rings' : list (RingInfo num)) (L : nat) :
  length rings = length rings' ->
  ringInnerRadius cfg (ringsAfter cfg scaled rings L) L
  = ringInnerRadius cfg (ringsAfter cfg scaled rings' L) L.
Proof.
  intros Hlen. unfold ringInnerRadius, d3_sum. f_equal. f_equal.
  apply nth_error_ext. intros i. unfold mapi.
  rewrite !nth_error_mapi_from. cbn [Nat.add].
  destruct (nth_error_same_length rings rings' i Hlen)
    as [(ring & ring' & Hring & Hring') | (Hring & Hring')].
  - destruct (Nat.ltb_spec i L) as [HiL | HiL].
    + rewrite (ringsAfter_done cfg scaled rings HiL Hring).
      rewrite (ringsAfter_done cfg scaled rings' HiL Hring'). reflexivity.
    + rewrite !ringsAfter_untouched by assumption.
      now rewrite Hring, Hring'.
  - assert (H1 : nth_error (ringsAfter cfg scaled rings L) i = None).
    { apply nth_error_None. rewrite ringsAfter_length.
      now apply nth_error_None. }
    assert (H2 : nth_error (ringsAfter cfg scaled rings' L) i = None).
    { apply nth_error_None. rewrite ringsAfter_length.
      now apply nth_error_None. }
    now rewrite H1, H2.
Qed.

Lemma layoutRings_bare (rings rings' : list (RingInfo num)) :
  map (@bareRing num) rings = map (@bareRing num) rings' ->
  layoutRings cfg rings = layoutRings cfg rings'.
Proof.
  intros Hbare. pose proof (map_eq_length _ _ _ Hbare) as Hlen.
  apply nth_error_ext. intros i.
  destruct (nth_error_same_length rings rings' i Hlen)
    as [(ring & ring' & Hring & Hring') | (Hring & Hring')].
  - rewrite (layoutRings_nth cfg _ _ Hring), (layoutRings_nth cfg _ _ Hring').
    pose proof (map_eq_nth _ _ _ _ Hbare Hring Hring') as Hsame.
    unfold bareRing in Hsame. injection Hsame as Hid Hcount.
    unfold ringLaidOut.
    rewrite (scaledRadiuses_bare rings rings' Hbare), Hid, Hcount, Hlen.
    now rewrite (ringInnerRadius_after (scaledRadiuses cfg rings') rings rings' i Hlen).
  - assert (H1 : nth_error (layoutRings cfg rings) i = None)
      by (apply nth_error_None; rewrite layoutRings_length;
          now apply nth_error_None).
    assert (H2 : nth_error (layoutRings cfg rings') i = None)
      by (apply nth_error_None; rewrite layoutRings_length;
          now apply nth_error_None).
    now rewrite H1, H2.
Qed.

Lemma layoutRings_keeps_bare (rings : list (RingInfo num)) :
  map (@bareRing num) (layoutRings cfg rings) = map (@bareRing num) rings.
Proof.
  apply nth_error_ext. intros i. rewrite !nth_error_map.
  destruct (nth_error rings i) as [ring |] eqn:Hring.
  - rewrite (layoutRings_nth cfg _ _ Hring). reflexivity.
  - apply nth_error_None in Hring.
    rewrite <- (layoutRings_length cfg) in Hring.
    apply nth_error_None in Hring. now rewrite Hring.
Qed.

(** X7: the loop over the rings reads the ids and the item counts of the
    rings and nothing else of them: radii, inner radii and opacities the
    rings carry already leave the result as it is.  So the layout of rings
    laid out already is the same layout again. *)
Theorem ring_layout_is_idempotent (rings : list (RingInfo num)) :
  layoutRings cfg (layoutRings cfg rings) = layoutRings cfg rings
  /\ forall rings',
       map (@bareRing num) rings' = map (@bareRing num) rings ->
       layoutRings cfg rings' = layoutRings cfg rings.
Proof.
  split.
  - apply layoutRings_bare, layoutRings_keeps_bare.
  - intros rings'. apply layoutRings_bare.
Qed.

End RingsAgain.

(* ================================================================== *)
(** * The constructor of [RadarPie]: loops that throw, loops that return *)
(* ================================================================== *)

Section LoopsAgain.

Context {num : Type}.

(** A loop throws when the body throws on one of the elements, in whatever
    state the elements before have left. *)
Lemma foldM_throws_at {S T} (f : S -> T -> completion num S) (P : S -> Prop)
      (xs : list T) (x : T) :
  (forall s1 y s2, P s1 -> f s1 y = Normal s2 -> P s2) ->
  (forall s1, P s1 -> exists e, f s1 x = Throw e) ->
  In x xs ->
  forall s0, P s0 -> exists e, foldM f xs s0 = Throw e.
Proof.
  intros Hstep Hx. induction xs as [| y rest IH]; intros Hin s0 H0;
    [contradiction |].
  simpl. destruct Hin as [-> | Hin].
  - destruct (Hx s0 H0) as (e & ->). simpl. eauto.
  - destruct (f s0 y) as [s1 | e] eqn:Hy; simpl; [| eauto].
    apply (IH Hin s1). eapply Hstep; eauto.
Qed.

Lemma forEachM_throws_at {T} (f : T -> completion num T) (xs : list T)
      (x : T) :
  In x xs -> (exists e, f x = Throw e) -> exists e, forEachM f xs = Throw e.
Proof.
  intros Hin Hx. induction xs as [| y rest IH]; [contradiction |].
  simpl. destruct Hin as [-> | Hin].
  - destruct Hx as (e & ->). simpl. eauto.
  - destruct (f y) as [y' | e]; simpl; [| eauto].
    destruct (IH Hin) as (e & ->). simpl. eauto.
Qed.

(** A loop returns when the body returns on every element, in the states
    the elements before can leave: [P done s] is what is known of the state
    [s] after the elements [done]. *)
Lemma foldM_returns {S T} (f : S -> T -> completion num S)
      (P : list T -> S -> Prop) (xs : list T) :
  (forall done x s1,
      P done s1 -> (exists rest, xs = done ++ x :: rest) ->
      exists s2, f s1 x = Normal s2 /\ P (done ++ [x]) s2) ->
  forall s0, P [] s0 -> exists s, foldM f xs s0 = Normal s /\ P xs s.
Proof.
  intros Hstep.
  assert (Hgen : forall todo done s0,
             xs = done ++ todo -> P done s0 ->
             exists s, foldM f todo s0 = Normal s /\ P xs s).
  { induction todo as [| x rest IH]; intros done s0 Hxs H0.
    - rewrite app_nil_r in Hxs. subst done. simpl. eauto.
    - destruct (Hstep done x s0 H0) as (s1 & Hx & H1); [eauto |].
      simpl. rewrite Hx. simpl. apply (IH (done ++ [x])); [| exact H1].
      now rewrite <- app_assoc. }
  intros s0 H0. apply (Hgen xs [] s0); auto.
Qed.

Lemma forEachM_returns {T} (f : T -> completion num T) (xs : list T) :
  (forall x, In x xs -> exists y, f x = Normal y) ->
  exists ys, forEachM f xs = Normal ys.
Proof.
  induction xs as [| x rest IH]; intros Hall; simpl; [eauto |].
  destruct (Hall x (or_introl eq_refl)) as (y & ->). simpl.
  destruct IH as (ys & ->); [intros; apply Hall; now right |].
  simpl. eauto.
Qed.

Lemma findIndex_Some {T} (p : T -> bool) (xs : list T) (i : nat) :
  findIndex p xs = Some i -> exists x, nth_error xs i = Some x /\ p x = true.
Proof.
  revert i; induction xs as [| y rest IH]; intros i Hi; simpl in Hi;
    [discriminate |].
  destruct (p y) eqn:Hy.
  - injection Hi as <-. simpl. eauto.
  - destruct (findIndex p rest) as [j |]; simpl in Hi; [| discriminate].
    injection Hi as <-. simpl. apply IH. reflexivity.
Qed.

Lemma findIndex_None {T} (p : T -> bool) (xs : list T) :
  findIndex p xs = None <-> forall x, In x xs -> p x = false.
Proof.
  induction xs as [| y rest IH]; simpl.
  - split; [intros _ x [] | reflexivity].
  - destruct (p y) eqn:Hy.
    + split; [discriminate |]. intros Hall.
      rewrite (Hall y (or_introl eq_refl)) in Hy. discriminate.
    + destruct (findIndex p rest) as [j |]; simpl.
      * split; [discriminate |]. intros Hall.
        assert (Hnone : Some j = None)
          by (apply IH; intros x Hx; apply Hall; now right).
        discriminate.
      * split; [| reflexivity]. intros _ x [<- | Hx]; [exact Hy |].
        now apply (proj1 IH).
Qed.

(** A search by a key reads the keys only. *)
Lemma findIndex_map {T U} (g : T -> U) (q : U -> bool) (xs : list T) :
  findIndex (fun x => q (g x)) xs = findIndex q (map g xs).
Proof.
  induction xs as [| y rest IH]; simpl; [reflexivity |].
  now rewrite IH.
Qed.

Lemma find_map {T U} (g : T -> U) (q : U -> bool) (xs : list T) :
  option_map g (find (fun x => q (g x)) xs) = find q (map g xs).
Proof.
  induction xs as [| y rest IH]; simpl; [reflexivity |].
  destruct (q (g y)); [reflexivity | exact IH].
Qed.

End LoopsAgain.

Section BareTree.

Context {num : Type} `{JSNumber num} `{JSTrig num}.
Variable cfg : RadarPieConfig num.

Lemma findIndex_same_keys {T K} (key : T -> K) (k : K -> bool)
      (xs ys : list T) :
  map key xs = map key ys ->
  findIndex (fun x => k (key x)) xs = findIndex (fun x => k (key x)) ys.
Proof.
  intros Hkeys. now rewrite !(findIndex_map key k), Hkeys.
Qed.

Lemma bareSlice_ids (slices slices' : list (Slice num)) :
  map (@bareSlice num) slices = map (@bareSlice num) slices' ->
  map (@slice_id num) slices = map (@slice_id num) slices'.
Proof.
  intros Hbare. apply (f_equal (map (@slice_id num))) in Hbare.
  now rewrite !map_map in Hbare.
Qed.

Lemma bareSubSlice_ids (subSlices subSlices' : list (SubSlice num)) :
  map (@bareSubSlice num) subSlices = map (@bareSubSlice num) subSlices' ->
  map (@ss_id num) subSlices = map (@ss_id num) subSlices'.
Proof.
  intros Hbare. apply (f_equal (map (@ss_id num))) in Hbare.
  now rewrite !map_map in Hbare.
Qed.

(** The place looked up for an entry depends on the bare tree only. *)
Lemma target_bare (slices slices' : list (Slice num))
      (entry : CatInfoSubSlice num) :
  map (@bareSlice num) slices = map (@bareSlice num) slices' ->
  target slices entry = target slices' entry.
Proof.
  intros Hbare. unfold target.
  pose proof (findIndex_same_keys (@slice_id num)
                (String.eqb (css_sliceId entry)) slices slices'
                (bareSlice_ids _ _ Hbare)) as Hslices.
  cbn beta in Hslices. rewrite Hslices.
  destruct (findIndex _ slices') as [i |]; [| reflexivity].
  destruct (nth_error_same_length slices slices' i
              (map_eq_length _ _ _ Hbare))
    as [(slice & slice' & Hslice & Hslice') | (Hslice & Hslice')];
    rewrite Hslice, Hslice'; [| reflexivity].
  pose proof (map_eq_nth _ _ _ _ Hbare Hslice Hslice') as Hsame.
  unfold bareSlice in Hsame. injection Hsame as _ _ Hsubs.
  pose proof (findIndex_same_keys (@ss_id num)
                (fun id => String.eqb id (css_id entry))
                (slice_subSlices slice) (slice_subSlices slice')
                (bareSubSlice_ids _ _ Hsubs)) as Hsub.
  cbn beta in Hsub. now rewrite Hsub.
Qed.

(** One iteration of the loop over the arcs, by the place of its entry. *)
Lemma subSliceArcStep_at (content : RadarContent num)
      (arc : PieArcDatum num (CatInfoSubSlice num)) :
  match target (rc_slices content) (pie_data arc) with
  | None => exists e, subSliceArcStep cfg content arc = Throw e
  | Some (i, j) =>
      exists slice subSlice,
        nth_error (rc_slices content) i = Some slice
        /\ nth_error (slice_subSlices slice) j = Some subSlice
        /\ subSliceArcStep cfg content arc
           = (subSlice' <- layoutSubSlice cfg (rc_rings content) arc subSlice ;;
              Normal
                {| rc_slices :=
                     update (rc_slices content) i
                       {| slice_id := slice_id slice;
                          slice_label := slice_label slice;
                          slice_labelData := slice_labelData slice;
                          slice_subSlices :=
                            update (slice_subSlices slice) j subSlice' |};
                   rc_subSlices := rc_subSlices content;
                   rc_rings := rc_rings content;
                   rc_groups := rc_groups content;
                   rc_items := rc_items content |})
  end.
Proof.
  unfold target, subSliceArcStep.
  destruct (findIndex _ (rc_slices content)) as [i |] eqn:Hi; [| eauto].
  destruct (findIndex_Some _ _ Hi) as (slice & Hslice & _).
  rewrite Hslice.
  destruct (findIndex _ (slice_subSlices slice)) as [j |] eqn:Hj; [| eauto].
  destruct (findIndex_Some _ _ Hj) as (subSlice & HsubSlice & _).
  rewrite HsubSlice. exists slice, subSlice. auto.
Qed.

Lemma segmentArc_bare (rings : list (RingInfo num))
      (a : DefaultArcObject num) (seg seg' : Segment num) :
  segmentArc rings a seg = Normal seg' -> bareSegment seg' = bareSegment seg.
Proof.
  unfold segmentArc. intros Hseg.
  destruct (find _ rings); [| discriminate].
  destruct (nth_error rings (seg_ringLevel seg)); [| discriminate].
  now injection Hseg as <-.
Qed.

Lemma layoutSubSlice_bare (rings : list (RingInfo num))
      (arc : PieArcDatum num (CatInfoSubSlice num)) (ss ss' : SubSlice num) :
  layoutSubSlice cfg rings arc ss = Normal ss' ->
  bareSubSlice ss' = bareSubSlice ss.
Proof.
  unfold layoutSubSlice. intros Hss.
  destruct (subSliceLabelData cfg _); simpl in Hss; [| discriminate].
  destruct (forEachM _ _) as [segments |] eqn:Hsegs; simpl in Hss;
    [| discriminate].
  injection Hss as <-. unfold bareSubSlice. simpl. f_equal.
  eapply forEachM_map; [| exact Hsegs].
  intros x y. apply segmentArc_bare.
Qed.

Lemma subSliceArcStep_bare (content content' : RadarContent num)
      (arc : PieArcDatum num (CatInfoSubSlice num)) :
  subSliceArcStep cfg content arc = Normal content' ->
  map (@bareSlice num) (rc_slices content')
  = map (@bareSlice num) (rc_slices content)
  /\ rc_rings content' = rc_rings content
  /\ rc_subSlices content' = rc_subSlices content
  /\ rc_groups content' = rc_groups content
  /\ rc_items content' = rc_items content.
Proof.
  intros Hstep. pose proof (subSliceArcStep_at content arc) as Hat.
  destruct (target (rc_slices content) (pie_data arc)) as [[i j] |].
  2:{ destruct Hat as (e & He). congruence. }
  destruct Hat as (slice & ss & Hslice & Hss & Heq).
  rewrite Heq in Hstep.
  destruct (layoutSubSlice cfg (rc_rings content) arc ss) as [ss' |] eqn:Hss';
    simpl in Hstep; [| discriminate].
  injection Hstep as <-. simpl. repeat split.
  apply map_update_same with (x := slice); [exact Hslice |].
  unfold bareSlice. simpl. f_equal.
  apply map_update_same with (x := ss); [exact Hss |].
  eapply layoutSubSlice_bare; eauto.
Qed.

Lemma sliceStep_bare (slice slice' : Slice num) :
  sliceStep cfg slice = Normal slice' -> bareSlice slice' = bareSlice slice.
Proof.
  unfold sliceStep. intros Hs.
  destruct (nth_error (slice_subSlices slice) 0) as [f |]; [| discriminate].
  destruct (nth_error (slice_subSlices slice) _) as [l |]; [| discriminate].
  destruct (ss_arcParams f) as [fa |]; [| discriminate].
  destruct (ss_arcParams l) as [la |]; [| discriminate].
  destruct (sliceLabelDataOf cfg fa la) as [ld |]; simpl in Hs;
    [| discriminate].
  now injection Hs as <-.
Qed.

Lemma loopKeeps_step (content s1 s2 : RadarContent num)
      (arc : PieArcDatum num (CatInfoSubSlice num)) :
  loopKeeps cfg content s1 -> subSliceArcStep cfg s1 arc = Normal s2 ->
  loopKeeps cfg content s2.
Proof.
  intros (Hs & Hr & Hss & Hg & Hi) Hstep.
  destruct (subSliceArcStep_bare _ _ Hstep) as (Hs' & Hr' & Hss' & Hg' & Hi').
  unfold loopKeeps. repeat split; congruence.
Qed.

Lemma layout_bare (content content' : RadarContent num) :
  layout cfg content = Normal content' ->
  bareContent content' = bareContent content.
Proof.
  unfold layout. intros Hl.
  destruct (foldM _ _ _) as [content2 |] eqn:Hfold; simpl in Hl;
    [| discriminate].
  destruct (forEachM _ _) as [slices |] eqn:Hslices; simpl in Hl;
    [| discriminate].
  injection Hl as <-.
  assert (Hkeeps : loopKeeps cfg content content2).
  { revert Hfold.
    apply (@foldM_invariant num _ _ (subSliceArcStep cfg)
             (loopKeeps cfg content)).
    - intros s1 arc s2. apply loopKeeps_step.
    - unfold loopKeeps. simpl. auto. }
  destruct Hkeeps as (Hs & Hr & Hss & Hg & Hi).
  unfold bareContent. simpl. f_equal; try assumption.
  - rewrite <- Hs.
    apply (forEachM_map (sliceStep cfg) (@bareSlice num)
             (rc_slices content2)); [| exact Hslices].
    intros x y. apply sliceStep_bare.
  - rewrite Hr. apply layoutRings_keeps_bare.
Qed.

(** X8: the constructor writes arcs, label data, radii and opacities into
    the tree and changes nothing else of it: slices, sub-slices, segments,
    rings and items are those of the tree it was given, in the same order
    and with the same ids, labels, flags, ring references and items. *)
Theorem constructor_keeps_the_bare_tree
        (content content' : RadarContent num) :
  layout cfg content = Normal content' ->
  bareContent content' = bareContent content.
Proof.
  apply layout_bare.
Qed.

End BareTree.

Lemma constructor_keeps_the_bare_tree_witness :
  exists content',
    layout DEFAULT_RADAR_PIE_CONFIG exampleContent = Normal content'
    /\ bareContent content' = bareContent (@exampleContent float _).
Proof.
  destruct (layout DEFAULT_RADAR_PIE_CONFIG exampleContent)
    as [content' | e] eqn:Hlayout.
  - exists content'. split; [reflexivity |].
    exact (@constructor_keeps_the_bare_tree float _ _
             DEFAULT_RADAR_PIE_CONFIG exampleContent content' Hlayout).
  - vm_compute in Hlayout. discriminate.
Defined.

(* ================================================================== *)
(** * The constructor of [RadarPie]: references that lead nowhere *)
(* ================================================================== *)

Section DanglingReferences.

Context {num : Type} `{JSNumber num} `{JSTrig num}.
Variable cfg : RadarPieConfig num.

Lemma pie_arcs_data_any {T} (k p a0 : num) (i : nat) (dvs : list (T * num)) :
  map (@pie_data num T) (pie_arcs k p i a0 dvs) = map fst dvs.
Proof.
  revert i a0; induction dvs as [| [d v] rest IH]; intros i a0; simpl;
    [reflexivity |].
  now rewrite IH.
Qed.

(** d3 returns one arc for each entry, in the order of the entries. *)
Lemma subSliceArcs_data (subSlices : list (CatInfoSubSlice num)) :
  map (@pie_data num _) (subSliceArcs cfg subSlices) = subSlices.
Proof.
  unfold subSliceArcs, d3_pie. rewrite pie_arcs_data_any.
  apply map_fst_combine_same. unfold mapi. apply mapi_from_length.
Qed.

Lemma arc_of_entry (subSlices : list (CatInfoSubSlice num))
      (entry : CatInfoSubSlice num) :
  In entry subSlices ->
  exists arc, In arc (subSliceArcs cfg subSlices) /\ pie_data arc = entry.
Proof.
  intros Hin. rewrite <- (subSliceArcs_data subSlices) in Hin.
  apply in_map_iff in Hin. destruct Hin as (arc & Hdata & Harc). eauto.
Qed.

Lemma entry_of_arc (subSlices : list (CatInfoSubSlice num))
      (arc : PieArcDatum num (CatInfoSubSlice num)) :
  In arc (subSliceArcs cfg subSlices) -> In (pie_data arc) subSlices.
Proof.
  intros Hin. apply (in_map (@pie_data num _)) in Hin.
  now rewrite subSliceArcs_data in Hin.
Qed.

(** The constructor, loop by loop. *)
Lemma layout_loops (content : RadarContent num) :
  layout cfg content
  = (content2 <- foldM (subSliceArcStep cfg)
                       (subSliceArcs cfg (rc_subSlices content))
                       (afterRings cfg content) ;;
     slices <- forEachM (sliceStep cfg) (rc_slices content2) ;;
     Normal {| rc_slices := slices;
               rc_subSlices := rc_subSlices content2;
               rc_rings := rc_rings content2;
               rc_groups := rc_groups content2;
               rc_items := rc_items content2 |}).
Proof.
  reflexivity.
Qed.

Lemma loopKeeps_afterRings (content : RadarContent num) :
  loopKeeps cfg content (afterRings cfg content).
Proof.
  unfold loopKeeps, afterRings. simpl. auto.
Qed.

Lemma loop_throws (content : RadarContent num) :
  (exists e, foldM (subSliceArcStep cfg)
                   (subSliceArcs cfg (rc_subSlices content))
                   (afterRings cfg content) = Throw e) ->
  exists e, layout cfg content = Throw e.
Proof.
  intros (e & He). rewrite layout_loops, He. simpl. eauto.
Qed.

(** The loop over the arcs either throws or leaves a state that keeps the
    bare tree. *)
Lemma loop_keeps (content content2 : RadarContent num) :
  foldM (subSliceArcStep cfg) (subSliceArcs cfg (rc_subSlices content))
        (afterRings cfg content) = Normal content2 ->
  loopKeeps cfg content content2.
Proof.
  apply (@foldM_invariant num _ _ (subSliceArcStep cfg)
           (loopKeeps cfg content)).
  - intros s1 arc s2. apply loopKeeps_step.
  - apply loopKeeps_afterRings.
Qed.

(** X9: an entry of [radarContent.subSlices] that names no slice of the
    tree, or no sub-slice of the slice it names, makes the constructor
    throw: the place it looks up is [undefined], and a property of it is
    read. *)
Theorem entry_without_sub_slice_throws
        (content : RadarContent num) (entry : CatInfoSubSlice num) :
  In entry (rc_subSlices content) ->
  target (rc_slices content) entry = None ->
  exists e, layout cfg content = Throw e.
Proof.
  intros Hin Hnone. apply loop_throws.
  destruct (arc_of_entry _ _ Hin) as (arc & Harc & Hdata).
  apply (@foldM_throws_at num _ _ (subSliceArcStep cfg)
           (loopKeeps cfg content) _ arc).
  - intros s1 y s2. apply loopKeeps_step.
  - intros s1 (Hbare & _).
    pose proof (subSliceArcStep_at cfg s1 arc) as Hat.
    rewrite (target_bare _ _ (pie_data arc) Hbare), Hdata, Hnone in Hat.
    exact Hat.
  - exact Harc.
  - apply loopKeeps_afterRings.
Qed.

Lemma find_ring_same_ids (rings rings' : list (RingInfo num)) (id : string) :
  map (@ring_id num) rings = map (@ring_id num) rings' ->
  find (fun r => String.eqb (ring_id r) id) rings = None ->
  find (fun r => String.eqb (ring_id r) id) rings' = None.
Proof.
  intros Hids Hnone.
  pose proof (find_map (@ring_id num) (fun i => String.eqb i id) rings)
    as Hf.
  pose proof (find_map (@ring_id num) (fun i => String.eqb i id) rings')
    as Hf'.
  cbn beta in Hf, Hf'. rewrite Hnone, Hids in Hf. rewrite <- Hf in Hf'.
  destruct (find _ rings'); [discriminate | reflexivity].
Qed.

(** The sub-slice at a place of a state of the loop is, bare, the one of
    the tree the constructor was given. *)
Lemma subSliceAt_bare (slices slices' : list (Slice num)) (place : nat * nat)
      (ss ss' : SubSlice num) :
  map (@bareSlice num) slices = map (@bareSlice num) slices' ->
  subSliceAt slices place = Some ss -> subSliceAt slices' place = Some ss' ->
  bareSubSlice ss = bareSubSlice ss'.
Proof.
  unfold subSliceAt. intros Hbare Hss Hss'.
  destruct (nth_error slices (fst place)) as [slice |] eqn:Hslice;
    [| discriminate].
  destruct (nth_error slices' (fst place)) as [slice' |] eqn:Hslice';
    [| discriminate].
  pose proof (map_eq_nth _ _ _ _ Hbare Hslice Hslice') as Hsame.
  unfold bareSlice in Hsame. injection Hsame as _ _ Hsubs.
  exact (map_eq_nth _ _ _ _ Hsubs Hss Hss').
Qed.

Lemma segmentArc_throws (rings : list (RingInfo num))
      (a : DefaultArcObject num) (seg : Segment num) :
  find (fun r => String.eqb (ring_id r) (seg_ringId seg)) rings = None
  \/ length rings <= seg_ringLevel seg ->
  exists e, segmentArc rings a seg = Throw e.
Proof.
  unfold segmentArc. intros [Hfind | Hlevel].
  - rewrite Hfind. eauto.
  - destruct (find _ rings); [| eauto].
    apply nth_error_None in Hlevel. rewrite Hlevel. eauto.
Qed.

(** X10: a segment of a sub-slice the constructor lays out, whose ring id
    is the id of no ring, or whose ring level is the index of no ring, makes
    the constructor throw. *)
Theorem segment_without_ring_throws
        (content : RadarContent num) (entry : CatInfoSubSlice num)
        (place : nat * nat) (subSlice : SubSlice num) (seg : Segment num) :
  In entry (rc_subSlices content) ->
  target (rc_slices content) entry = Some place ->
  subSliceAt (rc_slices content) place = Some subSlice ->
  In seg (ss_segments subSlice) ->
  find (fun r => String.eqb (ring_id r) (seg_ringId seg)) (rc_rings content)
  = None
  \/ length (rc_rings content) <= seg_ringLevel seg ->
  exists e, layout cfg content = Throw e.
Proof.
  intros Hin Htarget Hat Hseg Hring. apply loop_throws.
  destruct (arc_of_entry _ _ Hin) as (arc & Harc & Hdata).
  apply (@foldM_throws_at num _ _ (subSliceArcStep cfg)
           (loopKeeps cfg content) _ arc).
  - intros s1 y s2. apply loopKeeps_step.
  - intros s1 (Hbare & Hrings & _).
    pose proof (subSliceArcStep_at cfg s1 arc) as Hstep.
    rewrite (target_bare _ _ (pie_data arc) Hbare), Hdata, Htarget in Hstep.
    destruct place as [i j].
    destruct Hstep as (slice1 & ss1 & Hslice1 & Hss1 & ->).
    assert (Hat1 : subSliceAt (rc_slices s1) (i, j) = Some ss1).
    { unfold subSliceAt. simpl. now rewrite Hslice1. }
    pose proof (subSliceAt_bare _ _ _ Hbare Hat1 Hat) as Hsame.
    unfold bareSubSlice in Hsame. injection Hsame as _ _ _ Hsegs.
    assert (Hseg1 : exists seg1, In seg1 (ss_segments ss1)
                                 /\ bareSegment seg1 = bareSegment seg).
    { apply (in_map (@bareSegment num)) in Hseg. rewrite <- Hsegs in Hseg.
      apply in_map_iff in Hseg. destruct Hseg as (seg1 & Hb & Hin1). eauto. }
    destruct Hseg1 as (seg1 & Hin1 & Hb).
    unfold bareSegment in Hb. injection Hb as Hid Hlevel _.
    unfold layoutSubSlice.
    destruct (subSliceLabelData cfg _) as [labelData | e]; simpl; [| eauto].
    destruct (@forEachM_throws_at num _
                (segmentArc (rc_rings s1) (subSliceArcParams cfg arc))
                (ss_segments ss1) seg1 Hin1) as (e & ->); [| simpl; eauto].
    apply segmentArc_throws. rewrite Hid, Hlevel, Hrings.
    rewrite layoutRings_length.
    destruct Hring as [Hfind | Hlen]; [left | now right].
    apply (find_ring_same_ids (rc_rings content)); [| exact Hfind].
    symmetry. apply layoutRings_ids.
  - exact Harc.
  - apply loopKeeps_afterRings.
Qed.

End DanglingReferences.

Section SlicesWithoutArcs.

Context {num : Type} `{JSNumber num} `{JSTrig num}.
Variable cfg : RadarPieConfig num.

Lemma foldM_invariant_in {S T} (f : S -> T -> completion num S)
      (P : S -> Prop) (xs : list T) :
  (forall s1 x s2, In x xs -> P s1 -> f s1 x = Normal s2 -> P s2) ->
  forall s0 s, P s0 -> foldM f xs s0 = Normal s -> P s.
Proof.
  induction xs as [| x rest IH]; intros Hstep s0 s Hinit Hs; simpl in Hs.
  - now injection Hs as <-.
  - destruct (f s0 x) as [s1 |] eqn:Hfirst; simpl in Hs; [| discriminate].
    apply (IH (fun s1 y s2 Hy => Hstep s1 y s2 (or_intror Hy)) s1 s);
      [| exact Hs].
    apply (Hstep s0 x s1); simpl; auto.
Qed.

(** Writing a sub-slice at a place leaves the other places as they were. *)
Lemma subSliceAt_update (slices : list (Slice num)) (i j : nat)
      (slice : Slice num)
      (label : option (SliceLabelData num)) (ss' : SubSlice num)
      (place : nat * nat) :
  nth_error slices i = Some slice ->
  subSliceAt
    (update slices i
       {| slice_id := slice_id slice;
          slice_label := slice_label slice;
          slice_labelData := label;
          slice_subSlices := update (slice_subSlices slice) j ss' |})
    place
  = if Nat.eqb (fst place) i && Nat.eqb (snd place) j
    then match subSliceAt slices place with
         | Some _ => Some ss'
         | None => None
         end
    else subSliceAt slices place.
Proof.
  intros Hslice. unfold subSliceAt. destruct place as [i' j']. cbn [fst snd].
  destruct (Nat.eqb_spec i' i) as [-> | Hi]; cbn [andb].
  - rewrite nth_error_update_same by (eapply nth_error_in_range; eauto).
    rewrite Hslice. cbn [slice_subSlices].
    destruct (Nat.eqb_spec j' j) as [-> | Hj].
    + destruct (nth_error (slice_subSlices slice) j) as [ss |] eqn:Hss.
      * apply nth_error_update_same. eapply nth_error_in_range; eauto.
      * apply nth_error_None. rewrite update_length.
        now apply nth_error_None.
    + apply nth_error_update_other. congruence.
  - rewrite nth_error_update_other by congruence. reflexivity.
Qed.

(** A place that is the place of no entry keeps its sub-slice through the
    loop over the arcs. *)
Lemma loop_leaves_other_places (content content2 : RadarContent num)
      (place : nat * nat) :
  (forall entry, In entry (rc_subSlices content) ->
                 target (rc_slices content) entry <> Some place) ->
  foldM (subSliceArcStep cfg) (subSliceArcs cfg (rc_subSlices content))
        (afterRings cfg content) = Normal content2 ->
  subSliceAt (rc_slices content2) place
  = subSliceAt (rc_slices content) place.
Proof.
  intros Hother Hfold.
  assert (Hinv : loopKeeps cfg content content2
                 /\ subSliceAt (rc_slices content2) place
                    = subSliceAt (rc_slices content) place);
    [| tauto].
  revert Hfold.
  apply (@foldM_invariant_in _ _ (subSliceArcStep cfg)
           (fun s => loopKeeps cfg content s
                     /\ subSliceAt (rc_slices s) place
                        = subSliceAt (rc_slices content) place)).
  - intros s1 arc s2 Harc (Hkeeps & Hplace) Hstep.
    split; [eapply loopKeeps_step; eauto |].
    rewrite <- Hplace.
    pose proof (subSliceArcStep_at cfg s1 arc) as Hat.
    destruct Hkeeps as (Hbare & _).
    pose proof (Hother _ (entry_of_arc cfg _ _ Harc)) as Hne.
    rewrite <- (target_bare _ _ (pie_data arc) Hbare) in Hne.
    destruct (target (rc_slices s1) (pie_data arc)) as [[i j] |].
    2:{ destruct Hat as (e & He). congruence. }
    destruct Hat as (slice & ss & Hslice & Hss & Heq).
    rewrite Heq in Hstep.
    destruct (layoutSubSlice cfg (rc_rings s1) arc ss) as [ss' |];
      simpl in Hstep; [| discriminate].
    injection Hstep as <-. cbn [rc_slices].
    erewrite subSliceAt_update; [| exact Hslice].
    destruct place as [i' j']. cbn [fst snd].
    destruct (Nat.eqb_spec i' i) as [-> | Hi]; [| reflexivity].
    destruct (Nat.eqb_spec j' j) as [-> | Hj]; [| reflexivity].
    congruence.
  - split; [apply loopKeeps_afterRings | reflexivity].
Qed.

Lemma sliceStep_throws (slice : Slice num) :
  slice_subSlices slice = []
  \/ (exists j ss,
         (j = 0 \/ j = length (slice_subSlices slice) - 1)
         /\ nth_error (slice_subSlices slice) j = Some ss
         /\ ss_arcParams ss = None) ->
  exists e, sliceStep cfg slice = Throw e.
Proof.
  unfold sliceStep. intros [Hempty | (j & ss & Hj & Hss & Hnone)].
  - rewrite Hempty. simpl. eauto.
  - destruct (nth_error (slice_subSlices slice) 0) as [f |] eqn:Hf;
      [| eauto].
    destruct (nth_error (slice_subSlices slice)
                        (length (slice_subSlices slice) - 1))
      as [l |] eqn:Hl; [| eauto].
    destruct Hj as [-> | ->].
    + rewrite Hf in Hss. injection Hss as ->. rewrite Hnone. eauto.
    + rewrite Hl in Hss. injection Hss as ->. rewrite Hnone.
      destruct (ss_arcParams f); eauto.
Qed.

(** X11: a slice without sub-slices makes the constructor throw, and so
    does a slice whose first or last sub-slice has no arc and is the place
    of no entry of [radarContent.subSlices]: the separator line and the
    label of a slice are computed from the arcs of these two. *)
Theorem slice_without_arcs_throws
        (content : RadarContent num) (i : nat) (slice : Slice num) :
  nth_error (rc_slices content) i = Some slice ->
  slice_subSlices slice = []
  \/ (exists j subSlice,
         (j = 0 \/ j = length (slice_subSlices slice) - 1)
         /\ nth_error (slice_subSlices slice) j = Some subSlice
         /\ ss_arcParams subSlice = None
         /\ forall entry,
              In entry (rc_subSlices content) ->
              target (rc_slices content) entry <> Some (i, j)) ->
  exists e, layout cfg content = Throw e.
Proof.
  intros Hslice Hcase. rewrite layout_loops.
  destruct (foldM _ _ _) as [content2 | e] eqn:Hfold; simpl; [| eauto].
  pose proof (loop_keeps cfg _ Hfold) as (Hbare & _).
  destruct (nth_error_same_length (rc_slices content2) (rc_slices content) i
              (map_eq_length _ _ _ Hbare))
    as [(slice2 & slice0 & Hslice2 & Hslice0) | (_ & Hnone)];
    [| congruence].
  rewrite Hslice in Hslice0. injection Hslice0 as <-.
  pose proof (map_eq_nth _ _ _ _ Hbare Hslice2 Hslice) as Hsame.
  unfold bareSlice in Hsame. injection Hsame as _ _ Hsubs.
  destruct (@forEachM_throws_at num _ (sliceStep cfg) (rc_slices content2)
              slice2) as (e & ->); [| | simpl; eauto].
  { eapply nth_error_In; eauto. }
  apply sliceStep_throws.
  destruct Hcase as [Hempty | (j & ss & Hj & Hss & Hnone & Hother)].
  - left. rewrite Hempty in Hsubs.
    destruct (slice_subSlices slice2); [reflexivity | discriminate].
  - right. exists j.
    pose proof (@loop_leaves_other_places content content2 (i, j)
                  Hother Hfold) as Hplace.
    unfold subSliceAt in Hplace. cbn [fst snd] in Hplace.
    rewrite Hslice2, Hslice, Hss in Hplace.
    exists ss. rewrite (map_eq_length _ _ _ Hsubs). auto.
Qed.

End SlicesWithoutArcs.

Lemma entry_without_sub_slice_throws_witness :
  let entry : CatInfoSubSlice float :=
    {| css_id := "run"; css_sliceId := "platforms";
       css_itemCount := ofZ 1 |} in
  In entry (rc_subSlices contentWithStrayEntry)
  /\ target (rc_slices contentWithStrayEntry) entry = None
  /\ exists e, layout DEFAULT_RADAR_PIE_CONFIG contentWithStrayEntry = Throw e.
Proof.
  intros entry.
  assert (Hin : In entry (rc_subSlices contentWithStrayEntry))
    by (simpl; auto).
  assert (Hnone : target (rc_slices contentWithStrayEntry) entry = None)
    by reflexivity.
  split; [exact Hin |]. split; [exact Hnone |].
  exact (@entry_without_sub_slice_throws float _ _ DEFAULT_RADAR_PIE_CONFIG
           contentWithStrayEntry entry Hin Hnone).
Defined.

Lemma segment_without_ring_throws_witness :
  let content : RadarContent float := contentWithTwoRings in
  let entry : CatInfoSubSlice float :=
    {| css_id := "build"; css_sliceId := "tools"; css_itemCount := ofZ 3 |} in
  let seg : Segment float := newSegment "assess" 2 [] in
  exists subSlice,
    (In entry (rc_subSlices content)
     /\ target (rc_slices content) entry = Some (0, 0)
     /\ subSliceAt (rc_slices content) (0, 0) = Some subSlice
     /\ In seg (ss_segments subSlice)
     /\ (find (fun r => String.eqb (ring_id r) (seg_ringId seg))
              (rc_rings content) = None
         \/ length (rc_rings content) <= seg_ringLevel seg))
    /\ exists e, layout DEFAULT_RADAR_PIE_CONFIG content = Throw e.
Proof.
  intros content entry seg.
  destruct (subSliceAt (rc_slices content) (0, 0))
    as [subSlice |] eqn:Hat; [| discriminate].
  exists subSlice.
  assert (Hin : In entry (rc_subSlices content)) by (simpl; auto).
  assert (Htarget : target (rc_slices content) entry = Some (0, 0))
    by reflexivity.
  assert (Hseg : In seg (ss_segments subSlice)).
  { cbn in Hat. injection Hat as <-. simpl. auto. }
  assert (Hring : find (fun r => String.eqb (ring_id r) (seg_ringId seg))
                       (rc_rings content) = None
                  \/ length (rc_rings content) <= seg_ringLevel seg)
    by (left; reflexivity).
  split.
  - split; [exact Hin |]. split; [exact Htarget |].
    split; [reflexivity |]. split; [exact Hseg | exact Hring].
  - exact (@segment_without_ring_throws float _ _ DEFAULT_RADAR_PIE_CONFIG
             content entry (0, 0) subSlice seg Hin Htarget Hat Hseg Hring).
Defined.

Lemma slice_without_arcs_throws_witness :
  let slice : Slice float := newSlice "platforms" [] in
  nth_error (rc_slices contentWithEmptySlice) 2 = Some slice
  /\ exists e, layout DEFAULT_RADAR_PIE_CONFIG contentWithEmptySlice = Throw e.
Proof.
  intros slice.
  assert (Hslice : nth_error (rc_slices (@contentWithEmptySlice float _)) 2
                   = Some slice) by reflexivity.
  split; [exact Hslice |].
  exact (@slice_without_arcs_throws float _ _ DEFAULT_RADAR_PIE_CONFIG
           contentWithEmptySlice 2 slice Hslice (or_introl eq_refl)).
Defined.

(* ================================================================== *)
(** * The constructor of [RadarPie]: the tree of the caller *)
(* ================================================================== *)

Section WrittenTree.

Context {num : Type} `{JSNumber num} `{JSTrig num}.
Variable cfg : RadarPieConfig num.

(** A loop that returns has rewritten every element. *)
Lemma forEachWritten_Normal {T} (f : T -> completion num T) (xs ys : list T) :
  forEachM f xs = Normal ys -> forEachWritten f xs = ys.
Proof.
  revert ys; induction xs as [| x rest IH]; intros ys Hys; simpl in Hys.
  - now injection Hys as <-.
  - simpl. destruct (f x) as [x' |]; simpl in Hys; [| discriminate].
    destruct (forEachM f rest) as [rest' |]; simpl in Hys; [| discriminate].
    injection Hys as <-. f_equal. now apply IH.
Qed.

Lemma forEachWritten_map {T U} (f : T -> completion num T) (g : T -> U)
      (xs : list T) :
  (forall x y, f x = Normal y -> g y = g x) ->
  map g (forEachWritten f xs) = map g xs.
Proof.
  intros Hg. induction xs as [| x rest IH]; simpl; [reflexivity |].
  destruct (f x) as [x' |] eqn:Hx; [| reflexivity].
  simpl. now rewrite (Hg x x' Hx), IH.
Qed.

Lemma subSliceWritten_Normal (rings : list (RingInfo num))
      (arc : PieArcDatum num (CatInfoSubSlice num)) (ss ss' : SubSlice num) :
  layoutSubSlice cfg rings arc ss = Normal ss' ->
  subSliceWritten cfg rings arc ss = ss'.
Proof.
  unfold layoutSubSlice, subSliceWritten. intros Hss.
  destruct (subSliceLabelData cfg _) as [labelData |]; simpl in Hss;
    [| discriminate].
  destruct (forEachM _ _) as [segments |] eqn:Hsegs; simpl in Hss;
    [| discriminate].
  injection Hss as <-. now rewrite (forEachWritten_Normal _ _ Hsegs).
Qed.

Lemma subSliceWritten_bare (rings : list (RingInfo num))
      (arc : PieArcDatum num (CatInfoSubSlice num)) (ss : SubSlice num) :
  bareSubSlice (subSliceWritten cfg rings arc ss) = bareSubSlice ss.
Proof.
  unfold subSliceWritten.
  destruct (subSliceLabelData cfg _) as [labelData |]; [| reflexivity].
  unfold bareSubSlice. simpl. f_equal.
  apply forEachWritten_map. intros x y. apply segmentArc_bare.
Qed.

(** A step that returns has written the tree it returns. *)
Lemma subSliceArcStepWritten_Normal (content content' : RadarContent num)
      (arc : PieArcDatum num (CatInfoSubSlice num)) :
  subSliceArcStep cfg content arc = Normal content' ->
  subSliceArcStepWritten cfg content arc = content'.
Proof.
  unfold subSliceArcStep, subSliceArcStepWritten.
  destruct (findIndex _ (rc_slices content)) as [i |]; [| discriminate].
  destruct (nth_error (rc_slices content) i) as [slice |]; [| discriminate].
  destruct (findIndex _ (slice_subSlices slice)) as [j |]; [| discriminate].
  destruct (nth_error (slice_subSlices slice) j) as [ss |]; [| discriminate].
  destruct (layoutSubSlice cfg (rc_rings content) arc ss) as [ss' |] eqn:Hss';
    simpl; [| discriminate].
  intros Hc. injection Hc as <-.
  now rewrite (subSliceWritten_Normal _ _ _ Hss').
Qed.

Lemma subSliceArcStepWritten_keeps (content state : RadarContent num)
      (arc : PieArcDatum num (CatInfoSubSlice num)) :
  loopKeeps cfg content state ->
  loopKeeps cfg content (subSliceArcStepWritten cfg state arc).
Proof.
  intros Hkeeps. unfold subSliceArcStepWritten.
  destruct (findIndex _ (rc_slices state)) as [i |]; [| exact Hkeeps].
  destruct (nth_error (rc_slices state) i) as [slice |] eqn:Hslice;
    [| exact Hkeeps].
  destruct (findIndex _ (slice_subSlices slice)) as [j |]; [| exact Hkeeps].
  destruct (nth_error (slice_subSlices slice) j) as [ss |] eqn:Hss;
    [| exact Hkeeps].
  destruct Hkeeps as (Hbare & Hrings & Hentries & Hgroups & Hitems).
  unfold loopKeeps. cbn [rc_slices rc_rings rc_subSlices rc_groups rc_items].
  split; [| auto]. rewrite <- Hbare.
  apply map_update_same with (x := slice); [exact Hslice |].
  unfold bareSlice. simpl. f_equal.
  apply map_update_same with (x := ss); [exact Hss |].
  apply subSliceWritten_bare.
Qed.

Lemma arcsWritten_Normal
      (arcs : list (PieArcDatum num (CatInfoSubSlice num))) :
  forall state state',
    foldM (subSliceArcStep cfg) arcs state = Normal state' ->
    arcsWritten cfg arcs state = state'.
Proof.
  induction arcs as [| arc rest IH]; intros state state' Hfold;
    simpl in Hfold.
  - now injection Hfold as <-.
  - simpl. destruct (subSliceArcStep cfg state arc) as [state1 |];
      simpl in Hfold; [| discriminate].
    now apply IH.
Qed.

Lemma arcsWritten_keeps (content : RadarContent num)
      (arcs : list (PieArcDatum num (CatInfoSubSlice num))) :
  forall state,
    loopKeeps cfg content state ->
    loopKeeps cfg content (arcsWritten cfg arcs state).
Proof.
  induction arcs as [| arc rest IH]; intros state Hkeeps; simpl;
    [exact Hkeeps |].
  destruct (subSliceArcStep cfg state arc) as [state1 |] eqn:Hstep.
  - apply IH. eapply loopKeeps_step; eauto.
  - now apply subSliceArcStepWritten_keeps.
Qed.

(** When the constructor returns, the tree it leaves is the tree laid
    out. *)
Lemma layoutWritten_Normal (content content' : RadarContent num) :
  layout cfg content = Normal content' -> layoutWritten cfg content = content'.
Proof.
  unfold layout, layoutWritten. intros Hl.
  destruct (foldM _ _ _) as [content2 |] eqn:Hfold; simpl in Hl;
    [| discriminate].
  destruct (forEachM _ _) as [slices |] eqn:Hslices; simpl in Hl;
    [| discriminate].
  injection Hl as <-.
  rewrite (arcsWritten_Normal _ _ Hfold).
  now rewrite (forEachWritten_Normal _ _ Hslices).
Qed.

(** Returning or throwing, the constructor leaves the rings laid out, and
    the bare tree as it was. *)
Lemma layoutWritten_keeps (content : RadarContent num) :
  rc_rings (layoutWritten cfg content) = layoutRings cfg (rc_rings content)
  /\ bareContent (layoutWritten cfg content) = bareContent content.
Proof.
  pose proof (@arcsWritten_keeps content
                (subSliceArcs cfg (rc_subSlices content))
                (afterRings cfg content)
                (loopKeeps_afterRings cfg content))
    as (Hbare & Hrings & Hentries & Hgroups & Hitems).
  unfold layoutWritten.
  cbn [rc_slices rc_subSlices rc_rings rc_groups rc_items].
  fold (afterRings cfg content).
  destruct (foldM _ _ _) as [content2 |].
  - cbn [rc_rings]. split; [exact Hrings |].
    unfold bareContent.
    cbn [rc_slices rc_subSlices rc_rings rc_groups rc_items].
    rewrite Hrings, layoutRings_keeps_bare, Hentries, Hgroups, Hitems.
    f_equal. rewrite <- Hbare. apply forEachWritten_map.
    intros x y. apply sliceStep_bare.
  - split; [exact Hrings |]. unfold bareContent.
    now rewrite Hbare, Hrings, layoutRings_keeps_bare, Hentries, Hgroups,
      Hitems.
Qed.

(** The items of a tree are those of the bare tree. *)
Lemma treeItems_bare (content : RadarContent num) :
  treeItems (bareContent content) = treeItems content.
Proof.
  unfold treeItems, bareContent. cbn [rc_slices]. rewrite map_map.
  apply map_ext. intros slice. unfold sliceItems, bareSlice.
  cbn [slice_subSlices]. rewrite map_map.
  apply map_ext. intros ss. unfold subSliceItems, bareSubSlice.
  cbn [ss_segments]. rewrite map_map. reflexivity.
Qed.

(** C5, as amended: the constructor makes no copy of the content tree.  It
    writes the layout into the tree it is given, as it computes it.  After
    the call, whether the constructor has returned or thrown, the tree of the
    caller has the radius, the inner radius and the opacity of its rings, as
    the loop over the rings computes them; and when the constructor has
    returned, the pie holds the address of this very tree, which is the tree
    laid out.  Nothing else of the tree is written: the bare tree, and with
    it every item and its position, is as it was. *)
Theorem constructor_lays_out_the_tree_it_is_given
        (radarContentInput : nat) (heap : Heap)
        (content : RadarContent num) :
  nth_error heap radarContentInput = Some content ->
  exists written,
    nth_error (fst (RadarPie_constructor radarContentInput cfg heap))
              radarContentInput
    = Some written
    /\ rc_rings written = layoutRings cfg (rc_rings content)
    /\ (forall ring,
           In ring (rc_rings written) ->
           exists o ri rr,
             ring_opacity ring = Some o
             /\ ring_innerRadius ring = Some ri
             /\ ring_radius ring = Some rr)
    /\ bareContent written = bareContent content
    /\ treeItems written = treeItems content
    /\ match snd (RadarPie_constructor radarContentInput cfg heap) with
       | Normal pie =>
           radarContent pie = radarContentInput
           /\ layout cfg content = Normal written
       | Throw e => layout cfg content = Throw e
       end.
Proof.
  intros Hcontent. unfold RadarPie_constructor. rewrite Hcontent.
  cbn [fst snd].
  destruct (layoutWritten_keeps content) as (Hrings & Hbare).
  exists (layoutWritten cfg content).
  split.
  { apply nth_error_update_same. eapply nth_error_in_range; eauto. }
  split; [exact Hrings |]. split.
  { intros ring Hring. rewrite Hrings in Hring.
    apply In_nth_error in Hring. destruct Hring as (i & Hring).
    destruct (layoutRings_fields cfg _ _ Hring) as (ri & rr & Hri & Hrr).
    assert (Hi : i < length (rc_rings content)).
    { rewrite <- (layoutRings_length cfg).
      eapply nth_error_in_range; eauto. }
    destruct (nth_error (rc_rings content) i) as [ring0 |] eqn:Hring0;
      [| apply nth_error_None in Hring0; lia].
    rewrite (layoutRings_nth cfg _ _ Hring0) in Hring.
    injection Hring as <-. simpl in Hrr |- *.
    do 3 eexists. split; [reflexivity |]. split; [reflexivity | exact Hrr]. }
  split; [exact Hbare |]. split.
  { now rewrite <- treeItems_bare, Hbare, treeItems_bare. }
  destruct (layout cfg content) as [content' | e] eqn:Hlayout; cbn [bind].
  - split; [reflexivity |]. now rewrite (layoutWritten_Normal _ Hlayout).
  - reflexivity.
Qed.

End WrittenTree.

Lemma constructor_lays_out_the_tree_it_is_given_witness :
  let new := RadarPie_constructor 0 DEFAULT_RADAR_PIE_CONFIG
                                  [exampleContent] in
  nth_error [@exampleContent float _] 0 = Some exampleContent
  /\ exists written pie,
       nth_error (fst new) 0 = Some written
       /\ snd new = Normal pie
       /\ radarContent pie = 0
       /\ layout DEFAULT_RADAR_PIE_CONFIG exampleContent = Normal written
       /\ rc_rings written
          = layoutRings DEFAULT_RADAR_PIE_CONFIG exampleRings
       /\ treeItems written = treeItems (@exampleContent float _).
Proof.
  intros new. split; [reflexivity |].
  destruct (@constructor_lays_out_the_tree_it_is_given float _ _
              DEFAULT_RADAR_PIE_CONFIG 0 [exampleContent] exampleContent
              eq_refl)
    as (written & Hheap & Hrings & _ & _ & Hitems & Hresult).
  fold new in Hheap, Hresult.
  destruct (snd new) as [pie | e].
  - exists written, pie. destruct Hresult as (Hpie & Hlayout).
    split; [exact Hheap |]. split; [reflexivity |]. split; [exact Hpie |].
    split; [exact Hlayout |]. split; [exact Hrings | exact Hitems].
  - vm_compute in Hresult. discriminate.
Defined.

(** C5, as stated, fails: after the construction the tree of the caller has
    changed, its rings have got their opacity.  So it has when the
    constructor throws, as on the tree with an entry of a slice it does not
    have: the rings are written before the loop over the arcs throws. *)
Lemma constructor_changes_the_tree_of_the_caller :
  (exists heap' pie,
      RadarPie_constructor 0 DEFAULT_RADAR_PIE_CONFIG [exampleContent]
      = (heap', Normal pie)
      /\ nth_error heap' 0 <> nth_error [@exampleContent float _] 0
      /\ option_map (fun content =>
                       map (@ring_opacity float) (rc_rings content))
                    (nth_error heap' 0)
         = Some [Some 1; Some 0.60000000000000009; Some 0.2]%float)
  /\ (exists heap' e,
         RadarPie_constructor 0 DEFAULT_RADAR_PIE_CONFIG
                              [contentWithStrayEntry]
         = (heap', Throw e)
         /\ nth_error heap' 0 <> nth_error [@contentWithStrayEntry float _] 0
         /\ option_map (fun content =>
                          map (@ring_opacity float) (rc_rings content))
                       (nth_error heap' 0)
            = Some [Some 1; Some 0.60000000000000009; Some 0.2]%float).
Proof.
  split.
  - destruct (RadarPie_constructor 0 DEFAULT_RADAR_PIE_CONFIG
                                   [exampleContent])
      as [heap' [pie | e]] eqn:Hnew; [| vm_compute in Hnew; discriminate].
    exists heap', pie. split; [reflexivity |].
    assert (Hheap : heap' = fst (RadarPie_constructor
                                   0 DEFAULT_RADAR_PIE_CONFIG
                                   [exampleContent]))
      by now rewrite Hnew.
    assert (Hop : option_map (fun content =>
                                map (@ring_opacity float) (rc_rings content))
                             (nth_error heap' 0)
                  = Some [Some 1; Some 0.60000000000000009; Some 0.2]%float).
    { rewrite Hheap. vm_compute. reflexivity. }
    split; [| exact Hop].
    intros Hsame. rewrite Hsame in Hop. vm_compute in Hop. discriminate.
  - destruct (RadarPie_constructor 0 DEFAULT_RADAR_PIE_CONFIG
                                   [contentWithStrayEntry])
      as [heap' [pie | e]] eqn:Hnew; [vm_compute in Hnew; discriminate |].
    exists heap', e. split; [reflexivity |].
    assert (Hheap : heap' = fst (RadarPie_constructor
                                   0 DEFAULT_RADAR_PIE_CONFIG
                                   [contentWithStrayEntry]))
      by now rewrite Hnew.
    assert (Hop : option_map (fun content =>
                                map (@ring_opacity float) (rc_rings content))
                             (nth_error heap' 0)
                  = Some [Some 1; Some 0.60000000000000009; Some 0.2]%float).
    { rewrite Hheap. vm_compute. reflexivity. }
    split; [| exact Hop].
    intros Hsame. rewrite Hsame in Hop. vm_compute in Hop. discriminate.
Qed.

(* ================================================================== *)
(** * The constructor of [RadarPie]: a consistent tree is laid out *)
(* ================================================================== *)

Section Returns.

Variable cfg : RadarPieConfig xreal.

Lemma chained_finite {T} (arcs : list (PieArcDatum xreal T)) :
  forall from to,
    chained from arcs to ->
    forall arc, In arc arcs ->
                exists s e, pie_startAngle arc = Fin s
                            /\ pie_endAngle arc = Fin e.
Proof.
  induction arcs as [| a rest IH]; intros from to Hch arc Hin;
    [contradiction |].
  simpl in Hch. destruct Hch as (Hs & next & He & _ & Hrest).
  destruct Hin as [<- | Hin]; [eauto | eapply IH; eauto].
Qed.

Lemma subSliceLabelData_returns (a : DefaultArcObject xreal) :
  finiteAngles a -> exists ld, subSliceLabelData cfg a = Normal ld.
Proof.
  intros (s & e & Hs & He). unfold subSliceLabelData. rewrite Hs, He.
  change (calculateAnchorPlacement (Fin s) (Some (Fin e)))
    with (calculateAnchorPlacement
            (anchorRads (Fin s) (option_map Fin (Some e))) None).
  destruct (anchorRads_finite s (Some e)) as (r & ->).
  destruct (anchor_placement_finite r) as (p & ->). simpl. eauto.
Qed.

Lemma sliceLabelDataOf_returns (fa la : DefaultArcObject xreal) :
  finiteAngles fa -> finiteAngles la ->
  exists ld, sliceLabelDataOf cfg fa la = Normal ld.
Proof.
  intros (s & _ & Hs & _) (_ & e & _ & He). unfold sliceLabelDataOf.
  rewrite Hs, He.
  assert (Hmid : add (Fin s) (div (sub (Fin e) (Fin s)) (ofZ 2))
                 = Fin (s + (e - s) / 2)).
  { cbn. rewrite Reqb_false by lra. reflexivity. }
  rewrite Hmid.
  destruct (anchor_placement_finite (s + (e - s) / 2)) as (p & ->).
  simpl. eauto.
Qed.

Lemma segmentArc_returns (rings : list (RingInfo xreal))
      (a : DefaultArcObject xreal) (seg : Segment xreal) :
  (exists ring,
      find (fun r => String.eqb (ring_id r) (seg_ringId seg)) rings
      = Some ring) ->
  seg_ringLevel seg < length rings ->
  exists seg', segmentArc rings a seg = Normal seg'.
Proof.
  intros (ring & Hring) Hlevel. unfold segmentArc. rewrite Hring.
  destruct (nth_error rings (seg_ringLevel seg)) eqn:Hat; [eauto |].
  apply nth_error_None in Hat. lia.
Qed.

Lemma layoutSubSlice_returns (rings : list (RingInfo xreal))
      (arc : PieArcDatum xreal (CatInfoSubSlice xreal))
      (ss : SubSlice xreal) :
  finiteAngles (subSliceArcParams cfg arc) ->
  (forall seg,
      In seg (ss_segments ss) ->
      (exists ring,
          find (fun r => String.eqb (ring_id r) (seg_ringId seg)) rings
          = Some ring)
      /\ seg_ringLevel seg < length rings) ->
  exists ss', layoutSubSlice cfg rings arc ss = Normal ss' /\ laidOut ss'.
Proof.
  intros Hfinite Hsegs. unfold layoutSubSlice.
  destruct (subSliceLabelData_returns Hfinite) as (ld & ->). simpl.
  destruct (@forEachM_returns xreal _
              (segmentArc rings (subSliceArcParams cfg arc))
              (ss_segments ss)) as (segments & ->).
  { intros seg Hseg. destruct (Hsegs seg Hseg) as (Hring & Hlevel).
    now apply segmentArc_returns. }
  simpl. eexists. split; [reflexivity |].
  unfold laidOut. simpl. eauto.
Qed.

Lemma sliceStep_labelled (slice slice' : Slice xreal) :
  sliceStep cfg slice = Normal slice' ->
  slice_labelData slice' <> None
  /\ slice_subSlices slice' = slice_subSlices slice.
Proof.
  unfold sliceStep. intros Hs.
  destruct (nth_error (slice_subSlices slice) 0) as [f |]; [| discriminate].
  destruct (nth_error (slice_subSlices slice) _) as [l |]; [| discriminate].
  destruct (ss_arcParams f) as [fa |]; [| discriminate].
  destruct (ss_arcParams l) as [la |]; [| discriminate].
  destruct (sliceLabelDataOf cfg fa la) as [ld |]; simpl in Hs;
    [| discriminate].
  injection Hs as <-. simpl. split; [discriminate | reflexivity].
Qed.

Lemma find_ring_found (rings rings' : list (RingInfo xreal)) (id : string) :
  map (@ring_id xreal) rings = map (@ring_id xreal) rings' ->
  (exists ring, find (fun r => String.eqb (ring_id r) id) rings = Some ring) ->
  exists ring, find (fun r => String.eqb (ring_id r) id) rings' = Some ring.
Proof.
  intros Hids (ring & Hring).
  destruct (find (fun r => String.eqb (ring_id r) id) rings') as [ring' |]
    eqn:Hring'; [eauto |].
  rewrite (find_ring_same_ids rings' rings id (eq_sym Hids) Hring') in Hring.
  discriminate.
Qed.

Variable content : RadarContent xreal.
Variable shares : list R.
Variable padDegrees : R.

Hypothesis entries_resolve : entriesResolve content.
Hypothesis rings_resolve : ringsResolve content.
Hypothesis slices_covered : slicesCovered content.
Hypothesis finite_shares :
  scaledSubSlices cfg (rc_subSlices content) = map Fin shares.
Hypothesis positive_shares : (0 < sumR (map positivePart shares))%R.
Hypothesis cfg_pad : subSlicePadAngle cfg = Fin padDegrees.
Hypothesis pad_nonneg : (0 <= padDegrees)%R.

Lemma arcs_are_finite (arc : PieArcDatum xreal (CatInfoSubSlice xreal)) :
  In arc (subSliceArcs cfg (rc_subSlices content)) ->
  finiteAngles (subSliceArcParams cfg arc).
Proof.
  intros Harc.
  assert (Hsome : rc_subSlices content <> []).
  { intros Hempty.
    pose proof (@shares_length cfg (rc_subSlices content) shares
                  finite_shares) as Hlen.
    rewrite Hempty in Hlen. destruct shares; [| discriminate].
    simpl in positive_shares. lra. }
  destruct (@arcs_from_finite_shares cfg (rc_subSlices content) shares
              padDegrees Hsome finite_shares positive_shares cfg_pad
              pad_nonneg)
    as (_ & _ & Hchain & _).
  destruct (@chained_finite _ _ _ _ Hchain arc Harc) as (s & e & Hs & He).
  exists s, e. simpl. auto.
Qed.

(** What is known of a state of the loop over the arcs after the arcs
    [done]: it keeps the bare tree, and the sub-slices at the places of the
    entries of the arcs done are laid out. *)
Let after (done : list (PieArcDatum xreal (CatInfoSubSlice xreal)))
    (state : RadarContent xreal) : Prop :=
  loopKeeps cfg content state
  /\ forall arc place,
       In arc done ->
       target (rc_slices content) (pie_data arc) = Some place ->
       exists ss, subSliceAt (rc_slices state) place = Some ss /\ laidOut ss.

Lemma segments_resolve_at (state : RadarContent xreal) (i j : nat)
      (slice1 : Slice xreal) (ss1 : SubSlice xreal) :
  loopKeeps cfg content state ->
  nth_error (rc_slices state) i = Some slice1 ->
  nth_error (slice_subSlices slice1) j = Some ss1 ->
  forall seg,
    In seg (ss_segments ss1) ->
    (exists ring,
        find (fun r => String.eqb (ring_id r) (seg_ringId seg))
             (rc_rings state) = Some ring)
    /\ seg_ringLevel seg < length (rc_rings state).
Proof.
  intros (Hbare & Hrings & _) Hslice1 Hss1 seg1 Hseg1.
  destruct (nth_error_same_length (rc_slices state) (rc_slices content) i
              (map_eq_length _ _ _ Hbare))
    as [(slice1' & slice0 & Hs1 & Hslice0) | (Hnone & _)];
    [| congruence].
  rewrite Hslice1 in Hs1. injection Hs1 as <-.
  pose proof (map_eq_nth _ _ _ _ Hbare Hslice1 Hslice0) as Hsame.
  unfold bareSlice in Hsame. injection Hsame as _ _ Hsubs.
  destruct (nth_error_same_length (slice_subSlices slice1)
              (slice_subSlices slice0) j (map_eq_length _ _ _ Hsubs))
    as [(ss1' & ss0 & Hs1 & Hss0) | (Hnone & _)]; [| congruence].
  rewrite Hss1 in Hs1. injection Hs1 as <-.
  pose proof (map_eq_nth _ _ _ _ Hsubs Hss1 Hss0) as Hsame.
  unfold bareSubSlice in Hsame. injection Hsame as _ _ _ Hsegs.
  apply (in_map (@bareSegment xreal)) in Hseg1. rewrite Hsegs in Hseg1.
  apply in_map_iff in Hseg1. destruct Hseg1 as (seg0 & Hb & Hseg0).
  unfold bareSegment in Hb. injection Hb as Hid Hlevel _.
  destruct (rings_resolve slice0 ss0 seg0 (nth_error_In _ _ Hslice0)
              (nth_error_In _ _ Hss0) Hseg0) as (Hring & Hlen).
  rewrite Hrings, layoutRings_length, <- Hid, <- Hlevel.
  split; [| exact Hlen].
  apply (find_ring_found (rc_rings content)); [| exact Hring].
  symmetry. apply layoutRings_ids.
Qed.

Lemma loop_returns :
  exists content2,
    foldM (subSliceArcStep cfg) (subSliceArcs cfg (rc_subSlices content))
          (afterRings cfg content) = Normal content2
    /\ after (subSliceArcs cfg (rc_subSlices content)) content2.
Proof.
  apply (@foldM_returns xreal _ _ (subSliceArcStep cfg) after).
  2:{ split; [apply loopKeeps_afterRings | intros arc place []]. }
  intros done arc s1 (Hkeeps & Hdone) (rest & Harcs).
  assert (Harc : In arc (subSliceArcs cfg (rc_subSlices content))).
  { rewrite Harcs. apply in_or_app. right. now left. }
  destruct (entries_resolve _ (entry_of_arc cfg _ _ Harc))
    as ([i j] & Htarget).
  pose proof (subSliceArcStep_at cfg s1 arc) as Hat.
  pose proof Hkeeps as (Hbare & _).
  rewrite (target_bare _ _ (pie_data arc) Hbare), Htarget in Hat.
  destruct Hat as (slice1 & ss1 & Hslice1 & Hss1 & Hstep).
  destruct (@layoutSubSlice_returns (rc_rings s1) arc ss1
              (@arcs_are_finite arc Harc)
              (@segments_resolve_at s1 i j slice1 ss1 Hkeeps Hslice1 Hss1))
    as (ss' & Hss' & Hlaid).
  rewrite Hss' in Hstep. simpl in Hstep.
  eexists. split; [exact Hstep |]. split.
  { eapply loopKeeps_step; eauto. }
  intros arc' place Harc' Htarget'. cbn [rc_slices].
  erewrite subSliceAt_update; [| exact Hslice1].
  destruct place as [i' j']. cbn [fst snd].
  destruct (Nat.eqb_spec i' i) as [-> | Hi]; cbn [andb].
  - destruct (Nat.eqb_spec j' j) as [-> | Hj].
    + unfold subSliceAt. cbn [fst snd]. rewrite Hslice1, Hss1. eauto.
    + apply in_app_or in Harc'. destruct Harc' as [Hold | [<- | []]].
      * now apply (Hdone arc').
      * congruence.
  - apply in_app_or in Harc'. destruct Harc' as [Hold | [<- | []]].
    + now apply (Hdone arc').
    + congruence.
Qed.

(** X12: on a consistent tree the constructor returns.  Where every entry
    of [radarContent.subSlices] names a sub-slice of the tree, every segment
    names a ring by id and by level, every slice has sub-slices of which the
    first and the last are named by entries, the shares the scaler returns
    for the sub-slices are finite with one at least positive, and the pad
    angle is finite and not negative, the constructor throws nothing: every
    slice gets its label data, and every sub-slice an entry names gets its
    arc, with finite angles, and its label data. *)
Theorem constructor_returns_on_a_consistent_tree :
  exists content',
    layout cfg content = Normal content'
    /\ (forall slice, In slice (rc_slices content') ->
                      slice_labelData slice <> None)
    /\ (forall entry,
           In entry (rc_subSlices content) ->
           exists place subSlice,
             target (rc_slices content') entry = Some place
             /\ subSliceAt (rc_slices content') place = Some subSlice
             /\ laidOut subSlice).
Proof.
  destruct loop_returns as (content2 & Hfold & Hkeeps & Hdone).
  pose proof Hkeeps as (Hbare & _).
  assert (Hsteps : forall slice2,
             In slice2 (rc_slices content2) ->
             exists slice', sliceStep cfg slice2 = Normal slice').
  { intros slice2 Hin. apply In_nth_error in Hin. destruct Hin as (i & Hslice2).
    destruct (nth_error_same_length (rc_slices content2) (rc_slices content)
                i (map_eq_length _ _ _ Hbare))
      as [(slice2' & slice0 & Hs2 & Hslice0) | (Hnone & _)]; [| congruence].
    rewrite Hslice2 in Hs2. injection Hs2 as <-.
    pose proof (map_eq_nth _ _ _ _ Hbare Hslice2 Hslice0) as Hsame.
    unfold bareSlice in Hsame. injection Hsame as _ _ Hsubs.
    pose proof (map_eq_length _ _ _ Hsubs) as Hlen.
    destruct (@slices_covered i slice0 Hslice0)
      as (_ & (ef & Hef & Htf) & (el & Hel & Htl)).
    destruct (arc_of_entry cfg _ _ Hef) as (af & Haf & Hdf).
    destruct (arc_of_entry cfg _ _ Hel) as (al & Hal & Hdl).
    rewrite <- Hdf in Htf. rewrite <- Hdl in Htl.
    destruct (Hdone af _ Haf Htf) as (ssf & Hssf & (fa & _ & Hfa & _ & Hff)).
    destruct (Hdone al _ Hal Htl) as (ssl & Hssl & (la & _ & Hla & _ & Hfl)).
    unfold subSliceAt in Hssf, Hssl. cbn [fst snd] in Hssf, Hssl.
    rewrite Hslice2 in Hssf, Hssl. rewrite <- Hlen in Hssl.
    unfold sliceStep. rewrite Hssf, Hssl, Hfa, Hla.
    destruct (sliceLabelDataOf_returns Hff Hfl) as (ld & ->).
    simpl. eauto. }
  destruct (forEachM_returns (sliceStep cfg) (rc_slices content2) Hsteps)
    as (slices & Hslices).
  rewrite layout_loops, Hfold. simpl. rewrite Hslices. simpl.
  eexists. split; [reflexivity |]. cbn [rc_slices].
  pose proof (forEachM_Normal _ _ Hslices) as Hall.
  split.
  - intros slice' Hin.
    destruct (@Forall2_In_r _ _ _ _ _ _ Hall Hin) as (slice2 & _ & Hstep).
    now apply (@sliceStep_labelled slice2 slice' Hstep).
  - intros entry Hentry.
    destruct (entries_resolve _ Hentry) as (place & Htarget).
    destruct (arc_of_entry cfg _ _ Hentry) as (arc & Harc & Hdata).
    rewrite <- Hdata in Htarget.
    destruct (Hdone arc place Harc Htarget) as (ss & Hss & Hlaid).
    rewrite Hdata in Htarget.
    assert (Hsubs : map (@slice_subSlices xreal) slices
                    = map (@slice_subSlices xreal) (rc_slices content2)).
    { apply (forEachM_map (sliceStep cfg) (@slice_subSlices xreal)
               (rc_slices content2)); [| exact Hslices].
      intros x y Hxy. now apply (@sliceStep_labelled x y Hxy). }
    assert (Hbare' : map (@bareSlice xreal) slices
                     = map (@bareSlice xreal) (rc_slices content)).
    { rewrite <- Hbare.
      apply (forEachM_map (sliceStep cfg) (@bareSlice xreal)
               (rc_slices content2)); [| exact Hslices].
      intros x y. apply sliceStep_bare. }
    exists place, ss. split; [| split; [| exact Hlaid]].
    + now rewrite (target_bare _ _ entry Hbare').
    + rewrite <- Hss. unfold subSliceAt.
      pose proof (f_equal (fun l => nth_error l (fst place)) Hsubs) as Hnth.
      cbn beta in Hnth. rewrite !nth_error_map in Hnth.
      destruct (nth_error slices (fst place)) as [slice' |];
        destruct (nth_error (rc_slices content2) (fst place)) as [slice2 |];
        simpl in Hnth; try discriminate; [| reflexivity].
      injection Hnth as ->. reflexivity.
Qed.

End Returns.

(** Splits a membership in a list that is written out into its cases. *)
Ltac cases_of_In :=
  repeat match goal with
         | H : False |- _ => contradiction
         | H : In _ _ |- _ => progress simpl in H
         | H : _ = _ \/ _ |- _ => destruct H as [<- | H]
         end.

Lemma exampleContent_is_consistent :
  let content : RadarContent xreal := exampleContent in
  entriesResolve content /\ ringsResolve content /\ slicesCovered content.
Proof.
  intros content. split; [| split].
  - intros entry Hentry. unfold content in Hentry.
    cases_of_In; eexists; reflexivity.
  - intros slice subSlice seg Hslice HsubSlice Hseg. unfold content in Hslice.
    cases_of_In; (split; [eexists; reflexivity | simpl; lia]).
  - intros i slice Hslice.
    destruct i as [| [| i]]; simpl in Hslice;
      [| | destruct i; discriminate]; injection Hslice as <-.
    + split; [discriminate |]. split.
      * exists {| css_id := "build"; css_sliceId := "tools";
                  css_itemCount := ofZ 3 |}.
        split; [simpl; auto | reflexivity].
      * exists {| css_id := "test"; css_sliceId := "tools";
                  css_itemCount := ofZ 1 |}.
        split; [simpl; auto | reflexivity].
    + split; [discriminate |]. split;
        exists {| css_id := "languages"; css_sliceId := "languages";
                  css_itemCount := ofZ 2 |};
        (split; [simpl; auto | reflexivity]).
Defined.

Lemma constructor_returns_on_a_consistent_tree_witness :
  let cfg := DEFAULT_RADAR_PIE_CONFIG_exact in
  let content : RadarContent xreal := exampleContent in
  exists shares,
    (entriesResolve content /\ ringsResolve content /\ slicesCovered content
     /\ scaledSubSlices cfg (rc_subSlices content) = map Fin shares
     /\ (0 < sumR (map positivePart shares))%R
     /\ subSlicePadAngle cfg = Fin (2 / 10) /\ (0 <= 2 / 10)%R)
    /\ exists content',
         layout cfg content = Normal content'
         /\ forall slice, In slice (rc_slices content') ->
                          slice_labelData slice <> None.
Proof.
  intros cfg content.
  destruct exampleContent_is_consistent as (Hentries & Hrings & Hslices).
  assert (Hsome : rc_subSlices content <> []) by discriminate.
  assert (Hmin : (0 < 12)%R) by lra.
  assert (Hpad : (0 <= 2 / 10)%R) by lra.
  assert (Hcounts : map (@css_itemCount xreal) (rc_subSlices content)
                    = map Fin [3; 1; 2]%R) by reflexivity.
  destruct (@scaledSubSlices_contract cfg (rc_subSlices content)
              [3; 1; 2]%R 12%R Hcounts example_counts eq_refl)
    as (shares & Hshares & Hpositive & _).
  specialize (Hpositive Hsome Hmin).
  exists shares. split.
  - split; [exact Hentries |]. split; [exact Hrings |].
    split; [exact Hslices |]. split; [exact Hshares |].
    split; [exact Hpositive |]. split; [reflexivity | exact Hpad].
  - destruct (@constructor_returns_on_a_consistent_tree cfg content shares
                (2 / 10)%R Hentries Hrings Hslices Hshares Hpositive
                eq_refl Hpad)
      as (content' & Hlayout & Hlabels & _).
    exists content'. split; assumption.
Defined.

(* ================================================================== *)
(** * [RadarContainer.scaleToFit] *)
(* ================================================================== *)

Section ScaleToFitFacts.

Local Open Scope R_scope.

Variables x y w h W H p : R.
Variable debug : bool.

(** X15: when both padded sides of the bounding box are zero, as for an
    empty element without padding, the scale is infinite and the
    translation is no finite number: the transform set is not a valid
    one. *)
Theorem scaleToFit_of_an_empty_box :
  w + p * 2 = 0 -> h + p * 2 = 0 -> 0 < W -> 0 < H ->
  let t := snd (scaleToFit debug (finiteRect x y w h)
                           (Fin W) (Fin H) (Fin p)) in
  tr_scaleX t = PInf /\ tr_scaleY t = PInf
  /\ (forall tx, tr_translateX t <> Fin tx)
  /\ (forall ty, tr_translateY t <> Fin ty).
Proof.
  intros Hw Hh HW HH. unfold scaleToFit, finiteRect. cbn.
  rewrite !(@Reqb_false 2 0) by lra. rewrite Hw, Hh.
  unfold XReal.Reqb.
  destruct (Req_dec_T 0 0) as [_ | Hne]; [| contradiction].
  unfold XReal.signedInf. rewrite !Rltb_true by lra. cbn.
  split; [reflexivity |]. split; [reflexivity |].
  unfold XReal.signedInf, XReal.Rltb.
  split; intros t;
    repeat match goal with
           | |- context [Rlt_dec ?a ?b] => destruct (Rlt_dec a b)
           end; cbn; discriminate.
Qed.

End ScaleToFitFacts.

Lemma scaleToFit_of_an_empty_box_witness :
  (0 + 0 * 2 = 0 /\ 0 + 0 * 2 = 0 /\ 0 < 900 /\ 0 < 500)%R
  /\ let t := snd (scaleToFit false (finiteRect 0 0 0 0)
                              (Fin 900) (Fin 500) (Fin 0)) in
     tr_scaleX t = PInf /\ tr_scaleY t = PInf
     /\ (forall tx, tr_translateX t <> Fin tx)
     /\ (forall ty, tr_translateY t <> Fin ty).
Proof.
  assert (Hw : (0 + 0 * 2 = 0)%R) by lra.
  assert (HW : (0 < 900)%R) by lra.
  assert (HH : (0 < 500)%R) by lra.
  split; [repeat split; assumption |].
  exact (@scaleToFit_of_an_empty_box 0 0 0 0 900 500 0 false Hw Hw HW HH).
Defined.

(** In floating point: a box of 600 by 400 around (-10, 0), fitted into 900
    by 500 with a padding of 20; and the empty box without padding. *)
Example scaleToFit_float :
  snd (scaleToFit false
         {| rect_x := -310; rect_y := -200;
            rect_width := 600; rect_height := 400 |} 900 500 20)%float
  = {| tr_translateX := 461.36363636363637; tr_translateY := 250;
       tr_scaleX := 1.1363636363636365;
       tr_scaleY := 1.1363636363636365 |}%float
  /\ snd (scaleToFit false
            {| rect_x := 0; rect_y := 0;
               rect_width := 0; rect_height := 0 |} 900 500 0)%float
     = {| tr_translateX := nan; tr_translateY := nan;
          tr_scaleX := infinity; tr_scaleY := infinity |}%float.
Proof. split; vm_compute; reflexivity. Qed.

(* ================================================================== *)
(** * [Example]: the index of an example *)
(* ================================================================== *)

Section ExampleFacts.

Local Open Scope R_scope.

Lemma isIndex_exact (r : R) (i : nat) :
  XReal.Rleb (INR i) r && XReal.Rleb r (INR i) = true <-> r = INR i.
Proof.
  unfold XReal.Rleb.
  destruct (Rle_dec (INR i) r), (Rle_dec r (INR i)); cbn; split;
    intros; try discriminate; try reflexivity; lra.
Qed.

Lemma isIndex_xreal (idx : xreal) (i : nat) :
  le (ofNat i) idx && le idx (ofNat i) = true <-> idx = Fin (INR i).
Proof.
  rewrite ofNat_xreal. destruct idx as [r | | |]; cbn.
  - rewrite isIndex_exact. split; [intros ->; reflexivity |].
    intros Heq. now injection Heq.
  - split; discriminate.
  - split; discriminate.
  - split; discriminate.
Qed.

Lemma findIndex_seq (p : nat -> bool) (i : nat) :
  (forall k, p k = true <-> k = i) ->
  forall n a,
    findIndex p (seq a n)
    = if Nat.leb a i && Nat.ltb i (a + n) then Some (i - a)%nat else None.
Proof.
  intros Hp. induction n as [| n IH]; intros a.
  - cbn [seq findIndex].
    destruct (Nat.leb_spec a i), (Nat.ltb_spec i (a + 0)); cbn [andb];
      try reflexivity; lia.
  - cbn [seq findIndex]. destruct (p a) eqn:Hpa.
    + apply Hp in Hpa. subst a. rewrite Nat.leb_refl.
      destruct (Nat.ltb_spec i (i + S n)); [| lia].
      cbn [andb]. now rewrite Nat.sub_diag.
    + rewrite IH.
      assert (Hne : a <> i).
      { intros ->. rewrite (proj2 (Hp i) eq_refl) in Hpa. discriminate. }
      destruct (Nat.leb_spec (S a) i), (Nat.leb_spec a i),
               (Nat.ltb_spec i (S a + n)), (Nat.ltb_spec i (a + S n));
        cbn [andb option_map]; try reflexivity; try lia.
      f_equal. lia.
Qed.

(** The element at a whole number is the element at this index. *)
Lemma elementAt_index {T} (xs : list T) (i : nat) :
  elementAt xs (Fin (INR i)) = nth_error xs i.
Proof.
  unfold elementAt.
  rewrite (@findIndex_seq _ i) by (intros k; rewrite isIndex_xreal;
                                   split; [intros Heq; injection Heq as Heq;
                                           now apply INR_eq in Heq
                                          | now intros ->]).
  cbn [Nat.leb andb Nat.add]. rewrite Nat.sub_0_r.
  destruct (Nat.ltb_spec i (length xs)) as [Hlt | Hge]; [reflexivity |].
  symmetry. now apply nth_error_None.
Qed.

(** There is no element at a number that is no index. *)
Lemma elementAt_no_index {T} (xs : list T) (idx : xreal) :
  (forall i, idx <> Fin (INR i)) -> elementAt xs idx = None.
Proof.
  intros Hno. unfold elementAt.
  assert (Hnone : findIndex
                    (fun i => le (ofNat i) idx && le idx (ofNat i))
                    (seq 0 (length xs)) = None).
  { apply findIndex_None. intros i _.
    destruct (le (ofNat i) idx && le idx (ofNat i)) eqn:Hi; [| reflexivity].
    apply isIndex_xreal in Hi. now apply Hno in Hi. }
  now rewrite Hnone.
Qed.

(** X16: the constructor of [Example] refuses the numbers under 0 and
    those from 6 on, the number of examples, and accepts every other number:
    the six indices, but also every fraction between 0 and 6, and [NaN].  Of
    an example it has accepted, [name] and [getDataSource] return when the
    index is one of the six: the name of the example at this index, and the
    data source of its type, constructed with its file or files; the
    configuration is the one of this example.  They throw a [TypeError] both
    when the index is a fraction or [NaN]. *)
Theorem example_index_guard (idx : xreal) :
  match Example_constructor idx with
  | Throws e =>
      e = InvalidExampleIdx idx
      /\ (idx = PInf \/ idx = NInf
          \/ exists r, idx = Fin r /\ (r < 0 \/ 6 <= r))
  | Returns example =>
      (idx = XNaN \/ exists r, idx = Fin r /\ 0 <= r < 6)
      /\ match Example_name example, Example_getDataSource example with
         | Returns name, Returns dataSource =>
             exists i entry,
               (i < 6)%nat /\ idx = Fin (INR i)
               /\ nth_error EXAMPLES i = Some entry
               /\ name = entry_name entry
               /\ dataSource
                  = match entry_type entry with
                    | json fileUri => JSONDataSource fileUri
                    | dsv _ fileUris => DsvDataSource fileUris
                    | singleDsv _ fileUri => SingleDsvDataSource fileUri
                    end
               /\ Example_radarConfig example
                  = Returns (entry_radarConfig entry)
         | Throws (UndefinedExample _), Throws (UndefinedExample _) =>
             forall i, idx <> Fin (INR i)
         | _, _ => False
         end
  end.
Proof.
  unfold Example_constructor.
  change (ofNat (length EXAMPLES)) with (Fin 6).
  change (ofZ 0) with (Fin 0).
  destruct idx as [r | | |]; cbn [le lt xreal_JSNumber XReal.le XReal.lt orb].
  - unfold XReal.Rleb, XReal.Rltb.
    destruct (Rle_dec 6 r) as [H6 | H6]; cbn [orb].
    { split; [reflexivity |]. right. right. exists r. split; [reflexivity |].
      now right. }
    destruct (Rlt_dec r 0) as [H0 | H0].
    { split; [reflexivity |]. right. right. exists r. split; [reflexivity |].
      now left. }
    split; [right; exists r; split; [reflexivity | lra] |].
    unfold Example_name, Example_getDataSource, Example_radarConfig.
    cbn [exampleIdx].
    destruct (elementAt EXAMPLES (Fin r)) as [entry |] eqn:Hentry.
    + assert (Hindex : exists i, r = INR i).
      { destruct (Req_dec_T r 0) as [-> | H0']; [now exists 0%nat |].
        destruct (Req_dec_T r 1) as [-> | H1]; [now exists 1%nat |].
        destruct (Req_dec_T r 2) as [-> | H2]; [now exists 2%nat |].
        destruct (Req_dec_T r 3) as [-> | H3];
          [exists 3%nat; simpl; lra |].
        destruct (Req_dec_T r 4) as [-> | H4];
          [exists 4%nat; simpl; lra |].
        destruct (Req_dec_T r 5) as [-> | H5];
          [exists 5%nat; simpl; lra |].
        exfalso. rewrite elementAt_no_index in Hentry; [discriminate |].
        intros i Hi. injection Hi as Hi.
        destruct i as [| [| [| [| [| [| i]]]]]]; simpl in Hi; try lra.
        rewrite Hi in H6. apply H6.
        pose proof (pos_INR i). destruct i; simpl; lra. }
      destruct Hindex as (i & ->). rewrite elementAt_index in Hentry.
      assert (Hi : (i < 6)%nat).
      { change 6%nat with (length EXAMPLES).
        apply nth_error_Some. congruence. }
      destruct (entry_type entry) eqn:Htype; exists i, entry;
        rewrite ?Htype; repeat split; auto.
    + intros i Hi. injection Hi as ->.
      rewrite elementAt_index in Hentry.
      apply nth_error_None in Hentry. simpl in Hentry.
      apply H6. apply le_INR in Hentry. simpl in Hentry. lra.
  - split; [reflexivity | auto].
  - split; [reflexivity | auto].
  - split; [now left |].
    unfold Example_name, Example_getDataSource. cbn [exampleIdx].
    rewrite elementAt_no_index by discriminate. discriminate.
Qed.

End ExampleFacts.

(** The examples by index, in floating point; 2.5 and [NaN] pass the guard
    of the constructor and name no example. *)
Example example_names_float :
  map (fun idx =>
         match Example_constructor idx with
         | Returns example => Some (Example_name example)
         | Throws _ => None
         end)
      [0; 4; 2.5; nan; 6; -1]%float
  = [Some (Returns "data validation example"%string);
     Some (Returns "ThoughtWorks Technology Radar Vol 23"%string);
     Some (Throws (UndefinedExample "this.EXAMPLES[this.exampleIdx].name"));
     Some (Throws (UndefinedExample "this.EXAMPLES[this.exampleIdx].name"));
     None; None].
Proof. vm_compute. reflexivity. Qed.

(* ================================================================== *)
(** * The constructor of [RadarPie]: laying out a tree twice *)
(* ================================================================== *)

Section Idempotence.

Context {num : Type} `{JSNumber num} `{JSTrig num}.
Variable cfg : RadarPieConfig num.

Lemma forEachM_reads {T} (f : T -> completion num T) (g : T -> T)
      (xs : list T) :
  (forall x, f x = f (g x)) ->
  forall ys, map g xs = map g ys -> forEachM f xs = forEachM f ys.
Proof.
  intros Hf. induction xs as [| x rest IH]; intros [| y ys] Hmap;
    simpl in Hmap; try discriminate; [reflexivity |].
  injection Hmap as Hxy Hrest. simpl.
  now rewrite (Hf x), Hxy, <- (Hf y), (IH ys Hrest).
Qed.

(** The layout of a sub-slice reads the bare sub-slice only. *)
Lemma layoutSubSlice_reads_bare (rings : list (RingInfo num))
      (arc : PieArcDatum num (CatInfoSubSlice num)) (ss ss2 : SubSlice num) :
  bareSubSlice ss = bareSubSlice ss2 ->
  layoutSubSlice cfg rings arc ss = layoutSubSlice cfg rings arc ss2.
Proof.
  intros Hbare. unfold bareSubSlice in Hbare.
  injection Hbare as Hid Hlabel Hdummy Hsegs.
  unfold layoutSubSlice.
  rewrite (forEachM_reads (segmentArc rings (subSliceArcParams cfg arc))
             (@bareSegment num) (ss_segments ss) (fun seg => eq_refl)
             (ss_segments ss2) Hsegs).
  now rewrite Hid, Hlabel, Hdummy.
Qed.

Lemma isPlace_true (i j : nat) (place : nat * nat) :
  isPlace (Some (i, j)) place = true -> place = (i, j).
Proof.
  destruct place as [i' j']. cbn. intros Hp.
  apply andb_prop in Hp. destruct Hp as [Hi Hj].
  apply Nat.eqb_eq in Hi, Hj. now subst.
Qed.

(** One iteration of the loop over the arcs writes one sub-slice, at the
    place of the entry of the arc, and leaves the frames of the slices. *)
Lemma step_writes_one_place (s s2 : RadarContent num)
      (arc : PieArcDatum num (CatInfoSubSlice num)) :
  subSliceArcStep cfg s arc = Normal s2 ->
  exists i j ss w,
    target (rc_slices s) (pie_data arc) = Some (i, j)
    /\ subSliceAt (rc_slices s) (i, j) = Some ss
    /\ layoutSubSlice cfg (rc_rings s) arc ss = Normal w
    /\ map (@sliceFrame num) (rc_slices s2)
       = map (@sliceFrame num) (rc_slices s)
    /\ forall place,
         subSliceAt (rc_slices s2) place
         = if isPlace (Some (i, j)) place then Some w
           else subSliceAt (rc_slices s) place.
Proof.
  intros Hstep. pose proof (subSliceArcStep_at cfg s arc) as Hat.
  destruct (target (rc_slices s) (pie_data arc)) as [[i j] |].
  2:{ destruct Hat as (e & He). congruence. }
  destruct Hat as (slice & ss & Hslice & Hss & Heq).
  rewrite Heq in Hstep.
  destruct (layoutSubSlice cfg (rc_rings s) arc ss) as [w |] eqn:Hw;
    simpl in Hstep; [| discriminate].
  injection Hstep as <-. cbn [rc_slices].
  assert (Hat : subSliceAt (rc_slices s) (i, j) = Some ss).
  { unfold subSliceAt. cbn [fst snd]. now rewrite Hslice. }
  exists i, j, ss, w. split; [reflexivity |]. split; [exact Hat |].
  split; [exact Hw |]. split.
  - apply map_update_same with (x := slice); [exact Hslice | reflexivity].
  - intros place. erewrite subSliceAt_update; [| exact Hslice].
    cbn [isPlace].
    destruct (Nat.eqb (fst place) i && Nat.eqb (snd place) j) eqn:Hp;
      [| reflexivity].
    assert (Hplace : place = (i, j)) by (apply isPlace_true; exact Hp).
    now rewrite Hplace, Hat.
Qed.

Variable content : RadarContent num.

(** The sub-slice the loop over the arcs leaves at a place: the one it
    found there, laid out by the last arc whose entry has this place. *)
Lemma loop_by_place (arcs : list (PieArcDatum num (CatInfoSubSlice num))) :
  forall s0 s,
    loopKeeps cfg content s0 ->
    foldM (subSliceArcStep cfg) arcs s0 = Normal s ->
    map (@sliceFrame num) (rc_slices s)
    = map (@sliceFrame num) (rc_slices s0)
    /\ forall place,
         match lastArcAt (rc_slices content) place arcs with
         | None =>
             subSliceAt (rc_slices s) place = subSliceAt (rc_slices s0) place
         | Some arc =>
             exists ss0 w,
               subSliceAt (rc_slices s0) place = Some ss0
               /\ layoutSubSlice cfg (rc_rings s0) arc ss0 = Normal w
               /\ subSliceAt (rc_slices s) place = Some w
         end.
Proof.
  induction arcs as [| arc rest IH]; intros s0 s Hkeeps Hfold;
    simpl in Hfold.
  - injection Hfold as <-. split; [reflexivity |]. intros place. reflexivity.
  - destruct (subSliceArcStep cfg s0 arc) as [s1 |] eqn:Hstep;
      simpl in Hfold; [| discriminate].
    pose proof (@loopKeeps_step _ _ _ cfg content s0 s1 arc Hkeeps Hstep)
      as Hkeeps1.
    destruct (IH s1 s Hkeeps1 Hfold) as (Hframes & Hplaces).
    destruct (@step_writes_one_place s0 s1 arc Hstep)
      as (i & j & ssa & wa & Htarget & Hssa & Hwa & Hframes1 & Hwrites).
    split; [congruence |].
    assert (Hrings : rc_rings s1 = rc_rings s0).
    { destruct Hkeeps as (_ & -> & _). now destruct Hkeeps1 as (_ & -> & _). }
    intros place. specialize (Hplaces place). cbn [lastArcAt].
    destruct Hkeeps as (Hbare & _).
    rewrite <- (target_bare _ _ (pie_data arc) Hbare), Htarget.
    rewrite (Hwrites place) in Hplaces.
    destruct (lastArcAt (rc_slices content) place rest) as [later |].
    + destruct Hplaces as (ss1 & w & Hss1 & Hw & Hs).
      rewrite Hrings in Hw.
      destruct (isPlace (Some (i, j)) place) eqn:Hp.
      * apply isPlace_true in Hp. subst place. injection Hss1 as <-.
        exists ssa, w. split; [exact Hssa |]. split; [| exact Hs].
        rewrite <- Hw. apply layoutSubSlice_reads_bare.
        symmetry. eapply layoutSubSlice_bare; eauto.
      * exists ss1, w. auto.
    + destruct (isPlace (Some (i, j)) place) eqn:Hp.
      * apply isPlace_true in Hp. subst place.
        exists ssa, wa. auto.
      * exact Hplaces.
Qed.

(** Every iteration of a loop that returned has run, in a state the
    iterations before have left. *)
Lemma foldM_each_ran {S T} (f : S -> T -> completion num S) (P : S -> Prop)
      (xs : list T) :
  (forall s1 x s2, P s1 -> f s1 x = Normal s2 -> P s2) ->
  forall s0 s,
    P s0 -> foldM f xs s0 = Normal s ->
    forall x, In x xs -> exists s1 s2, P s1 /\ f s1 x = Normal s2.
Proof.
  intros Hstep. induction xs as [| y rest IH]; intros s0 s Hinit Hfold x Hx;
    [contradiction |].
  simpl in Hfold. destruct (f s0 y) as [s1 |] eqn:Hy; simpl in Hfold;
    [| discriminate].
  destruct Hx as [-> | Hx]; [eauto |].
  apply (IH s1 s); eauto.
Qed.

(** The loop over the arcs returns again, from every state that keeps the
    bare tree, when it has returned once. *)
Lemma loop_returns_again (s0 s d0 : RadarContent num)
      (arcs : list (PieArcDatum num (CatInfoSubSlice num))) :
  loopKeeps cfg content s0 ->
  foldM (subSliceArcStep cfg) arcs s0 = Normal s ->
  loopKeeps cfg content d0 ->
  exists d, foldM (subSliceArcStep cfg) arcs d0 = Normal d
            /\ loopKeeps cfg content d.
Proof.
  intros Hkeeps Hfold Hkeeps'.
  apply (@foldM_returns num _ _ (subSliceArcStep cfg)
           (fun _ state => loopKeeps cfg content state)); [| exact Hkeeps'].
  intros done arc d1 Hd1 (rest & Harcs).
  assert (Harc : In arc arcs).
  { rewrite Harcs. apply in_or_app. right. now left. }
  destruct (@foldM_each_ran _ _ (subSliceArcStep cfg) (loopKeeps cfg content)
              arcs (fun s1 x s2 => @loopKeeps_step _ _ _ cfg content s1 s2 x)
              s0 s Hkeeps Hfold arc Harc)
    as (s1 & s2 & Hs1 & Hran).
  destruct (@step_writes_one_place s1 s2 arc Hran)
    as (i & j & ss1 & w & Htarget & Hss1 & Hw & _ & _).
  pose proof (subSliceArcStep_at cfg d1 arc) as Hat.
  pose proof Hs1 as (Hbare1 & Hrings1 & _).
  pose proof Hd1 as (Hbared & Hringsd & _).
  rewrite (target_bare _ _ (pie_data arc) Hbared),
    <- (target_bare _ _ (pie_data arc) Hbare1), Htarget in Hat.
  destruct Hat as (slice & ssd & Hslice & Hssd & Heq).
  assert (Hatd : subSliceAt (rc_slices d1) (i, j) = Some ssd).
  { unfold subSliceAt. cbn [fst snd]. now rewrite Hslice. }
  assert (Hsame : bareSubSlice ssd = bareSubSlice ss1).
  { apply (subSliceAt_bare (rc_slices d1) (rc_slices s1) (i, j));
      [congruence | exact Hatd | exact Hss1]. }
  rewrite (layoutSubSlice_reads_bare _ arc Hsame) in Heq.
  rewrite Hringsd, <- Hrings1, Hw in Heq. simpl in Heq.
  eexists. split; [exact Heq |].
  eapply loopKeeps_step; [exact Hd1 |].
  rewrite <- Heq. reflexivity.
Qed.

(** Two arrays of slices with the same frames and the same sub-slice at
    every place are the same. *)
Lemma slices_by_place (s t : list (Slice num)) :
  map (@sliceFrame num) s = map (@sliceFrame num) t ->
  (forall place, subSliceAt s place = subSliceAt t place) ->
  s = t.
Proof.
  intros Hframes Hplaces. apply nth_error_ext. intros i.
  destruct (nth_error_same_length s t i (map_eq_length _ _ _ Hframes))
    as [(sl & tl & Hs & Ht) | (Hs & Ht)]; rewrite Hs, Ht; [| reflexivity].
  f_equal.
  pose proof (map_eq_nth _ _ _ _ Hframes Hs Ht) as Hframe.
  unfold sliceFrame in Hframe. injection Hframe as Hid Hlabel Hld.
  assert (Hsubs : slice_subSlices sl = slice_subSlices tl).
  { apply nth_error_ext. intros j. specialize (Hplaces (i, j)).
    unfold subSliceAt in Hplaces. cbn [fst snd] in Hplaces.
    now rewrite Hs, Ht in Hplaces. }
  destruct sl, tl; simpl in *; congruence.
Qed.

Lemma subSliceAt_same_subSlices (s t : list (Slice num)) (place : nat * nat) :
  map (@slice_subSlices num) s = map (@slice_subSlices num) t ->
  subSliceAt s place = subSliceAt t place.
Proof.
  intros Hsubs. unfold subSliceAt.
  destruct (nth_error_same_length s t (fst place) (map_eq_length _ _ _ Hsubs))
    as [(sl & tl & Hs & Ht) | (Hs & Ht)]; rewrite Hs, Ht; [| reflexivity].
  now rewrite (map_eq_nth _ _ _ _ Hsubs Hs Ht).
Qed.

(** The label data of a slice are computed from its sub-slices only. *)
Lemma sliceStep_again (slice slice' : Slice num) :
  sliceStep cfg slice = Normal slice' -> sliceStep cfg slice' = Normal slice'.
Proof.
  unfold sliceStep. intros Hs.
  destruct (nth_error (slice_subSlices slice) 0) as [f |] eqn:Hf;
    [| discriminate].
  destruct (nth_error (slice_subSlices slice)
                      (length (slice_subSlices slice) - 1))
    as [l |] eqn:Hl; [| discriminate].
  destruct (ss_arcParams f) as [fa |] eqn:Hfa; [| discriminate].
  destruct (ss_arcParams l) as [la |] eqn:Hla; [| discriminate].
  destruct (sliceLabelDataOf cfg fa la) as [ld |] eqn:Hld; simpl in Hs;
    [| discriminate].
  injection Hs as <-. cbn [slice_subSlices slice_id slice_label].
  rewrite Hf, Hl, Hfa, Hla, Hld. reflexivity.
Qed.

Lemma forEachM_again {T} (f : T -> completion num T) (xs ys : list T) :
  (forall x y, f x = Normal y -> f y = Normal y) ->
  forEachM f xs = Normal ys -> forEachM f ys = Normal ys.
Proof.
  intros Hf Hys. apply forEachM_Normal in Hys.
  induction Hys as [| x y xs ys Hxy _ IH]; simpl; [reflexivity |].
  now rewrite (Hf x y Hxy), IH.
Qed.

(** X17: the constructor run on a tree it has laid out lays it out the same
    way: what it reads of the tree is the bare tree, which it leaves as it
    is, and the radii it has written into the rings below a ring before it
    reads them.  This holds in floating point as in exact arithmetic, and
    whether or not entries of [radarContent.subSlices] share a place. *)
Theorem constructor_run_twice
        (content' : RadarContent num) :
  layout cfg content = Normal content' ->
  layout cfg content' = Normal content'.
Proof.
  intros Hl. rewrite layout_loops in Hl.
  destruct (foldM (subSliceArcStep cfg)
                  (subSliceArcs cfg (rc_subSlices content))
                  (afterRings cfg content)) as [c2 |] eqn:Hfold;
    simpl in Hl; [| discriminate].
  destruct (forEachM (sliceStep cfg) (rc_slices c2)) as [slices |]
    eqn:Hslices; simpl in Hl; [| discriminate].
  injection Hl as <-.
  pose proof (loop_keeps cfg _ Hfold) as Hkeeps2.
  pose proof Hkeeps2 as (Hbare2 & Hrings2 & Hentries2 & Hgroups2 & Hitems2).
  set (content' := {| rc_slices := slices;
                      rc_subSlices := rc_subSlices c2;
                      rc_rings := rc_rings c2;
                      rc_groups := rc_groups c2;
                      rc_items := rc_items c2 |}).
  assert (Hkeeps0 : loopKeeps cfg content (afterRings cfg content')).
  { unfold loopKeeps, afterRings, content'. cbn.
    split; [| split; [| auto]].
    - rewrite <- Hbare2.
      apply (forEachM_map (sliceStep cfg) (@bareSlice num) (rc_slices c2));
        [| exact Hslices].
      intros x y. apply sliceStep_bare.
    - rewrite Hrings2. apply layoutRings_bare, layoutRings_keeps_bare. }
  rewrite layout_loops.
  replace (rc_subSlices content') with (rc_subSlices content)
    by (unfold content'; cbn; congruence).
  destruct (@loop_returns_again (afterRings cfg content) c2
              (afterRings cfg content')
              (subSliceArcs cfg (rc_subSlices content))
              (loopKeeps_afterRings cfg content) Hfold Hkeeps0)
    as (d & Hfold' & Hkeepsd).
  rewrite Hfold'. cbn [bind].
  destruct (@loop_by_place (subSliceArcs cfg (rc_subSlices content))
              (afterRings cfg content) c2
              (loopKeeps_afterRings cfg content) Hfold)
    as (_ & Hplaces2).
  destruct (@loop_by_place (subSliceArcs cfg (rc_subSlices content))
              (afterRings cfg content') d Hkeeps0 Hfold')
    as (Hframesd & Hplacesd).
  assert (Hsubs : map (@slice_subSlices num) slices
                  = map (@slice_subSlices num) (rc_slices c2)).
  { apply (forEachM_map (sliceStep cfg) (@slice_subSlices num)
             (rc_slices c2)); [| exact Hslices].
    intros x y. apply sliceStep_subSlices. }
  assert (Hd : rc_slices d = slices).
  { apply slices_by_place; [exact Hframesd |].
    intros place. specialize (Hplaces2 place). specialize (Hplacesd place).
    cbn [afterRings rc_slices rc_rings content'] in Hplaces2, Hplacesd.
    destruct (lastArcAt (rc_slices content) place
                        (subSliceArcs cfg (rc_subSlices content)))
      as [arc |]; [| exact Hplacesd].
    destruct Hplaces2 as (ss0 & w & Hss0 & Hw & Hc2).
    destruct Hplacesd as (ssd & w' & Hssd & Hw' & Hdw).
    rewrite (subSliceAt_same_subSlices _ _ place Hsubs), Hc2 in Hssd.
    injection Hssd as <-.
    rewrite Hdw, (subSliceAt_same_subSlices _ _ place Hsubs), Hc2.
    f_equal.
    rewrite Hrings2 in Hw'.
    rewrite (layoutSubSlice_reads_bare _ arc
               (layoutSubSlice_bare cfg _ _ _ Hw)) in Hw'.
    rewrite (layoutRings_bare cfg _ _ (layoutRings_keeps_bare cfg _)) in Hw'.
    congruence. }
  rewrite Hd.
  rewrite (forEachM_again (sliceStep cfg) (rc_slices c2) sliceStep_again
             Hslices).
  cbn [bind]. destruct Hkeepsd as (_ & Hringsd & Hentriesd & Hgroupsd & Hitemsd).
  unfold content'. f_equal. f_equal; congruence.
Qed.

End Idempotence.

Lemma constructor_run_twice_witness :
  exists content',
    layout DEFAULT_RADAR_PIE_CONFIG exampleContent = Normal content'
    /\ layout DEFAULT_RADAR_PIE_CONFIG content' = Normal content'.
Proof.
  destruct (layout DEFAULT_RADAR_PIE_CONFIG exampleContent)
    as [content' | e] eqn:Hlayout.
  - exists content'. split; [reflexivity |].
    exact (@constructor_run_twice float _ _ DEFAULT_RADAR_PIE_CONFIG
             exampleContent content' Hlayout).
  - vm_compute in Hlayout. discriminate.
Defined.

(* ================================================================== *)
(** * The constructor of [RadarPie]: the arcs of the segments *)
(* ================================================================== *)

Section SegmentArcs.

Context {num : Type} `{JSNumber num} `{JSTrig num}.
Variable cfg : RadarPieConfig num.

(** [find] returns the element at the index [findIndex] returns. *)
Lemma find_at_index {T} (p : T -> bool) (xs : list T) (i : nat) :
  findIndex p xs = Some i -> find p xs = nth_error xs i.
Proof.
  revert i; induction xs as [| x rest IH]; intros i Hi; simpl in Hi;
    [discriminate |].
  simpl. destruct (p x).
  - now injection Hi as <-.
  - destruct (findIndex p rest) as [j |]; simpl in Hi; [| discriminate].
    injection Hi as <-. simpl. now apply IH.
Qed.

(** A place that is the place of the entry of an arc has a last such
    arc. *)
Lemma lastArcAt_found (slices : list (Slice num)) (place : nat * nat)
      (arcs : list (PieArcDatum num (CatInfoSubSlice num)))
      (arc : PieArcDatum num (CatInfoSubSlice num)) :
  In arc arcs -> target slices (pie_data arc) = Some place ->
  exists last, lastArcAt slices place arcs = Some last.
Proof.
  induction arcs as [| first rest IH]; intros Hin Htarget; [contradiction |].
  cbn [lastArcAt].
  destruct (lastArcAt slices place rest) as [later |] eqn:Hlater; [eauto |].
  destruct Hin as [-> | Hin].
  - rewrite Htarget. destruct place as [i j]. cbn.
    rewrite !Nat.eqb_refl. cbn. eauto.
  - destruct (IH Hin Htarget) as (last & Hlast). discriminate.
Qed.

(** When the constructor has returned, the sub-slice an entry names is
    there, laid out by an arc with the rings of the tree. *)
Lemma entries_are_laid_out (content content' : RadarContent num)
      (entry : CatInfoSubSlice num) :
  layout cfg content = Normal content' ->
  In entry (rc_subSlices content) ->
  exists place arc before subSlice,
    target (rc_slices content') entry = Some place
    /\ subSliceAt (rc_slices content') place = Some subSlice
    /\ layoutSubSlice cfg (rc_rings content') arc before = Normal subSlice.
Proof.
  intros Hlayout Hentry.
  pose proof (layout_bare cfg _ Hlayout) as Hbare.
  apply (f_equal (@rc_slices num)) in Hbare. cbn [bareContent rc_slices] in Hbare.
  destruct (@layout_frame _ _ _ cfg _ _ Hlayout) as (Hrings & _).
  rewrite layout_loops in Hlayout.
  destruct (foldM (subSliceArcStep cfg)
                  (subSliceArcs cfg (rc_subSlices content))
                  (afterRings cfg content)) as [c2 |] eqn:Hfold;
    simpl in Hlayout; [| discriminate].
  destruct (forEachM (sliceStep cfg) (rc_slices c2)) as [slices |]
    eqn:Hslices; simpl in Hlayout; [| discriminate].
  injection Hlayout as <-. cbn [rc_slices rc_rings] in *.
  destruct (arc_of_entry cfg _ _ Hentry) as (arc0 & Harc0 & Hdata).
  destruct (@foldM_each_ran _ _ _ (subSliceArcStep cfg)
              (loopKeeps cfg content) _
              (fun s1 x s2 => @loopKeeps_step _ _ _ cfg content s1 s2 x)
              (afterRings cfg content) c2
              (loopKeeps_afterRings cfg content) Hfold arc0 Harc0)
    as (s1 & s2 & Hs1 & Hran).
  destruct (@step_writes_one_place _ _ _ cfg s1 s2 arc0 Hran)
    as (i & j & ss1 & w1 & Htarget & _).
  destruct Hs1 as (Hbare1 & _).
  rewrite (target_bare _ _ (pie_data arc0) Hbare1), Hdata in Htarget.
  destruct (@lastArcAt_found (rc_slices content) (i, j) _ arc0 Harc0)
    as (arc & Hlast); [now rewrite Hdata |].
  destruct (@loop_by_place _ _ _ cfg content
              (subSliceArcs cfg (rc_subSlices content))
              (afterRings cfg content) c2
              (loopKeeps_afterRings cfg content) Hfold)
    as (_ & Hplaces).
  specialize (Hplaces (i, j)). rewrite Hlast in Hplaces.
  destruct Hplaces as (ss0 & w & _ & Hw & Hc2).
  cbn [afterRings rc_rings] in Hw.
  exists (i, j), arc, ss0, w.
  split; [now rewrite (target_bare _ _ entry Hbare) |].
  split; [| now rewrite Hrings].
  rewrite <- Hc2. apply subSliceAt_same_subSlices.
  apply (forEachM_map (sliceStep cfg) (@slice_subSlices num) (rc_slices c2));
    [| exact Hslices].
  intros x y. apply sliceStep_subSlices.
Qed.

(** C2, as amended: when the constructor has returned, every sub-slice an
    entry of [radarContent.subSlices] names has its arc, and every segment
    of it has an arc with the start, end and pad angle of that arc.  The
    inner radius of the arc of a segment is the inner radius of the ring at
    the index [ringLevel] of the segment, its outer radius this inner radius
    plus the radius of the first ring with the id [ringId] of the segment.
    Where the two name one ring, the ring at [ringLevel] being the first
    with the id [ringId], the arc goes from the inner radius of this ring to
    its inner radius plus its radius. *)
Theorem segment_arcs_follow_sub_slice_and_ring
        (content content' : RadarContent num) (entry : CatInfoSubSlice num) :
  layout cfg content = Normal content' ->
  In entry (rc_subSlices content) ->
  exists place subSlice a,
    target (rc_slices content') entry = Some place
    /\ subSliceAt (rc_slices content') place = Some subSlice
    /\ ss_arcParams subSlice = Some a
    /\ forall seg,
         In seg (ss_segments subSlice) ->
         exists atLevel found ri rr,
           nth_error (rc_rings content') (seg_ringLevel seg) = Some atLevel
           /\ find (fun r => String.eqb (ring_id r) (seg_ringId seg))
                   (rc_rings content')
              = Some found
           /\ ring_innerRadius atLevel = Some ri
           /\ ring_radius found = Some rr
           /\ seg_arcParams seg
              = Some {| arc_startAngle := arc_startAngle a;
                        arc_endAngle := arc_endAngle a;
                        arc_padAngle := arc_padAngle a;
                        arc_innerRadius := ri;
                        arc_outerRadius := add ri rr |}
           /\ (findIndex (fun r => String.eqb (ring_id r) (seg_ringId seg))
                         (rc_rings content')
               = Some (seg_ringLevel seg) ->
               found = atLevel /\ ring_id atLevel = seg_ringId seg).
Proof.
  intros Hlayout Hentry.
  destruct (@entries_are_laid_out content content' entry Hlayout Hentry)
    as (place & arc & before & subSlice & Htarget & Hat & Hlaid).
  destruct (@layout_frame _ _ _ cfg _ _ Hlayout) as (Hrings & _).
  destruct (@layoutSubSlice_follows _ _ _ cfg _ _ _ _ Hlaid) as (Harc & Hsegs).
  exists place, subSlice, (subSliceArcParams cfg arc).
  split; [exact Htarget |]. split; [exact Hat |]. split; [exact Harc |].
  intros seg Hseg.
  destruct (Hsegs seg Hseg) as (found & atLevel & Hfound & Hlevel & Hseg').
  assert (Hfields : forall ring,
             In ring (rc_rings content') ->
             exists ri rr, ring_innerRadius ring = Some ri
                           /\ ring_radius ring = Some rr).
  { intros ring Hring. apply In_nth_error in Hring.
    destruct Hring as (i & Hring). rewrite Hrings in Hring.
    exact (@layoutRings_fields _ _ cfg _ _ _ Hring). }
  destruct (Hfields atLevel (nth_error_In _ _ Hlevel)) as (ri & _ & Hri & _).
  destruct (find_some _ _ Hfound) as (Hin & Hid).
  destruct (Hfields found Hin) as (_ & rr & _ & Hrr).
  exists atLevel, found, ri, rr.
  split; [exact Hlevel |]. split; [exact Hfound |].
  split; [exact Hri |]. split; [exact Hrr |]. split.
  - rewrite Hseg', Hri, Hrr. reflexivity.
  - intros Hindex. rewrite (find_at_index _ _ Hindex), Hlevel in Hfound.
    injection Hfound as <-. split; [reflexivity |].
    now apply String.eqb_eq.
Qed.

End SegmentArcs.

Lemma segment_arcs_follow_sub_slice_and_ring_witness :
  let entry : CatInfoSubSlice float :=
    {| css_id := "build"; css_sliceId := "tools"; css_itemCount := ofZ 3 |} in
  exists content' subSlice a seg,
    (layout DEFAULT_RADAR_PIE_CONFIG exampleContent = Normal content'
     /\ In entry (rc_subSlices exampleContent))
    /\ target (rc_slices content') entry = Some (0, 0)
    /\ subSliceAt (rc_slices content') (0, 0) = Some subSlice
    /\ ss_arcParams subSlice = Some a
    /\ nth_error (ss_segments subSlice) 1 = Some seg
    /\ seg_ringId seg = "trial"%string /\ seg_ringLevel seg = 1
    /\ seg_arcParams seg
       = Some {| arc_startAngle := arc_startAngle a;
                 arc_endAngle := arc_endAngle a;
                 arc_padAngle := arc_padAngle a;
                 arc_innerRadius := 180;
                 arc_outerRadius := 180 + 39.999999999999993 |}%float.
Proof.
  intros entry.
  assert (Hentry : In entry (rc_subSlices (@exampleContent float _)))
    by (simpl; auto).
  destruct (layout DEFAULT_RADAR_PIE_CONFIG exampleContent)
    as [content' | e] eqn:Hlayout; [| vm_compute in Hlayout; discriminate].
  destruct (@segment_arcs_follow_sub_slice_and_ring float _ _
              DEFAULT_RADAR_PIE_CONFIG exampleContent content' entry
              Hlayout Hentry)
    as (place & subSlice & a & Htarget & Hat & Harc & Hsegs).
  pose proof (@layout_bare float _ _ DEFAULT_RADAR_PIE_CONFIG _ _ Hlayout)
    as Hbare.
  apply (f_equal (@rc_slices float)) in Hbare.
  cbn [bareContent rc_slices] in Hbare.
  rewrite (target_bare _ _ entry Hbare) in Htarget.
  change (target (rc_slices exampleContent) entry) with (Some (0, 0))
    in Htarget.
  injection Htarget as <-.
  assert (Hsame : bareSubSlice subSlice
                  = bareSubSlice
                      (newSubSlice "build" false
                         [newSegment "adopt" 0 [newItem "new"; newItem "moved"];
                          newSegment "trial" 1 [newItem "new"];
                          newSegment "assess" 2 []])).
  { apply (subSliceAt_bare _ _ (0, 0) Hbare Hat). reflexivity. }
  unfold bareSubSlice in Hsame. injection Hsame as _ _ _ Hsegments.
  destruct (nth_error (ss_segments subSlice) 1) as [seg |] eqn:Hseg1.
  2:{ apply nth_error_None in Hseg1.
      apply (f_equal (@length _)) in Hsegments.
      rewrite length_map in Hsegments. simpl in Hsegments. lia. }
  pose proof (@map_eq_nth _ _ (@bareSegment float) (ss_segments subSlice)
                [newSegment "adopt" 0 [newItem "new"; newItem "moved"];
                 newSegment "trial" 1 [newItem "new"];
                 newSegment "assess" 2 []]
                1 seg (newSegment "trial" 1 [newItem "new"])
                Hsegments Hseg1 eq_refl) as Hb.
  unfold bareSegment in Hb. injection Hb as Hid Hlevel _.
  destruct (Hsegs seg (nth_error_In _ _ Hseg1))
    as (atLevel & found & ri & rr & Hring & Hfound & Hri & Hrr & Hseg' & _).
  destruct (@layout_frame _ _ _ DEFAULT_RADAR_PIE_CONFIG _ _ Hlayout)
    as (Hrings & _).
  rewrite Hrings, Hid in Hfound. rewrite Hrings, Hlevel in Hring.
  vm_compute in Hring, Hfound.
  injection Hring as <-. injection Hfound as <-.
  injection Hri as <-. injection Hrr as <-.
  exists content', subSlice, a, seg.
  split; [split; [reflexivity | exact Hentry] |].
  split; [now rewrite (target_bare _ _ entry Hbare) |].
  split; [exact Hat |]. split; [exact Harc |].
  split; [exact Hseg1 |]. split; [exact Hid |].
  split; [exact Hlevel | exact Hseg'].
Defined.

(** C2, as stated, fails: the third segment of the sub-slice "build" of
    [contentWithMisplacedSegment] names the ring "adopt" by its id and the
    ring "assess" by its level; its arc goes from 220, the inner radius of
    "assess", to 400, which is this inner radius plus the radius 180 of
    "adopt": the inner radius plus the radius of no ring.  Nor has every
    segment of every sub-slice an arc.  The segments of the sub-slice
    "deploy" of [contentWithUnnamedSubSlice], which no entry names, are left
    without, though the constructor returns; and on [contentWithTwoRings] the
    constructor throws at the third segment of "build", which is left without
    an arc when the two before it have theirs. *)
Lemma segment_arc_of_two_rings :
  (exists content' subSlice seg a,
      layout DEFAULT_RADAR_PIE_CONFIG contentWithMisplacedSegment
      = Normal content'
      /\ subSliceAt (rc_slices content') (0, 0) = Some subSlice
      /\ nth_error (ss_segments subSlice) 2 = Some seg
      /\ seg_ringId seg = "adopt"%string /\ seg_ringLevel seg = 2
      /\ seg_arcParams seg = Some a
      /\ arc_innerRadius a = 220%float /\ arc_outerRadius a = 400%float
      /\ map (fun ring => (ring_id ring, ring_innerRadius ring,
                           ring_radius ring))
             (rc_rings content')
         = [("adopt"%string, Some 0, Some 180);
            ("trial"%string, Some 180, Some 39.999999999999993);
            ("assess"%string, Some 220, Some 30)]%float
      /\ forall ring ri rr,
           In ring (rc_rings content') ->
           ring_innerRadius ring = Some ri -> ring_radius ring = Some rr ->
           PrimFloat.eqb (arc_outerRadius a) (ri + rr) = false)
  /\ (exists content' subSlice,
         layout DEFAULT_RADAR_PIE_CONFIG
                (@contentWithUnnamedSubSlice float _)
         = Normal content'
         /\ subSliceAt (rc_slices content') (0, 1) = Some subSlice
         /\ ss_id subSlice = "deploy"%string
         /\ ss_arcParams subSlice = None
         /\ map (@seg_arcParams float) (ss_segments subSlice)
            = [None; None; None])
  /\ (exists e heap' written subSlice,
         RadarPie_constructor 0 DEFAULT_RADAR_PIE_CONFIG
                              [@contentWithTwoRings float _]
         = (heap', Throw e)
         /\ nth_error heap' 0 = Some written
         /\ subSliceAt (rc_slices written) (0, 0) = Some subSlice
         /\ ss_id subSlice = "build"%string
         /\ map (fun seg => match seg_arcParams seg with
                            | Some _ => true
                            | None => false
                            end)
                (ss_segments subSlice)
            = [true; true; false]).
Proof.
  split; [| split].
  - destruct (layout DEFAULT_RADAR_PIE_CONFIG contentWithMisplacedSegment)
      as [content' | e] eqn:Hlayout; [| vm_compute in Hlayout; discriminate].
    vm_compute in Hlayout. injection Hlayout as <-.
    do 4 eexists. split; [reflexivity |]. split; [reflexivity |].
    split; [reflexivity |]. split; [reflexivity |]. split; [reflexivity |].
    split; [reflexivity |]. split; [reflexivity |]. split; [reflexivity |].
    split; [reflexivity |].
    intros ring ri rr Hin Hri Hrr. cbn [rc_rings] in Hin.
    cases_of_In; cbn in Hri, Hrr; injection Hri as <-; injection Hrr as <-;
      vm_compute; reflexivity.
  - destruct (layout DEFAULT_RADAR_PIE_CONFIG contentWithUnnamedSubSlice)
      as [content' | e] eqn:Hlayout; [| vm_compute in Hlayout; discriminate].
    vm_compute in Hlayout. injection Hlayout as <-.
    do 2 eexists. split; [reflexivity |]. split; [reflexivity |].
    split; [reflexivity |]. split; reflexivity.
  - destruct (RadarPie_constructor 0 DEFAULT_RADAR_PIE_CONFIG
                                   [@contentWithTwoRings float _])
      as [heap' [pie | e]] eqn:Hnew; [vm_compute in Hnew; discriminate |].
    vm_compute in Hnew. injection Hnew as <- <-.
    do 4 eexists. split; [reflexivity |]. split; [reflexivity |].
    split; [reflexivity |]. split; reflexivity.
Qed.

(* ================================================================== *)
(** * [RadarContainer]: [appendTo] without data *)
(* ================================================================== *)

Section ContainerGuard.

Context {num : Type} `{JSNumber num} `{JSTrig num}.
Variable render :
  RadarPie (num := num) -> Heap (num := num) ->
  outcome (ContainerError num) (Heap (num := num)).

(** X18: [appendTo] refuses with its [RadarError] a container that has
    neither data source nor content.  A container whose [fetchData] was
    rejected has its data source and no content: it passes this test, and
    [appendTo] fails in the constructor of [RadarPie], on a property of
    [undefined].  In both cases the [svg] element has been appended to the
    element before, and the heap is as it was. *)
Theorem appendTo_without_content
        (this : RadarContainer) (cfg : RadarPieConfig num)
        (element : list string) (heap : Heap (num := num)) :
  container_radarContent this = None ->
  (container_dataSource this = None ->
   appendTo render this cfg element heap
   = ((this, element ++ ["svg"%string], heap),
      Throws (RadarError "Call fetchData before calling getElement")))
  /\ (forall dataSource,
         ds_fetchData_rejects dataSource = true ->
         exists this1,
           fetchData this dataSource = (this1, Throws FetchRejected)
           /\ container_dataSource this1 = Some dataSource
           /\ container_radarContent this1 = None
           /\ appendTo render this1 cfg element heap
              = ((this1, element ++ ["svg"%string], heap),
                 Throws (PieError (TypeError "radarContentInput.groups")))).
Proof.
  intros Hcontent. split.
  - intros Hsource. unfold appendTo. now rewrite Hsource, Hcontent.
  - intros dataSource Hrejects. unfold fetchData. rewrite Hrejects.
    eexists. split; [reflexivity |]. cbn.
    split; [reflexivity |]. split; [exact Hcontent |].
    unfold appendTo. cbn. rewrite Hcontent. reflexivity.
Qed.

End ContainerGuard.

Lemma appendTo_without_content_witness :
  let this : RadarContainer (num := float) :=
    {| container_dataSource := None;
       container_radarContent := None;
       container_radarPie := None |} in
  let dataSource :=
    {| ds_fetchData_rejects := true; ds_getRadarContent := 0 |} in
  container_radarContent this = None
  /\ appendTo (fun _ heap => Returns heap) this DEFAULT_RADAR_PIE_CONFIG
              [] [exampleContent]
     = ((this, ["svg"%string], [exampleContent]),
        Throws (RadarError "Call fetchData before calling getElement"))
  /\ appendTo (fun _ heap => Returns heap) (fst (fetchData this dataSource))
              DEFAULT_RADAR_PIE_CONFIG [] [exampleContent]
     = ((fst (fetchData this dataSource), ["svg"%string], [exampleContent]),
        Throws (PieError (TypeError "radarContentInput.groups"))).
Proof.
  intros this dataSource.
  destruct (@appendTo_without_content float _ _ (fun _ heap => Returns heap)
              this DEFAULT_RADAR_PIE_CONFIG [] [exampleContent] eq_refl)
    as (Hguard & Hrejected).
  split; [reflexivity |]. split; [exact (Hguard eq_refl) |].
  destruct (Hrejected dataSource eq_refl) as (this1 & Hfetch & _ & _ & Happend).
  rewrite Hfetch. exact Happend.
Defined.

(* ================================================================== *)
(** * From the pie to its segments *)
(* ================================================================== *)

Section PieThenSegments.

Context {num : Type} `{JSNumber num} `{JSTrig num}.
Variable cfg : RadarPieConfig num.
Variable arcGenerator : DefaultArcObject num -> string.
Variable arcGenerator_centroid : DefaultArcObject num -> Point (num := num).
Variable flattenSVGPath : string -> list (Point (num := num)).
Variable distributePointsWithinBoundary :
  list (Point (num := num)) -> nat -> list (Point (num := num)).

Lemma segment_constructor_returns
      (seg : Segment num) (rings : list (RingInfo num))
      (ring : RingInfo num) (arcParams : DefaultArcObject num) :
  nth_error rings (seg_ringLevel seg) = Some ring ->
  seg_arcParams seg = Some arcParams ->
  (forall boundary count,
      length (distributePointsWithinBoundary boundary count) <= count) ->
  exists radarSegment calls,
    RadarSegment_constructor arcGenerator arcGenerator_centroid flattenSVGPath
      distributePointsWithinBoundary seg rings
    = Normal (radarSegment, calls)
    /\ opacity radarSegment = ring_opacity ring
    /\ map (@item_groupId num) (seg_items (segment radarSegment))
       = map (@item_groupId num) (seg_items seg).
Proof.
  intros Hring Harc Hpoints. unfold RadarSegment_constructor.
  rewrite Hring, Harc. unfold getItemBoundaryArc. unfold Point in *.
  destruct (seg_items seg) as [| item [| item' rest]] eqn:Hitems.
  - cbn. eexists. eexists. split; [reflexivity |]. cbn. auto.
  - cbn. eexists. eexists. split; [reflexivity |]. cbn. auto.
  - cbn [length Nat.eqb Nat.ltb Nat.leb].
    rewrite setPositions_placedAlong.
    rewrite (proj2 (Nat.leb_le _ _) (Hpoints _ _)).
    cbn. eexists. eexists. split; [reflexivity |]. cbn.
    split; [reflexivity |].
    exact (placedAlong_groupIds _ (item :: item' :: rest)).
Qed.

(** X19: the segments of the sub-slices the constructor of [RadarPie] has
    laid out are ready for the constructor of [RadarSegment], as
    [getElement] calls it with the rings of the pie: each has its arc and a
    ring at its level, so that the segment object is built, with the opacity
    of this ring and the items of the segment placed, whenever
    [distributePointsWithinBoundary] returns no more points than it is asked
    for. *)
Theorem laid_out_segments_are_built
        (content content' : RadarContent num) :
  layout cfg content = Normal content' ->
  noArcsYet (rc_slices content) ->
  (forall boundary count,
      length (distributePointsWithinBoundary boundary count) <= count) ->
  forall slice subSlice a seg,
    In slice (rc_slices content') ->
    In subSlice (slice_subSlices slice) ->
    ss_arcParams subSlice = Some a ->
    In seg (ss_segments subSlice) ->
    exists radarSegment calls ring,
      RadarSegment_constructor arcGenerator arcGenerator_centroid
        flattenSVGPath distributePointsWithinBoundary seg (rc_rings content')
      = Normal (radarSegment, calls)
      /\ nth_error (rc_rings content') (seg_ringLevel seg) = Some ring
      /\ opacity radarSegment = ring_opacity ring
      /\ map (@item_groupId num) (seg_items (segment radarSegment))
         = map (@item_groupId num) (seg_items seg).
Proof.
  intros Hlayout Hfresh Hpoints slice ss a seg Hslice Hss Ha Hseg.
  destruct (@layout_follows _ _ _ cfg _ _ Hfresh Hlayout slice ss a seg
              Hslice Hss Ha Hseg)
    as (found & atLevel & _ & Hlevel & Harc).
  destruct (@segment_constructor_returns seg (rc_rings content') atLevel _
              Hlevel Harc Hpoints)
    as (radarSegment & calls & Hnew & Hopacity & Hitems).
  exists radarSegment, calls, atLevel. auto.
Qed.

End PieThenSegments.

Lemma laid_out_segments_are_built_witness :
  let distribute := fun (_ : list (float * float)) (count : nat) =>
                      repeat (1, 2)%float count in
  exists content',
    layout DEFAULT_RADAR_PIE_CONFIG exampleContent = Normal content'
    /\ noArcsYet (rc_slices (@exampleContent float _))
    /\ (forall boundary count, length (distribute boundary count) <= count)
    /\ forall slice subSlice a seg,
         In slice (rc_slices content') ->
         In subSlice (slice_subSlices slice) ->
         ss_arcParams subSlice = Some a ->
         In seg (ss_segments subSlice) ->
         exists radarSegment calls,
           RadarSegment_constructor (fun _ => EmptyString) d3_arc_centroid
             (fun _ => []) distribute seg (rc_rings content')
           = Normal (radarSegment, calls).
Proof.
  intros distribute.
  assert (Hfresh : noArcsYet (rc_slices (@exampleContent float _))).
  { intros slice ss Hs Hss. cases_of_In; reflexivity. }
  assert (Hpoints : forall boundary count,
             length (distribute boundary count) <= count).
  { intros boundary count. unfold distribute. now rewrite repeat_length. }
  destruct (layout DEFAULT_RADAR_PIE_CONFIG exampleContent)
    as [content' | e] eqn:Hlayout.
  - exists content'. split; [reflexivity |]. split; [exact Hfresh |].
    split; [exact Hpoints |].
    intros slice subSlice a seg Hslice HsubSlice Ha Hseg.
    destruct (@laid_out_segments_are_built float _ _
                DEFAULT_RADAR_PIE_CONFIG (fun _ => EmptyString)
                d3_arc_centroid (fun _ => []) distribute
                exampleContent content' Hlayout Hfresh Hpoints
                slice subSlice a seg Hslice HsubSlice Ha Hseg)
      as (radarSegment & calls & _ & Hnew & _).
    exists radarSegment, calls. exact Hnew.
  - vm_compute in Hlayout. discriminate.
Defined.
